(** * Dolphin installation and update orchestrator

    A shallow embedding of [src/dolphin/downloadDolphin.ts] (slippi-launcher)
    and the properties of its update decision, asset selection, download cache
    and platform installers.

    The TypeScript code is asynchronous and awaits its steps, so it is
    embedded as a state-and-exception monad over an explicit machine state:
    a file-system tree, a clock that indexes the answers of the outside world,
    the log sink and a history of the primitive calls that were issued. The
    one callback it does not await, that of [fs.readdir] in the disk-image
    installer, runs from a queue of jobs at the points where the installer
    awaits, as the event loop of the world picks them. *)

From Stdlib Require Import String Ascii List ZArith Bool Arith Lia.
Import ListNotations.
#[local] Set Warnings "-register-all".
Open Scope string_scope.
Open Scope list_scope.

Infix "+++" := String.append (at level 60, right associativity).

(** ** Strings *)

(** [String.prototype.endsWith] (without the optional position). *)
Definition endsWith (s t : string) : bool :=
  let n := String.length s in
  let m := String.length t in
  Nat.leb m n && String.eqb (substring (n - m) m s) t.

(** ** File system *)

(** A path is the list of its components, outermost first; [path.join] of
    components is list concatenation. *)
Definition path := list string.

Inductive node : Type :=
| File (data : string)
| Dir (entries : list (string * node)).

Fixpoint get (c : string) (es : list (string * node)) : option node :=
  match es with
  | [] => None
  | (c', n) :: es' => if String.eqb c c' then Some n else get c es'
  end.

Fixpoint put (c : string) (n : node) (es : list (string * node)) : list (string * node) :=
  match es with
  | [] => [(c, n)]
  | (c', n') :: es' => if String.eqb c c' then (c, n) :: es' else (c', n') :: put c n es'
  end.

Definition del (c : string) (es : list (string * node)) : list (string * node) :=
  filter (fun e => negb (String.eqb c (fst e))) es.

Fixpoint lookup (p : path) (n : node) : option node :=
  match p with
  | [] => Some n
  | c :: p' =>
      match n with
      | File _ => None
      | Dir es => match get c es with
                  | Some m => lookup p' m
                  | None => None
                  end
      end
  end.

Definition exists_at (p : path) (n : node) : bool :=
  match lookup p n with Some _ => true | None => false end.

Definition is_file_at (p : path) (n : node) : bool :=
  match lookup p n with Some (File _) => true | _ => false end.

(** Recursive removal ([rm -rf]): absent paths are left alone. *)
Fixpoint remove (p : path) (n : node) : node :=
  match p with
  | [] => Dir []
  | c :: p' =>
      match n with
      | File _ => n
      | Dir es =>
          match p' with
          | [] => Dir (del c es)
          | _ :: _ => match get c es with
                      | Some m => Dir (put c (remove p' m) es)
                      | None => n
                      end
          end
      end
  end.

(** Put a subtree at [p], creating the missing parent directories; fails when
    a proper prefix of [p] is a regular file. *)
Fixpoint place (p : path) (sub : node) (n : node) : option node :=
  match p with
  | [] => Some sub
  | c :: p' =>
      match n with
      | File _ => None
      | Dir es =>
          match place p' sub (match get c es with Some m => m | None => Dir [] end) with
          | Some m' => Some (Dir (put c m' es))
          | None => None
          end
      end
  end.

Definition mkdirp (p : path) (n : node) : option node :=
  match lookup p n with
  | Some (Dir _) => Some n
  | Some (File _) => None
  | None => place p (Dir []) n
  end.

Fixpoint is_prefix (p q : path) : bool :=
  match p, q with
  | [], _ => true
  | _ :: _, [] => false
  | a :: p', b :: q' => String.eqb a b && is_prefix p' q'
  end.

Definition listing (p : path) (n : node) : option (list string) :=
  match lookup p n with
  | Some (Dir es) => Some (map fst es)
  | _ => None
  end.

(** An archive is the flat list of its entries: a relative path with the file
    contents, or no contents for a directory entry. *)
Definition entry := (path * option string)%type.

Definition writeEntry (target : path) (e : entry) (n : node) : option node :=
  match snd e with
  | Some data =>
      match lookup (target ++ fst e) n with
      | Some (Dir _) => None
      | _ => place (target ++ fst e) (File data) n
      end
  | None => mkdirp (target ++ fst e) n
  end.

(** The two archive formats, each extracted by a library of its own. *)
Inductive Format := Zip | Dmg.

(** How an entry is written over what is there. adm-zip's [writeFileTo]
    returns without writing and without raising anything when the path of a
    file entry is an existing directory: the entry is skipped. *)
Definition writeAs (f : Format) (target : path) (e : entry) (n : node) : option node :=
  match f, snd e, lookup (target ++ fst e) n with
  | Zip, Some _, Some (Dir _) => Some n
  | _, _, _ => writeEntry target e n
  end.

(** Entries are written in order; the first one that cannot be written stops
    the extraction and leaves the earlier ones in place. *)
Fixpoint writeEntries (f : Format) (target : path) (es : list entry) (n : node)
    : node * bool :=
  match es with
  | [] => (n, true)
  | e :: es' =>
      match writeAs f target e n with
      | Some n' => writeEntries f target es' n'
      | None => (n, false)
      end
  end.

(** ** The outside world *)

Inductive DolphinLaunchType := NETPLAY | PLAYBACK.

Record Asset := mkAsset { name : string; browser_download_url : string }.
Record Release := mkRelease { tag_name : string; assets : list Asset }.

(** The primitive calls the module issues. *)
Inductive Action :=
| ARemove (p : path)
| AUnlink (p : path)
| AMove (src dst : path)
| AChmod (p : path) (mode : string)
| AChown (p : path) (uid gid : Z)
| AEnsureDir (p : path)
| AReaddir (p : path)
| AExtractZip (asset target : path)
| AExtractDmg (asset target : path)
| AGetLatestRelease (owner repo : string)
| ASpawnSync (exe : path) (args : list string)
| ADownload (url : string) (directory : path) (filename : string)
| AProgress (percent : string)
| AFinished (error : option string).

(** Everything the module reads from its environment. Answers of the network,
    of spawned processes and of the window system are indexed by the clock, so
    that a second query may answer differently from the first; faults of the
    file-system calls are indexed by the clock and the call. [resume k] is
    the event loop's choice while [installDolphin] waits at its [k]-th
    [await] after [fs.readdir]: the positions, in the queue of waiting
    callbacks, of those that run meanwhile, one after the other. *)
Record World := mkWorld {
  platform : string;                         (* process.platform *)
  userData : path;                           (* app.getPath("userData") *)
  home : path;                               (* app.getPath("home") *)
  sep : string;                              (* path.sep *)
  typeName : DolphinLaunchType -> string;    (* string values of the enum in ./types *)
  executablePath : DolphinLaunchType -> path;
  uid : Z;                                   (* os.userInfo() *)
  gid : Z;
  userInfoError : option string;             (* ... when it throws *)
  io_fault : nat -> Action -> option string;
  zipEntries : string -> option (list entry);
  dmgEntries : string -> option (list entry);
  latestRelease : nat -> string -> string -> string + Release;
  spawnStdout : nat -> path -> list string -> option string;
  focusedWindow : nat -> bool;
  downloadOutcome : nat -> string -> list string * (string + string);
  resume : nat -> list nat
}.

Record State := mkState {
  fs : node;
  now : nat;
  logs : list string;
  trace : list (node * Action)
}.

Definition set_fs (n : node) (s : State) : State :=
  mkState n (now s) (logs s) (trace s).

(** ** The monad: state with exceptions carrying the error message *)

Definition M (A : Type) : Type := State -> (string + A) * State.

Definition ret {A} (a : A) : M A := fun s => (inr a, s).

Definition bind {A B} (m : M A) (k : A -> M B) : M B :=
  fun s => match m s with
           | (inl e, s') => (inl e, s')
           | (inr a, s') => k a s'
           end.

Definition throw {A} (e : string) : M A := fun s => (inl e, s).

Definition try_catch {A} (m : M A) (h : string -> M A) : M A :=
  fun s => match m s with
           | (inl e, s') => h e s'
           | (inr a, s') => (inr a, s')
           end.

Notation "x <- m ;; k" := (bind m (fun x => k))
  (at level 61, m at next level, right associativity).
Notation "m ;; k" := (bind m (fun _ => k))
  (at level 61, right associativity).

Fixpoint forEach {A} (l : list A) (f : A -> M unit) : M unit :=
  match l with
  | [] => ret tt
  | a :: l' => f a ;; forEach l' f
  end.

Definition log (message : string) : M unit :=
  fun s => (inr tt, mkState (fs s) (now s) (logs s ++ [message]) (trace s)).

Definition emit (a : Action) : M unit :=
  fun s => (inr tt, mkState (fs s) (now s) (logs s) (trace s ++ [(fs s, a)])).

Definition tick : M nat :=
  fun s => (inr (now s), mkState (fs s) (S (now s)) (logs s) (trace s)).

Definition read {A} (f : node -> A) : M A := fun s => (inr (f (fs s)), s).

(** ** Callbacks that are not awaited

    [installDolphin] hands [fs.readdir] a callback and goes on without
    waiting for it; the callback starts an [unlink] per entry, each with a
    handler of its failure. What waits in the event loop is a queue of jobs:
    the callback of a [readdir] with what the call found, and the handlers of
    the [unlink]s that failed. *)
Inductive Job :=
| JListed (dir : path) (result : string + list string)
| JRejected (p : path).

Definition Queue := list Job.

(** A computation that runs beside such a queue: it is given the queue, and
    returns it with its result or the error it raised; the queue outlives
    the error. *)
Definition Async (A : Type) : Type := Queue -> M (Queue * (string + A)).

Definition aret {A} (a : A) : Async A := fun q => ret (q, inr a).

Definition abind {A B} (m : Async A) (k : A -> Async B) : Async B :=
  fun q =>
    r <- m q ;;
    match r with
    | (q', inl e) => ret (q', inl e)
    | (q', inr a) => k a q'
    end.

Definition atry {A} (m : Async A) (h : string -> Async A) : Async A :=
  fun q =>
    r <- m q ;;
    match r with
    | (q', inl e) => h e q'
    | (q', inr a) => ret (q', inr a)
    end.

(** A step during which no callback runs. *)
Definition sync {A} (m : M A) : Async A :=
  fun q s => let (r, s') := m s in (inr (q, r), s').

Notation "x <-- m ;;; k" := (abind m (fun x => k))
  (at level 61, m at next level, right associativity).
Notation "m ;;; k" := (abind m (fun _ => k))
  (at level 61, right associativity).

Fixpoint dropNth {A} (i : nat) (l : list A) : list A :=
  match i, l with
  | _, [] => []
  | O, _ :: l' => l'
  | S i', a :: l' => a :: dropNth i' l'
  end.

(** ** Semantic versions

    A model of [lt] of the [semver] package (strict mode), the one library
    function [compareDolphinVersion] relies on: [parse] follows the package's
    full regular expression and [compare] its [compareMain] and [comparePre].
    A numeric pre-release identifier below [MAX_SAFE_INTEGER] is kept as a
    number by the package and any other as the string of its digits; two
    numeric identifiers, numbers or strings of digits, are compared as
    numbers, that is as double-precision floating-point values. *)
Module SemVer.

Inductive ident := Num (n : N) | Alnum (s : string).

Record t := mk { major : N; minor : N; patch : N; prerelease : list ident }.

Definition MAX_LENGTH : nat := 256.
Definition MAX_SAFE_INTEGER : N := 9007199254740991.

Definition between (lo hi : nat) (c : ascii) : bool :=
  Nat.leb lo (nat_of_ascii c) && Nat.leb (nat_of_ascii c) hi.

Definition is_digit (c : ascii) : bool := between 48 57 c.
Definition is_letter (c : ascii) : bool := between 65 90 c || between 97 122 c.
Definition is_idchar (c : ascii) : bool :=
  is_digit c || is_letter c || Ascii.eqb c "-".
Definition is_space (c : ascii) : bool := between 9 13 c || Ascii.eqb c " ".

Fixpoint dropWhile (f : ascii -> bool) (l : list ascii) : list ascii :=
  match l with
  | [] => []
  | c :: l' => if f c then dropWhile f l' else l
  end.

Definition trim (l : list ascii) : list ascii :=
  rev (dropWhile is_space (rev (dropWhile is_space l))).

Fixpoint span (f : ascii -> bool) (l : list ascii) : list ascii * list ascii :=
  match l with
  | [] => ([], [])
  | c :: l' => if f c then let (a, b) := span f l' in (c :: a, b) else ([], l)
  end.

Definition value (ds : list ascii) : N :=
  fold_left (fun acc d => (acc * 10 + N.of_nat (nat_of_ascii d - 48))%N) ds 0%N.

(** [0|[1-9]\d*] *)
Definition numeric (ds : list ascii) : option N :=
  match ds with
  | [] => None
  | c :: ds' =>
      if forallb is_digit ds then
        if Ascii.eqb c "0" && negb (Nat.eqb (List.length ds') 0) then None
        else Some (value ds)
      else None
  end.

(** Split at the dots. *)
Fixpoint split_dots (l : list ascii) (cur : list ascii) : list (list ascii) :=
  match l with
  | [] => [rev cur]
  | c :: l' => if Ascii.eqb c "." then rev cur :: split_dots l' [] else split_dots l' (c :: cur)
  end.

(** [0|[1-9]\d*|\d*[a-zA-Z-][a-zA-Z0-9-]*] *)
Definition pre_ident (seg : list ascii) : option ident :=
  match seg with
  | [] => None
  | _ :: _ =>
      if forallb is_digit seg then
        match numeric seg with
        | Some n => Some (Num n)
        | None => None
        end
      else if forallb is_idchar seg then Some (Alnum (string_of_list_ascii seg))
      else None
  end.

(** [[0-9A-Za-z-]+] *)
Definition build_ident (seg : list ascii) : bool :=
  match seg with
  | [] => false
  | _ :: _ => forallb is_idchar seg
  end.

Fixpoint all_some {A} (l : list (option A)) : option (list A) :=
  match l with
  | [] => Some []
  | Some a :: l' => match all_some l' with Some r => Some (a :: r) | None => None end
  | None :: _ => None
  end.

Definition parse_build (l : list ascii) : bool :=
  match l with
  | [] => true
  | c :: l' => Ascii.eqb c "+" && forallb build_ident (split_dots l' [])
  end.

(** What follows the three numbers: an optional [-prerelease] and an
    optional [+build]. *)
Definition parse_tail (l : list ascii) : option (list ident) :=
  match l with
  | c :: l' =>
      if Ascii.eqb c "-" then
        let (pre, rest) := span (fun c => negb (Ascii.eqb c "+")) l' in
        if parse_build rest then all_some (map pre_ident (split_dots pre [])) else None
      else if parse_build l then Some [] else None
  | [] => Some []
  end.

Definition safe (n : N) : option N :=
  if (MAX_SAFE_INTEGER <? n)%N then None else Some n.

(** [new SemVer(version)]: the version, or the message of the [TypeError]. *)
Definition construct (version : string) : string + t :=
  if Nat.ltb MAX_LENGTH (String.length version) then
    inl "version is longer than 256 characters"
  else
  let invalid : string + t := inl ("Invalid Version: " +++ version) in
  let l := trim (list_ascii_of_string version) in
  let l := match l with
           | c :: r => if Ascii.eqb c "v" then r else l
           | [] => l
           end in
  let (d1, l1) := span is_digit l in
  match numeric d1, l1 with
  | Some ma, c1 :: l1' =>
      let (d2, l2) := span is_digit l1' in
      match numeric d2, l2 with
      | Some mi, c2 :: l2' =>
          let (d3, l3) := span is_digit l2' in
          match numeric d3, parse_tail l3 with
          | Some pa, Some pre =>
              if Ascii.eqb c1 "." && Ascii.eqb c2 "." then
                match safe ma, safe mi, safe pa with
                | Some ma', Some mi', Some pa' => inr (mk ma' mi' pa' pre)
                | None, _, _ => inl "Invalid major version"
                | _, None, _ => inl "Invalid minor version"
                | _, _, None => inl "Invalid patch version"
                end
              else invalid
          | _, _ => invalid
          end
      | _, _ => invalid
      end
  | _, _ => invalid
  end.

Definition parse (version : string) : option t :=
  match construct version with
  | inr v => Some v
  | inl _ => None
  end.

(** The integer value of the double nearest to [n], ties going to the even
    significand: what the conversion to a number makes of a string of
    digits. Integers of at most 53 bits are doubles themselves. *)
Definition toNumber (n : N) : N :=
  let bits := N.size n in
  if (bits <=? 53)%N then n
  else
    let e := (bits - 53)%N in
    let q := N.shiftr n e in
    let r := N.land n (N.ones e) in
    let half := N.shiftl 1 (e - 1) in
    let q' := if (half <? r)%N || ((r =? half)%N && N.odd q) then (q + 1)%N else q in
    N.shiftl q' e.

Definition compareIdentifiers (a b : ident) : comparison :=
  match a, b with
  | Num x, Num y => N.compare (toNumber x) (toNumber y)
  | Num _, Alnum _ => Lt
  | Alnum _, Num _ => Gt
  | Alnum x, Alnum y => String.compare x y
  end.

(** [a === b] on identifiers. *)
Definition ident_eqb (a b : ident) : bool :=
  match a, b with
  | Num x, Num y => N.eqb x y
  | Alnum x, Alnum y => String.eqb x y
  | _, _ => false
  end.

Definition compareMain (a b : t) : comparison :=
  match N.compare (major a) (major b) with
  | Eq => match N.compare (minor a) (minor b) with
          | Eq => N.compare (patch a) (patch b)
          | c => c
          end
  | c => c
  end.

Fixpoint comparePreFrom (p q : list ident) : comparison :=
  match p, q with
  | [], [] => Eq
  | _ :: _, [] => Gt
  | [], _ :: _ => Lt
  | x :: p', y :: q' =>
      if ident_eqb x y then comparePreFrom p' q' else compareIdentifiers x y
  end.

Definition comparePre (a b : t) : comparison :=
  match prerelease a, prerelease b with
  | _ :: _, [] => Lt
  | [], _ :: _ => Gt
  | [], [] => Eq
  | p, q => comparePreFrom p q
  end.

Definition compare (a b : t) : comparison :=
  match compareMain a b with
  | Eq => comparePre a b
  | c => c
  end.

(** [lt(v1, v2)]: [None] stands for the [TypeError] of an invalid version. *)
Definition lt (v1 v2 : string) : option bool :=
  match parse v1, parse v2 with
  | Some a, Some b => Some (match compare a b with Lt => true | _ => false end)
  | _, _ => None
  end.

(** The message of that [TypeError]: [v1] is constructed first. *)
Definition typeError (v1 v2 : string) : string :=
  match construct v1, construct v2 with
  | inl e, _ => e
  | inr _, inl e => e
  | inr _, inr _ => ""
  end.

End SemVer.

(** ** The module [downloadDolphin.ts] *)

Section Program.

Variable W : World.

Definition nl : string := String (ascii_of_nat 10) EmptyString.

(** The string [path.join] returns for a list of components. *)
Definition pathStr (p : path) : string := String.concat (sep W) p.

Definition faultCheck (a : Action) : M unit :=
  fun s => match io_fault W (now s) a with
           | Some e => (inl e, s)
           | None => (inr tt, s)
           end.

(** A call into the file system: it is recorded, it may fault, and otherwise
    it has its effect [f]; a call that fails part-way keeps what it did. *)
Definition fscall (a : Action) (f : node -> node * option string) : M unit :=
  emit a ;;
  faultCheck a ;;
  fun s => match f (fs s) with
           | (n, Some e) => (inl e, set_fs n s)
           | (n, None) => (inr tt, set_fs n s)
           end.

(** [fs.remove] and [fs.removeSync] of fs-extra. *)
Definition fs_remove (p : path) : M unit :=
  fscall (ARemove p) (fun n => (remove p n, None)).

Definition fs_unlink (p : path) : M unit :=
  fscall (AUnlink p) (fun n =>
    match lookup p n with
    | Some (File _) => (remove p n, None)
    | Some (Dir _) => (n, Some "EPERM: operation not permitted, unlink")
    | None => (n, Some "ENOENT: no such file or directory, unlink")
    end).

(** [fs.move] of fs-extra without the [overwrite] option: the source must
    exist, the destination must neither lie inside the source nor exist; the
    parents of the destination are created. *)
Definition fs_move (src dst : path) : M unit :=
  fscall (AMove src dst) (fun n =>
    match lookup src n with
    | None => (n, Some "ENOENT: no such file or directory, stat")
    | Some sub =>
        if is_prefix src dst then (n, Some "Cannot move to a subdirectory of itself.")
        else if exists_at dst n then (n, Some "dest already exists.")
        else match place dst sub (remove src n) with
             | Some n' => (n', None)
             | None => (n, Some "ENOTDIR: not a directory, mkdir")
             end
    end).

Definition fs_chmod (p : path) (mode : string) : M unit :=
  fscall (AChmod p mode) (fun n =>
    if exists_at p n then (n, None)
    else (n, Some "ENOENT: no such file or directory, chmod")).

Definition fs_chown (p : path) (u g : Z) : M unit :=
  fscall (AChown p u g) (fun n =>
    if exists_at p n then (n, None)
    else (n, Some "ENOENT: no such file or directory, chown")).

Definition fs_ensureDir (p : path) : M unit :=
  fscall (AEnsureDir p) (fun n =>
    match mkdirp p n with
    | Some n' => (n', None)
    | None => (n, Some "ENOTDIR: not a directory, mkdir")
    end).

(** [fs.pathExists] never rejects. *)
Definition fs_pathExists (p : path) : M bool := read (exists_at p).

(** Extraction of an archive file over a target directory, overwriting
    ([new AdmZip(asset).extractAllTo(target, true)] and [extractDmg]).
    adm-zip creates directories as the entries need them; a disk image is
    copied into the target directory, which is created first. What stops
    adm-zip is a regular file where a directory has to be. *)
Definition extractOver (f : Format) (asset target : path) : M unit :=
  fscall (match f with
          | Zip => AExtractZip asset target
          | Dmg => AExtractDmg asset target
          end)
    (fun n =>
       match lookup asset n with
       | Some (File data) =>
           match (match f with Zip => zipEntries W | Dmg => dmgEntries W end) data with
           | Some es =>
               match (match f with Zip => Some n | Dmg => mkdirp target n end) with
               | Some n1 =>
                   match writeEntries f target es n1, f with
                   | (n2, true), _ => (n2, None)
                   | (n2, false), Zip => (n2, Some "There is a file in the way")
                   | (n2, false), Dmg =>
                       (n2, Some "EISDIR: illegal operation on a directory, open")
                   end
               | None => (n, Some "ENOTDIR: not a directory, mkdir")
               end
           | None => (n, Some "Invalid or unsupported archive format")
           end
       | _ => (n, Some "ENOENT: no such file or directory, open")
       end).

Definition extractAllTo (asset target : path) : M unit := extractOver Zip asset target.

Definition extractDmg (asset target : path) : M unit := extractOver Dmg asset target.

(** Modelled from the spec: [fileExists] of [../main/fileExists], which is not
    part of the sources at hand: whether a file of that name exists. *)
Definition fileExists (p : path) : M bool := read (is_file_at p).

(** Modelled from the spec: [findDolphinExecutable] of [./util], which is not
    part of the sources at hand: it returns the expected executable path of
    the kind, by the fixed layout convention of the platform
    ([executablePath]), and fails when nothing is there. *)
Definition findDolphinExecutable (type : DolphinLaunchType) : M path :=
  found <- read (exists_at (executablePath W type)) ;;
  if found then ret (executablePath W type)
  else throw ("No Dolphin found in: " +++ pathStr (userData W ++ [typeName W type])).

(** Modelled from the spec: [getLatestRelease] of [../main/github], which is
    not part of the sources at hand: one query to the release-metadata
    provider, answered with the release (tag and assets in the provider's
    order) or failing. *)
Definition getLatestRelease (owner repo : string) : M Release :=
  t <- tick ;;
  emit (AGetLatestRelease owner repo) ;;
  match latestRelease W t owner repo with
  | inl e => throw e
  | inr r => ret r
  end.

(** [spawnSync(exe, args).stdout.toString()]: a process that could not be
    spawned has a null [stdout]. *)
Definition spawnSyncStdout (exe : path) (args : list string) : M string :=
  t <- tick ;;
  emit (ASpawnSync exe args) ;;
  match spawnStdout W t exe args with
  | Some out => ret out
  | None => throw "Cannot read property 'toString' of null"
  end.

Definition getFocusedWindow : M bool :=
  t <- tick ;;
  ret (focusedWindow W t).

(** [download] of electron-dl: progress callbacks while the transfer runs,
    then the file stands at [directory/filename], or the transfer fails. *)
Definition download (url : string) (directory : path) (filename : string)
    (onProgress : string -> M unit) : M unit :=
  t <- tick ;;
  emit (ADownload url directory filename) ;;
  let (progress, outcome) := downloadOutcome W t url in
  forEach progress (fun p => emit (AProgress p) ;; onProgress p) ;;
  match outcome with
  | inl e => throw e
  | inr data =>
      fun s => match writeEntry directory ([filename], Some data) (fs s) with
               | Some n => (inr tt, set_fs n s)
               | None => (inl "EISDIR: illegal operation on a directory, open", s)
               end
  end.

(** Modelled from the spec: the trigger of [ipc_dolphinDownloadFinishedEvent]
    of [./ipc], which is not part of the sources at hand: it hands the
    terminal event to the host application. *)
Definition triggerFinished (error : option string) : M unit :=
  emit (AFinished error).

Definition getLatestReleaseData (type : DolphinLaunchType) : M Release :=
  let owner := "project-slippi" in
  let repo := "Ishiiruka" in
  let repo := match type with
              | PLAYBACK => repo +++ "-Playback"
              | NETPLAY => repo
              end in
  getLatestRelease owner repo.

Definition matchesPlatform (releaseName : string) : bool :=
  if String.eqb (platform W) "win32" then endsWith releaseName "Win.zip"
  else if String.eqb (platform W) "darwin" then endsWith releaseName "Mac.dmg"
  else if String.eqb (platform W) "linux" then endsWith releaseName "Linux.zip"
  else false.

Definition getLatestDolphinAsset (type : DolphinLaunchType) : M Asset :=
  release <- getLatestReleaseData type ;;
  match find (fun a => matchesPlatform (name a)) (assets release) with
  | Some asset => ret asset
  | None => throw ("No release asset matched the current platform: " +++ platform W)
  end.

Definition compareDolphinVersion (type : DolphinLaunchType) (latestVersion : string) : M bool :=
  dolphinPath <- findDolphinExecutable type ;;
  dolphinVersion <- spawnSyncStdout dolphinPath ["--version"] ;;
  match SemVer.lt dolphinVersion latestVersion with
  | Some b => ret b
  | None => throw (SemVer.typeError dolphinVersion latestVersion)
  end.

Definition downloadLatestDolphin (type : DolphinLaunchType) : M path :=
  asset <- getLatestDolphinAsset type ;;
  let downloadDir := userData W ++ ["temp"] in
  fs_ensureDir downloadDir ;;
  let downloadLocation := downloadDir ++ [name asset] in
  exists_ <- fileExists downloadLocation ;;
  (if negb exists_ then
     log ("Downloading " +++ browser_download_url asset +++ " to " +++ pathStr downloadLocation) ;;
     win <- getFocusedWindow ;;
     if win then
       download (browser_download_url asset) downloadDir (name asset)
         (fun percent => log ("Downloading... " +++ percent +++ "%")) ;;
       log ("Successfully downloaded " +++ browser_download_url asset +++ " to "
            +++ pathStr downloadLocation)
     else
       log "I dunno how we got here, but apparently there isn't a browser window /shrug"
   else
     log (pathStr downloadLocation +++ " already exists. Skipping download.")) ;;
  ret downloadLocation.

(** [os.userInfo()]. *)
Definition os_userInfo : M (Z * Z) :=
  match userInfoError W with
  | Some e => throw e
  | None => ret (uid W, gid W)
  end.

(** Whether [m] went through; what it raised is dropped. *)
Definition settles (m : M unit) : M bool :=
  fun s => let (r, s') := m s in
           (inr (match r with inr _ => true | inl _ => false end), s').

Fixpoint collect {A B} (l : list A) (f : A -> M (list B)) : M (list B) :=
  match l with
  | [] => ret []
  | a :: l' => bs <- f a ;; rest <- collect l' f ;; ret (bs ++ rest)
  end.

(** One job of the queue runs; it returns the jobs it queues in turn. The
    callback of [readdir] logs the error of the call, or starts an [unlink]
    for every entry other than the application bundle, all of them at once;
    the handler of an [unlink] that failed removes the entry with
    [fs.removeSync], and what that raises reaches nobody. *)
Definition runJob (j : Job) : M Queue :=
  match j with
  | JListed dir (inl e) => log e ;; ret []
  | JListed dir (inr files) =>
      collect files (fun file =>
        if negb (String.eqb file "Slippi Dolphin.app") then
          unlinked <- settles (fs_unlink (dir ++ [file])) ;;
          ret (if unlinked then [] else [JRejected (dir ++ [file])])
        else ret [])
  | JRejected p => settles (fs_remove p) ;; ret []
  end.

(** The jobs the event loop picks run one after the other. *)
Fixpoint turn (picks : list nat) (q : Queue) : M Queue :=
  match picks with
  | [] => ret q
  | i :: picks' =>
      match nth_error q i with
      | Some j => queued <- runJob j ;; turn picks' (dropNth i q ++ queued)
      | None => turn picks' q
      end
  end.

(** [await m], the [k]-th after [fs.readdir]: the call is issued, the jobs
    the event loop picks run while it is pending, then its result or its
    error is delivered. *)
Definition await {A} (k : nat) (m : M A) : Async A :=
  fun q =>
    r <- sync m q ;;
    q' <- turn (resume W k) (fst r) ;;
    ret (q', snd r).

(** [fs.readdir(dir, callback)] of fs-extra: given a callback, it returns no
    promise; the call is issued and its callback joins the queue with what
    the call finds. Awaiting what it returns lets no job run. *)
Definition fs_readdir (dir : path) : Async unit :=
  fun q =>
    emit (AReaddir dir) ;;
    fun s =>
      let result :=
        match io_fault W (now s) (AReaddir dir), listing dir (fs s) with
        | Some e, _ => inl e
        | None, None => inl "ENOENT: no such file or directory, scandir"
        | None, Some files => inr files
        end in
      (inr (q ++ [JListed dir result], inr tt), s).

(** An asynchronous part of a function, from an empty queue; the jobs still
    waiting when it is over are left out of the model. *)
Definition runAsync {A} (m : Async A) : M A :=
  r <- m [] ;;
  match snd r with
  | inl e => throw e
  | inr a => ret a
  end.

Definition installDolphin (type : DolphinLaunchType) (assetPath : path)
    (cleanInstall : bool) : M unit :=
  let dolphinPath := userData W ++ [typeName W type] in
  (if cleanInstall then fs_remove dolphinPath else ret tt) ;;
  if String.eqb (platform W) "win32" then
    log ("Extracting to: " +++ pathStr dolphinPath) ;;
    extractAllTo assetPath dolphinPath
  else if String.eqb (platform W) "darwin" then
    let backupLocation := userData W ++ [typeName W type +++ "_old"] in
    let dolphinResourcesPath :=
      dolphinPath ++ ["Slippi Dolphin.app"; "Contents"; "Resources"] in
    alreadyInstalled <- fs_pathExists dolphinResourcesPath ;;
    (if alreadyInstalled then
       log (pathStr dolphinResourcesPath +++ " already exists. Moving...") ;;
       fs_move dolphinPath backupLocation
     else ret tt) ;;
    log ("Extracting to: " +++ pathStr dolphinPath) ;;
    extractDmg assetPath dolphinPath ;;
    runAsync
      (fs_readdir dolphinPath ;;;
       let binaryLocation :=
         dolphinPath ++ ["Slippi Dolphin.app"; "Contents"; "MacOS"; "Slippi Dolphin"] in
       userInfo <-- sync os_userInfo ;;;
       atry
         (await 1 (fs_chmod (dolphinPath ++ ["Slippi Dolphin.app"]) "777") ;;;
          await 2 (fs_chown (dolphinPath ++ ["Slippi Dolphin.app"])
                     (fst userInfo) (snd userInfo)) ;;;
          await 3 (fs_chmod binaryLocation "777") ;;;
          await 4 (fs_chown binaryLocation (fst userInfo) (snd userInfo)))
         (fun err =>
            sync (log ("could not chmod/chown " +++ typeName W type +++ " Dolphin" +++ nl
                       +++ "Error: " +++ err))) ;;;
       if alreadyInstalled then
         let oldUserFolder :=
           backupLocation ++ ["Slippi Dolphin.app"; "Contents"; "Resources"; "User"] in
         let newUserFolder := dolphinResourcesPath ++ ["User"] in
         oldExists <-- await 5 (fs_pathExists oldUserFolder) ;;;
         (if oldExists then
            sync (log "moving User folder...") ;;;
            await 6 (fs_move oldUserFolder newUserFolder)
          else sync (log "no old User folder to move")) ;;;
         await 7 (fs_remove backupLocation)
       else aret tt)
  else if String.eqb (platform W) "linux" then
    try_catch
      (dolphinAppImagePath <- findDolphinExecutable type ;;
       present <- fileExists dolphinAppImagePath ;;
       if present then
         log (pathStr dolphinAppImagePath +++ " already exists. Deleting...") ;;
         fs_remove dolphinAppImagePath
       else ret tt)
      (fun _ => log "No existing AppImage found") ;;
    (if cleanInstall then
       let userFolder := match type with
                         | NETPLAY => "SlippiOnline"
                         | PLAYBACK => "SlippiPlayback"
                         end in
       fs_remove (home W ++ [".config"; userFolder])
     else ret tt) ;;
    extractAllTo assetPath dolphinPath ;;
    dolphinAppImagePath <- findDolphinExecutable type ;;
    log "Setting executable permissions..." ;;
    fs_chmod dolphinAppImagePath "755"
  else
    throw ("Installing Netplay is not supported on this platform: " +++ platform W).

Definition downloadAndInstallDolphin (type : DolphinLaunchType) (cleanInstall : bool) : M unit :=
  downloadedAsset <- downloadLatestDolphin type ;;
  log ("Installing " +++ typeName W type +++ " Dolphin...") ;;
  installDolphin type downloadedAsset cleanInstall ;;
  log ("Finished " +++ typeName W type +++ " installing").

Definition assertDolphinInstallation (type : DolphinLaunchType) : M unit :=
  try_catch
    (findDolphinExecutable type ;;
     log ("Found existing " +++ typeName W type +++ " Dolphin executable.") ;;
     log ("Checking if we need to update " +++ typeName W type +++ " Dolphin") ;;
     data <- getLatestReleaseData type ;;
     let latestVersion := tag_name data in
     isOutdated <- compareDolphinVersion type latestVersion ;;
     if isOutdated then
       log (typeName W type +++ " Dolphin installation is outdated. Downloading latest...") ;;
       downloadAndInstallDolphin type false
     else
       log "No update found...")
    (fun err =>
       log ("Could not find " +++ typeName W type +++ " Dolphin installation. Downloading...") ;;
       downloadAndInstallDolphin type false).

(** [console.error] writes to the process's standard error and leaves the
    state modelled here alone. *)
Definition assertDolphinInstallations : M unit :=
  try_catch
    (assertDolphinInstallation NETPLAY ;;
     assertDolphinInstallation PLAYBACK ;;
     triggerFinished None)
    (fun err => triggerFinished (Some err)).

End Program.

(** The child process [spawn] returns, described by what it was spawned
    with. *)
Record ChildProcess := mkChild { spawnfile : path; spawnargs : list string }.

(** [params] may be left out. *)
Definition openDolphin (W : World) (type : DolphinLaunchType) (params : option (list string))
    : M ChildProcess :=
  dolphinPath <- findDolphinExecutable W type ;;
  ret (mkChild dolphinPath (match params with Some l => l | None => [] end)).

(** The world [w] with other faults of the file-system calls. *)
Definition with_io_fault (f : nat -> Action -> option string) (w : World) : World :=
  {| platform := platform w; userData := userData w; home := home w; sep := sep w;
     typeName := typeName w; executablePath := executablePath w;
     uid := uid w; gid := gid w; userInfoError := userInfoError w;
     io_fault := f;
     zipEntries := zipEntries w; dmgEntries := dmgEntries w;
     latestRelease := latestRelease w; spawnStdout := spawnStdout w;
     focusedWindow := focusedWindow w; downloadOutcome := downloadOutcome w;
     resume := resume w |}.

(** ** Concrete worlds, used to run the model *)
Module Sample.

Definition kindName (t : DolphinLaunchType) : string :=
  match t with NETPLAY => "netplay" | PLAYBACK => "playback" end.

Definition bundle : string := "Slippi Dolphin.app".

Definition darwinExe (t : DolphinLaunchType) : path :=
  ["data"; kindName t; bundle; "Contents"; "MacOS"; "Slippi Dolphin"].

Definition linuxExe (t : DolphinLaunchType) : path :=
  ["data"; kindName t; "Slippi_Online-x86_64.AppImage"].

Definition dmg : list entry :=
  [ ([bundle; "Contents"; "MacOS"; "Slippi Dolphin"], Some "dolphin-2.10.0");
    ([bundle; "Contents"; "Resources"; "Sys"; "GameSettings.ini"], Some "sys");
    ([".background"], None);
    (["Applications"], Some "link") ].

Definition zip : list entry :=
  [ (["Slippi_Online-x86_64.AppImage"], Some "appimage-2.10.0");
    (["Sys"; "GameSettings.ini"], Some "sys") ].

Definition decode (payload : list entry) (tag data : string) : option (list entry) :=
  if String.eqb data tag then Some payload else None.

Definition release (suffix : string) : Release :=
  mkRelease "v2.10.0"
    [ mkAsset "Slippi-Source.tar.gz" "https://releases/source";
      mkAsset ("FM-Slippi-2.10.0-" +++ suffix) ("https://releases/" +++ suffix) ].

(** A well-behaved world: nothing faults, the provider answers, downloads
    deliver the archive, a window has the focus. The callback of [readdir]
    runs while the first permission call is pending, the handler of the
    first [unlink] that failed while the second is. *)
Definition world (plat : string) (exe : DolphinLaunchType -> path) (suffix : string) : World :=
  {| platform := plat;
     userData := ["data"];
     home := ["home"];
     sep := "/";
     typeName := kindName;
     executablePath := exe;
     uid := 501;
     gid := 20;
     userInfoError := None;
     io_fault := fun _ _ => None;
     zipEntries := decode zip "zip-archive";
     dmgEntries := decode dmg "dmg-image";
     latestRelease := fun _ _ _ => inr (release suffix);
     spawnStdout := fun _ _ _ => Some "2.9.0";
     focusedWindow := fun _ => true;
     downloadOutcome := fun _ _ => (["50"; "100"],
        inr (if String.eqb plat "darwin" then "dmg-image" else "zip-archive"));
     resume := fun k => if Nat.leb k 2 then [0] else [] |}.

Definition darwin : World := world "darwin" darwinExe "Mac.dmg".
Definition linux : World := world "linux" linuxExe "Linux.zip".
Definition win32 : World := world "win32" linuxExe "Win.zip".
Definition freebsd : World := world "freebsd" linuxExe "Linux.zip".

Definition with_latestRelease (f : nat -> string -> string -> string + Release)
    (w : World) : World :=
  {| platform := platform w; userData := userData w; home := home w; sep := sep w;
     typeName := typeName w; executablePath := executablePath w;
     uid := uid w; gid := gid w; userInfoError := userInfoError w;
     io_fault := io_fault w;
     zipEntries := zipEntries w; dmgEntries := dmgEntries w;
     latestRelease := f; spawnStdout := spawnStdout w;
     focusedWindow := focusedWindow w; downloadOutcome := downloadOutcome w;
     resume := resume w |}.

Definition with_spawnStdout (f : nat -> path -> list string -> option string)
    (w : World) : World :=
  {| platform := platform w; userData := userData w; home := home w; sep := sep w;
     typeName := typeName w; executablePath := executablePath w;
     uid := uid w; gid := gid w; userInfoError := userInfoError w;
     io_fault := io_fault w;
     zipEntries := zipEntries w; dmgEntries := dmgEntries w;
     latestRelease := latestRelease w; spawnStdout := f;
     focusedWindow := focusedWindow w; downloadOutcome := downloadOutcome w;
     resume := resume w |}.

Definition with_focusedWindow (f : nat -> bool) (w : World) : World :=
  {| platform := platform w; userData := userData w; home := home w; sep := sep w;
     typeName := typeName w; executablePath := executablePath w;
     uid := uid w; gid := gid w; userInfoError := userInfoError w;
     io_fault := io_fault w;
     zipEntries := zipEntries w; dmgEntries := dmgEntries w;
     latestRelease := latestRelease w; spawnStdout := spawnStdout w;
     focusedWindow := f; downloadOutcome := downloadOutcome w;
     resume := resume w |}.

Definition with_resume (f : nat -> list nat) (w : World) : World :=
  {| platform := platform w; userData := userData w; home := home w; sep := sep w;
     typeName := typeName w; executablePath := executablePath w;
     uid := uid w; gid := gid w; userInfoError := userInfoError w;
     io_fault := io_fault w;
     zipEntries := zipEntries w; dmgEntries := dmgEntries w;
     latestRelease := latestRelease w; spawnStdout := spawnStdout w;
     focusedWindow := focusedWindow w; downloadOutcome := downloadOutcome w;
     resume := f |}.

Definition with_userInfoError (e : option string) (w : World) : World :=
  {| platform := platform w; userData := userData w; home := home w; sep := sep w;
     typeName := typeName w; executablePath := executablePath w;
     uid := uid w; gid := gid w; userInfoError := e;
     io_fault := io_fault w;
     zipEntries := zipEntries w; dmgEntries := dmgEntries w;
     latestRelease := latestRelease w; spawnStdout := spawnStdout w;
     focusedWindow := focusedWindow w; downloadOutcome := downloadOutcome w;
     resume := resume w |}.

(** The provider cannot be reached at the first query and answers from the
    second on. *)
Definition flakyProvider : World :=
  with_latestRelease
    (fun t _ _ => if Nat.eqb t 0 then inl "getaddrinfo ENOTFOUND api.github.com"
                  else inr (release "Mac.dmg"))
    darwin.

(** The installed executable cannot be run. *)
Definition brokenBinary : World := with_spawnStdout (fun _ _ _ => None) darwin.

(** No window has the focus at the first look, one has afterwards. *)
Definition windowLater : World :=
  with_focusedWindow (fun t => negb (Nat.leb t 1)) darwin.

(** The invoking user has no entry in the user database. *)
Definition noUser : World :=
  with_userInfoError
    (Some "A system error occurred: uv_os_get_passwd returned ENOENT (no such file or directory)")
    darwin.

(** The event loop runs no job while the installer awaits. *)
Definition idleLoop : World := with_resume (fun _ => []) darwin.

(** The event loop runs the jobs late, while the installer awaits the
    removal of the backup. *)
Definition lateLoop : World :=
  with_resume (fun k => if Nat.eqb k 7 then [0; 0] else []) darwin.

(** The permission calls are refused. *)
Definition chmodDenied (w : World) : World :=
  with_io_fault
    (fun _ a => match a with
                | AChmod _ _ => Some "EPERM: operation not permitted, chmod"
                | _ => None
                end)
    w.

Definition userFolder : node :=
  Dir [("Config", Dir [("Dolphin.ini", File "my settings")]); ("GC", Dir [])].

(** A disk with Netplay installed the disk-image way, user data included, and
    the downloaded image in the cache. *)
Definition darwinDisk : node :=
  Dir [("data", Dir
    [("netplay", Dir [(bundle, Dir [("Contents", Dir
        [("MacOS", Dir [("Slippi Dolphin", File "dolphin-2.9.0")]);
         ("Resources", Dir [("Sys", Dir []); ("User", userFolder)])])])]);
     ("temp", Dir [("FM-Slippi-2.10.0-Mac.dmg", File "dmg-image")])])].

Definition linuxDisk : node :=
  Dir [("data", Dir
    [("netplay", Dir [("Slippi_Online-x86_64.AppImage", File "appimage-2.9.0");
                      ("Sys", Dir [])]);
     ("temp", Dir [("FM-Slippi-2.10.0-Linux.zip", File "zip-archive")])]);
       ("home", Dir [(".config", Dir [("SlippiOnline", Dir [("Config", File "cfg")])])])].

Definition start (disk : node) : State := mkState disk 0 [] [].

End Sample.

(** Further sample disks and worlds. *)
Module Disks.

(** Netplay installed the archive way, with a settings file of the user
    inside the installation, and the downloaded archive in the cache. *)
Definition win32Disk : node :=
  Dir [("data", Dir
    [("netplay", Dir [("Slippi_Online-x86_64.AppImage", File "appimage-2.9.0");
                      ("Sys", Dir [("GameSettings.ini", File "old sys")]);
                      ("User", Dir [("Dolphin.ini", File "my settings")])]);
     ("temp", Dir [("FM-Slippi-2.10.0-Win.zip", File "zip-archive")])])].

(** A disk image extracted over an empty target, before the cleanup. *)
Definition extractedImage : node :=
  Dir [("data", Dir
    [("netplay", Dir
        [(Sample.bundle, Dir [("Contents", Dir
            [("MacOS", Dir [("Slippi Dolphin", File "dolphin-2.10.0")]);
             ("Resources", Dir [("Sys", Dir [("GameSettings.ini", File "sys")])])])]);
         (".background", Dir []);
         ("Applications", File "link")])])].

(** Netplay installed the disk-image way beside the backup an interrupted
    install left behind. *)
Definition staleBackupDisk : node :=
  Dir [("data", Dir
    [("netplay", Dir [(Sample.bundle, Dir [("Contents", Dir
        [("MacOS", Dir [("Slippi Dolphin", File "dolphin-2.9.0")]);
         ("Resources", Dir [("Sys", Dir [])])])])]);
     ("netplay_old", Dir [(Sample.bundle, Dir [("Contents", Dir
        [("Resources", Dir [("User", Sample.userFolder)])])])]);
     ("temp", Dir [("FM-Slippi-2.10.0-Mac.dmg", File "dmg-image")])])].

(** No window ever has the focus. *)
Definition windowless : World := Sample.with_focusedWindow (fun _ => false) Sample.darwin.

(** The installed executable reports [version]. *)
Definition reports (version : string) : World :=
  Sample.with_spawnStdout (fun _ _ _ => Some version) Sample.darwin.

(** The installed executable reports the version of the latest release. *)
Definition current : World := reports "2.10.0".

End Disks.


(** * Vocabulary of the properties *)

(** [s] ends with [t]. *)
Definition ends_with (s t : string) : Prop := exists u, s = u +++ t.

(** Two paths diverge when they differ at some component they both have:
    neither is then a prefix of the other. *)
Fixpoint diverge (p q : path) : bool :=
  match p, q with
  | a :: p', b :: q' => if String.eqb a b then diverge p' q' else true
  | _, _ => false
  end.

(** [keeps Inv P m]: started on a file system satisfying [Inv], a run of [m]
    ends on one satisfying [Inv], whatever its result, and every call it
    issues satisfies [P] together with the file system it was issued on. *)
Definition keeps {A} (Inv : node -> Prop) (P : node -> Action -> Prop) (m : M A) : Prop :=
  forall s, Inv (fs s) ->
    Inv (fs (snd (m s))) /\
    exists d, trace (snd (m s)) = trace s ++ d /\ Forall (fun x => P (fst x) (snd x)) d.

(** The suffix convention of the platforms, as the specification words it. *)
Definition suffixConvention (plat : string) : option string :=
  if String.eqb plat "win32" then Some "Win.zip"
  else if String.eqb plat "darwin" then Some "Mac.dmg"
  else if String.eqb plat "linux" then Some "Linux.zip"
  else None.

(** The asset's name follows the suffix convention of the running platform. *)
Definition matches (W : World) (a : Asset) : Prop :=
  exists sfx, suffixConvention (platform W) = Some sfx /\ ends_with (name a) sfx.

(** The repository the releases of a kind come from. *)
Definition repoOf (type : DolphinLaunchType) : string :=
  match type with NETPLAY => "Ishiiruka" | PLAYBACK => "Ishiiruka-Playback" end.

(** Precedence of semantic versions, as the SemVer specification words it:
    major, minor and patch are compared numerically, in that order; with
    these equal, a pre-release version precedes the normal version; two
    pre-release versions are compared identifier by identifier, numeric
    identifiers numerically and before alphanumeric ones, alphanumeric ones
    in ASCII order, and a proper prefix precedes its extensions. *)
Module Precedence.

Import SemVer.
















(** Every numeric pre-release identifier is below 2^53, where every integer
    is a double-precision number. *)
Definition exact_ident (x : ident) : Prop :=
  match x with Num n => (n < 2 ^ 53)%N | Alnum _ => True end.

Definition exact (a : t) : Prop := Forall exact_ident (prerelease a).




End Precedence.

(** The calls of the staging step: the extraction of an archive. *)
Definition is_extract (a : Action) : bool :=
  match a with
  | AExtractZip _ _ | AExtractDmg _ _ => true
  | _ => false
  end.

(** A platform [installDolphin] has no variant for. *)
Definition unsupported (W : World) : Prop :=
  platform W <> "win32" /\ platform W <> "darwin" /\ platform W <> "linux".

(** The terminal event of a run of [assertDolphinInstallations]. *)
Definition is_finished (a : Action) : bool :=
  match a with AFinished _ => true | _ => false end.

(** The payloads of the terminal events among the calls [d]. *)
Definition finishedEvents (d : list (node * Action)) : list (option string) :=
  flat_map (fun x => match snd x with AFinished e => [e] | _ => [] end) d.

(** What the handler of [assertDolphinInstallation] does. *)
Definition reinstall (W : World) (type : DolphinLaunchType) : M unit :=
  log ("Could not find " +++ typeName W type +++ " Dolphin installation. Downloading...") ;;
  downloadAndInstallDolphin W type false.

(** The state once the executable was found and the provider was queried. *)
Definition afterQuery (W : World) (type : DolphinLaunchType) (s : State) : State :=
  snd ((log ("Found existing " +++ typeName W type +++ " Dolphin executable.") ;;
        log ("Checking if we need to update " +++ typeName W type +++ " Dolphin") ;;
        tick ;;
        emit (AGetLatestRelease "project-slippi" (repoOf type))) s).

(** The state once the executable was also asked for its version. *)
Definition afterSpawn (W : World) (type : DolphinLaunchType) (s : State) : State :=
  snd ((tick ;; emit (ASpawnSync (executablePath W type) ["--version"]))
         (afterQuery W type s)).

(** The calls that go to the network. *)
Definition is_network (a : Action) : bool :=
  match a with
  | AGetLatestRelease _ _ | ADownload _ _ _ => true
  | _ => false
  end.

(** The download directory. *)
Definition cacheDir (W : World) : path := userData W ++ ["temp"].

(** The calls of the permission-fix step. *)
Definition is_permission_fix (a : Action) : bool :=
  match a with
  | AChmod _ _ | AChown _ _ _ => true
  | _ => false
  end.

(** The paths of the disk-image installer: the backup beside the target
    root, the user folder in the backup and in the new installation. *)
Definition backupLocation (W : World) (type : DolphinLaunchType) : path :=
  userData W ++ [typeName W type +++ "_old"].

Definition oldUserFolder (W : World) (type : DolphinLaunchType) : path :=
  backupLocation W type ++ ["Slippi Dolphin.app"; "Contents"; "Resources"; "User"].

Definition newUserFolder (W : World) (type : DolphinLaunchType) : path :=
  (userData W ++ [typeName W type])
    ++ ["Slippi Dolphin.app"; "Contents"; "Resources"; "User"].

(** The calls of the migration step: the move of the backup's user folder
    into the new installation and the removal of the backup. *)
Definition is_migration (W : World) (type : DolphinLaunchType) (a : Action) : Prop :=
  a = AMove (oldUserFolder W type) (newUserFolder W type) \/
  a = ARemove (backupLocation W type).

(** The target root of the kind is absent. *)
Definition root_absent (W : World) (type : DolphinLaunchType) (n : node) : Prop :=
  lookup (userData W ++ [typeName W type]) n = None.

(** An extraction, if the call is one, was issued with the target absent. *)
Definition extracted_on_absent (W : World) (type : DolphinLaunchType)
    (x : node * Action) : Prop :=
  is_extract (snd x) = true -> root_absent W type (fst x).

(** [triple Pre m Post Err]: started on a file system satisfying [Pre], a run
    of [m] that returns [a] ends on one satisfying [Post a], and a run that
    fails ends on one satisfying [Err]. *)
Definition triple {A} (Pre : node -> Prop) (m : M A) (Post : A -> node -> Prop)
    (Err : node -> Prop) : Prop :=
  forall s, Pre (fs s) ->
    match fst (m s) with
    | inr a => Post a (fs (snd (m s)))
    | inl _ => Err (fs (snd (m s)))
    end.

(** The calls into the file system. *)
Definition is_fs_call (a : Action) : bool :=
  match a with
  | ARemove _ | AUnlink _ | AMove _ _ | AChmod _ _ | AChown _ _ _ | AEnsureDir _
  | AReaddir _ | AExtractZip _ _ | AExtractDmg _ _ => true
  | _ => false
  end.

(** The message of [getLatestDolphinAsset] when no asset matches. *)
Definition noMatchingAsset (W : World) : string :=
  "No release asset matched the current platform: " +++ platform W.

(** The user-configuration directory of a kind on the
    self-contained-executable platform. *)
Definition configFolder (W : World) (type : DolphinLaunchType) : path :=
  home W ++ [".config"; match type with
                        | NETPLAY => "SlippiOnline"
                        | PLAYBACK => "SlippiPlayback"
                        end].

(** The archive at [asset] holds a file entry that extraction over [root]
    writes at [q]. *)
Definition archive_writes (decode : string -> option (list entry)) (asset root : path)
    (n : node) (q : path) : Prop :=
  exists data es e d,
    lookup asset n = Some (File data) /\ decode data = Some es /\
    In e es /\ snd e = Some d /\ root ++ fst e = q.

(** The provider never offers an asset of the running platform: each of its
    answers is a failure or a release none of whose assets matches. *)
Definition never_offers (W : World) : Prop :=
  forall t owner repo,
    match latestRelease W t owner repo with
    | inl _ => True
    | inr rel => find (fun a => matchesPlatform W (name a)) (assets rel) = None
    end.

(** The calls that only ask: the release query, the version query of the
    executable, and the terminal event that reports. *)
Definition is_inquiry (a : Action) : bool :=
  match a with
  | AGetLatestRelease _ _ | ASpawnSync _ _ | AFinished _ => true
  | _ => false
  end.

(** A release query goes to the repository of the kind. *)
Definition queries_repo_of (type : DolphinLaunchType) (a : Action) : Prop :=
  forall owner repo, a = AGetLatestRelease owner repo ->
    owner = "project-slippi" /\ repo = repoOf type.

(** [hoare Pre m Post Err]: started in a state satisfying [Pre], a run of
    [m] that returns [a] ends in a state satisfying [Post a], and a run that
    fails with [e] ends in one satisfying [Err e]. *)
Definition hoare {A} (Pre : State -> Prop) (m : M A) (Post : A -> State -> Prop)
    (Err : string -> State -> Prop) : Prop :=
  forall s, Pre s ->
    match fst (m s) with
    | inr a => Post a (snd (m s))
    | inl e => Err e (snd (m s))
    end.

(** The jobs [installDolphin] queues for the target [dir]: the callback of
    its [readdir], and handlers for entries of [dir] other than the
    application bundle. *)
Definition job_on (dir : path) (j : Job) : Prop :=
  match j with
  | JListed d _ => d = dir
  | JRejected p => exists file, file <> "Slippi Dolphin.app" /\ p = dir ++ [file]
  end.

(** [hoare] for a computation beside a queue of jobs on [dir]; the queue it
    returns holds jobs on [dir] again. *)
Definition ahoare {A} (dir : path) (Pre : State -> Prop) (m : Async A)
    (Post : A -> State -> Prop) (Err : string -> State -> Prop) : Prop :=
  forall q, Forall (job_on dir) q ->
    hoare Pre (m q)
      (fun r s => Forall (job_on dir) (fst r) /\
                  match snd r with inr a => Post a s | inl e => Err e s end)
      (fun _ _ => False).

(** [Q] survives whatever the jobs on [dir] do: a line in the log, the
    [unlink] or the removal of an entry other than the bundle. *)
Definition settled (W : World) (dir : path) (Q : State -> Prop) : Prop :=
  (forall msg s, Q s -> Q (snd (log msg s))) /\
  (forall file s, file <> "Slippi Dolphin.app" ->
     Q s -> Q (snd (fs_unlink W (dir ++ [file]) s))) /\
  (forall file s, file <> "Slippi Dolphin.app" ->
     Q s -> Q (snd (fs_remove W (dir ++ [file]) s))).

(** The state of a run under [keeps Inv P] that started with the history
    [t0]. *)
Definition along (Inv : node -> Prop) (P : node -> Action -> Prop)
    (t0 : list (node * Action)) (s : State) : Prop :=
  Inv (fs s) /\ exists d, trace s = t0 ++ d /\ Forall (fun x => P (fst x) (snd x)) d.

(** [keeps] for a computation beside a queue of jobs on [dir]. *)
Definition akeeps {A} (dir : path) (Inv : node -> Prop) (P : node -> Action -> Prop)
    (m : Async A) : Prop :=
  forall t0, ahoare dir (along Inv P t0) m (fun _ => along Inv P t0) (fun _ => along Inv P t0).

(** The calls of the permission fix of the disk-image installer, in the
    order of the code. *)
Definition permissionFixes (W : World) (type : DolphinLaunchType) : list Action :=
  let bundle := (userData W ++ [typeName W type]) ++ ["Slippi Dolphin.app"] in
  let binaryLocation :=
    (userData W ++ [typeName W type])
      ++ ["Slippi Dolphin.app"; "Contents"; "MacOS"; "Slippi Dolphin"] in
  [AChmod bundle "777"; AChown bundle (uid W) (gid W);
   AChmod binaryLocation "777"; AChown binaryLocation (uid W) (gid W)].

(** The line the disk-image installer logs for a permission fix that failed
    with [e]. *)
Definition permissionLine (W : World) (type : DolphinLaunchType) (e : string) : string :=
  "could not chmod/chown " +++ typeName W type +++ " Dolphin" +++ nl +++ "Error: " +++ e.

(** The permission calls among the calls [d]. *)
Definition fixCalls (d : list (node * Action)) : list Action :=
  filter is_permission_fix (map snd d).

(** Where a run of the disk-image installer is: staging the bundle, [k]
    calls into the permission fix, in the handler of a permission call that
    failed with [e], past the permission fix, in the migration. *)
Inductive Stage :=
| Staging
| Fixing (k : nat)
| Failing (e : string)
| Fixed
| Migrating.

(** The permission calls of [d] that fault in [W] at time [t] raise an error
    satisfying [ok]. *)
Definition faults_in (W : World) (t : nat) (d : list (node * Action))
    (ok : string -> Prop) : Prop :=
  forall n a e, In (n, a) d -> is_permission_fix a = true ->
    io_fault W t a = Some e -> ok e.

(** The permission fix is over: its four calls were issued, or the line of
    its failure is among the lines [l]. *)
Definition fix_over (W : World) (type : DolphinLaunchType)
    (d : list (node * Action)) (l : list string) : Prop :=
  fixCalls d = permissionFixes W type \/ exists e, In (permissionLine W type e) l.

(** The state [s] of a run of the installer that started in [s0], at the
    stage [st]: the calls since [s0] fall into those of the staging, of the
    permission fix and of the migration, and the log has grown by [l]. *)
Definition at_stage (W : World) (type : DolphinLaunchType) (s0 : State) (st : Stage)
    (s : State) : Prop :=
  now s = now s0 /\
  exists l d1 d2 d3,
    logs s = logs s0 ++ l /\
    trace s = trace s0 ++ d1 ++ d2 ++ d3 /\
    Forall (fun x => is_permission_fix (snd x) = false /\ ~ is_migration W type (snd x)) d1 /\
    Forall (fun x => is_extract (snd x) = false /\ ~ is_migration W type (snd x)) d2 /\
    Forall (fun x => is_extract (snd x) = false /\ is_permission_fix (snd x) = false) d3 /\
    (exists k, fixCalls d2 = firstn k (permissionFixes W type)) /\
    match st with
    | Staging => d2 = [] /\ d3 = []
    | Fixing k =>
        userInfoError W = None /\ d3 = [] /\
        fixCalls d2 = firstn k (permissionFixes W type) /\
        faults_in W (now s0) d2 (fun _ => False)
    | Failing e =>
        userInfoError W = None /\ d3 = [] /\ faults_in W (now s0) d2 (fun e' => e' = e)
    | Fixed =>
        userInfoError W = None /\ fix_over W type d2 l /\
        faults_in W (now s0) d2 (fun e => In (permissionLine W type e) l)
    | Migrating =>
        userInfoError W = None /\ fix_over W type d2 l /\
        faults_in W (now s0) d2 (fun e => In (permissionLine W type e) l) /\
        Exists (fun x => is_migration W type (snd x)) d3
    end.

(** [s'] is [s] after the call [a]: the call is in the history; the log and
    the clock are as they were. *)
Definition called (a : Action) (s s' : State) : Prop :=
  trace s' = trace s ++ [(fs s, a)] /\ logs s' = logs s /\ now s' = now s.

(** A call of the clean-up of the extracted image. *)
Definition is_cleanup (W : World) (type : DolphinLaunchType) (a : Action) : Prop :=
  is_permission_fix a = false /\ is_extract a = false /\ ~ is_migration W type a.

(** * Properties *)

(** ** Strings *)

Lemma length_append (u t : string) :
  String.length (u +++ t) = String.length u + String.length t.
Proof. induction u as [|c u IH]; simpl; [reflexivity | now rewrite IH]. Qed.

Lemma substring_all (t : string) : substring 0 (String.length t) t = t.
Proof. induction t as [|c t IH]; simpl; [reflexivity | now rewrite IH]. Qed.

Lemma substring_append_skip (u t : string) :
  substring (String.length u) (String.length t) (u +++ t) = t.
Proof. induction u as [|c u IH]; simpl; [apply substring_all | exact IH]. Qed.

Lemma substring_split (s : string) (n : nat) :
  n <= String.length s ->
  s = substring 0 n s +++ substring n (String.length s - n) s.
Proof.
  revert n; induction s as [|c s IH]; intros n Hn; simpl in *.
  - destruct n; [reflexivity | lia].
  - destruct n as [|n]; simpl.
    + now rewrite substring_all.
    + f_equal. apply IH. lia.
Qed.

Lemma endsWith_spec (s t : string) : endsWith s t = true <-> ends_with s t.
Proof.
  unfold endsWith, ends_with. rewrite andb_true_iff, Nat.leb_le, String.eqb_eq. split.
  - intros [Hle Hsub].
    exists (substring 0 (String.length s - String.length t) s).
    pose proof (substring_split s (String.length s - String.length t)) as H.
    replace (String.length s - (String.length s - String.length t))
      with (String.length t) in H by lia.
    rewrite Hsub in H. apply H. lia.
  - intros [u ->]. rewrite length_append. split; [lia|].
    replace (String.length u + String.length t - String.length t)
      with (String.length u) by lia.
    apply substring_append_skip.
Qed.

Lemma append_suffix_neq (s t : string) : t <> "" -> s +++ t <> s.
Proof.
  intros Ht H. apply (f_equal String.length) in H. rewrite length_append in H.
  destruct t; [congruence | simpl in H; lia].
Qed.

(** ** File-system trees *)

Lemma eqb_false_neq (a b : string) : String.eqb a b = false -> a <> b.
Proof. intros H ->. now rewrite String.eqb_refl in H. Qed.

Lemma neq_eqb_false (a b : string) : a <> b -> String.eqb a b = false.
Proof. intros H. destruct (String.eqb a b) eqn:E; [apply String.eqb_eq in E; contradiction | reflexivity]. Qed.

Lemma get_put_eq c n es : get c (put c n es) = Some n.
Proof.
  induction es as [|[c' n'] es IH]; simpl.
  - now rewrite String.eqb_refl.
  - destruct (String.eqb c c') eqn:E; simpl.
    + now rewrite String.eqb_refl.
    + now rewrite E.
Qed.

Lemma get_put_neq c c' n es : c <> c' -> get c' (put c n es) = get c' es.
Proof.
  intros Hne. assert (Hf : String.eqb c' c = false) by (apply neq_eqb_false; congruence).
  induction es as [|[d m] es IH]; simpl.
  - now rewrite Hf.
  - destruct (String.eqb c d) eqn:E; simpl.
    + apply String.eqb_eq in E; subst d. now rewrite Hf.
    + now rewrite IH.
Qed.

Lemma get_del_eq c es : get c (del c es) = None.
Proof.
  induction es as [|[d m] es IH]; simpl; [reflexivity|].
  destruct (String.eqb c d) eqn:E; simpl; [exact IH | now rewrite E].
Qed.

Lemma get_del_neq c c' es : c <> c' -> get c' (del c es) = get c' es.
Proof.
  intros Hne. induction es as [|[d m] es IH]; simpl; [reflexivity|].
  destruct (String.eqb c d) eqn:E; simpl.
  - apply String.eqb_eq in E; subst d.
    rewrite (neq_eqb_false c' c) by congruence. exact IH.
  - now rewrite IH.
Qed.

Lemma diverge_sym p q : diverge p q = diverge q p.
Proof.
  revert q; induction p as [|a p IH]; intros [|b q]; simpl; try reflexivity.
  rewrite (String.eqb_sym b a). destruct (String.eqb a b); [apply IH | reflexivity].
Qed.

Lemma diverge_app_common r p q : diverge (r ++ p) (r ++ q) = diverge p q.
Proof. induction r as [|a r IH]; simpl; [reflexivity | now rewrite String.eqb_refl]. Qed.

Lemma diverge_app_l p q x : diverge p q = true -> diverge (p ++ x) q = true.
Proof.
  revert q; induction p as [|a p IH]; intros [|b q]; simpl; try discriminate.
  destruct (String.eqb a b); [apply IH | reflexivity].
Qed.

Lemma diverge_app_r p q x : diverge p q = true -> diverge p (q ++ x) = true.
Proof. intros H. rewrite diverge_sym. apply diverge_app_l. now rewrite diverge_sym. Qed.

Lemma diverge_siblings r a b x y : a <> b -> diverge (r ++ a :: x) (r ++ b :: y) = true.
Proof. intros H. rewrite diverge_app_common. simpl. now rewrite neq_eqb_false. Qed.

Lemma lookup_app p r n :
  lookup (p ++ r) n = match lookup p n with Some m => lookup r m | None => None end.
Proof.
  revert n; induction p as [|c p IH]; intros n; simpl; [reflexivity|].
  destruct n as [d|es]; [reflexivity|]. destruct (get c es); [apply IH | reflexivity].
Qed.

Lemma lookup_prefix_some p r n x : lookup (p ++ r) n = Some x -> exists m, lookup p n = Some m.
Proof. rewrite lookup_app. destruct (lookup p n); [eauto | discriminate]. Qed.

Lemma lookup_remove_diverge p q n : diverge p q = true -> lookup q (remove p n) = lookup q n.
Proof.
  revert q n; induction p as [|a p IH]; intros q n H; [discriminate|].
  destruct q as [|b q]; [simpl in H; discriminate|].
  destruct n as [d|es]; [reflexivity|]. simpl in H.
  destruct p as [|a' p].
  - destruct (String.eqb a b) eqn:E; [simpl in H; discriminate|].
    simpl. now rewrite get_del_neq by (now apply eqb_false_neq).
  - cbn [remove]. destruct (get a es) as [m|] eqn:G; [|reflexivity].
    destruct (String.eqb a b) eqn:E.
    + apply String.eqb_eq in E; subst b. cbn [lookup]. rewrite get_put_eq, G. now apply IH.
    + cbn [lookup]. now rewrite get_put_neq by (now apply eqb_false_neq).
Qed.

Lemma lookup_remove_at p n : p <> [] -> lookup p (remove p n) = None.
Proof.
  revert n; induction p as [|a p IH]; intros n H; [congruence|].
  destruct n as [d|es]; [reflexivity|].
  destruct p as [|a' p].
  - simpl. now rewrite get_del_eq.
  - cbn [remove]. destruct (get a es) as [m|] eqn:G.
    + cbn [lookup]. rewrite get_put_eq. apply IH. discriminate.
    + cbn [lookup]. now rewrite G.
Qed.

Lemma lookup_remove_none p q n : lookup q n = None -> lookup q (remove p n) = None.
Proof.
  revert q n; induction p as [|a p IH]; intros q n H.
  - destruct q; [simpl in H; discriminate | reflexivity].
  - destruct n as [d|es]; [exact H|].
    destruct q as [|b q]; [simpl in H; discriminate|].
    destruct p as [|a' p].
    + simpl in *. destruct (String.eqb a b) eqn:E.
      * apply String.eqb_eq in E; subst b. now rewrite get_del_eq.
      * now rewrite get_del_neq by (now apply eqb_false_neq).
    + cbn [remove]. destruct (get a es) as [m|] eqn:G; [|exact H].
      cbn [lookup] in *. destruct (String.eqb a b) eqn:E.
      * apply String.eqb_eq in E; subst b. rewrite get_put_eq. rewrite G in H. now apply IH.
      * now rewrite get_put_neq by (now apply eqb_false_neq).
Qed.

Lemma lookup_place_at p sub n n' : place p sub n = Some n' -> lookup p n' = Some sub.
Proof.
  revert n n'; induction p as [|c p IH]; intros n n' H; simpl in *.
  - congruence.
  - destruct n as [d|es]; [discriminate|].
    destruct (place p sub _) as [m'|] eqn:P; [|discriminate].
    injection H as <-. rewrite get_put_eq. eapply IH; eassumption.
Qed.

Lemma lookup_place_diverge p q sub n n' :
  diverge p q = true -> place p sub n = Some n' -> lookup q n' = lookup q n.
Proof.
  revert q n n'; induction p as [|a p IH]; intros q n n' D H; [discriminate|].
  destruct q as [|b q]; [simpl in D; discriminate|].
  simpl in H. destruct n as [d|es]; [discriminate|].
  destruct (place p sub _) as [m'|] eqn:P; [|discriminate].
  injection H as <-. simpl in D. cbn [lookup].
  destruct (String.eqb a b) eqn:E.
  - apply String.eqb_eq in E; subst b. rewrite get_put_eq.
    rewrite (IH _ _ _ D P). destruct (get a es); [reflexivity|].
    destruct q; [simpl in D; destruct p; discriminate | reflexivity].
  - now rewrite get_put_neq by (now apply eqb_false_neq).
Qed.

Lemma lookup_mkdirp_diverge p q n n' :
  diverge p q = true -> mkdirp p n = Some n' -> lookup q n' = lookup q n.
Proof.
  unfold mkdirp. intros D H. destruct (lookup p n) as [[d|es]|].
  - discriminate.
  - congruence.
  - eapply lookup_place_diverge; eassumption.
Qed.

Lemma lookup_writeEntry_diverge target e q n n' :
  diverge target q = true -> writeEntry target e n = Some n' -> lookup q n' = lookup q n.
Proof.
  unfold writeEntry. intros D H.
  assert (D' : diverge (target ++ fst e) q = true) by now apply diverge_app_l.
  destruct (snd e).
  - destruct (lookup (target ++ fst e) n) as [[d|es]|];
      try discriminate; eapply lookup_place_diverge; eassumption.
  - eapply lookup_mkdirp_diverge; eassumption.
Qed.

Lemma writeAs_cases f target e n n' :
  writeAs f target e n = Some n' -> n' = n \/ writeEntry target e n = Some n'.
Proof.
  unfold writeAs. destruct f; [|now right].
  destruct (snd e); [|now right].
  destruct (lookup (target ++ fst e) n) as [[d|es]|]; try (now right).
  intros H. left. now inversion H.
Qed.

Lemma lookup_writeAs_diverge f target e q n n' :
  diverge target q = true -> writeAs f target e n = Some n' -> lookup q n' = lookup q n.
Proof.
  intros D H. apply writeAs_cases in H as [->|H]; [reflexivity|].
  eapply lookup_writeEntry_diverge; eassumption.
Qed.

Lemma lookup_writeEntries_diverge f target es q n :
  diverge target q = true -> lookup q (fst (writeEntries f target es n)) = lookup q n.
Proof.
  intros D. revert n; induction es as [|e es IH]; intros n; simpl; [reflexivity|].
  destruct (writeAs f target e n) as [n'|] eqn:E; [|reflexivity].
  rewrite IH. eapply lookup_writeAs_diverge; eassumption.
Qed.

(** ** Runs of the monad *)

Lemma bind_inr {A B} (m : M A) (k : A -> M B) s b s' :
  bind m k s = (inr b, s') -> exists a s1, m s = (inr a, s1) /\ k a s1 = (inr b, s').
Proof. unfold bind. destruct (m s) as [[e|a] s1]; intros H; [discriminate | eauto]. Qed.

Lemma bind_run {A B} (m : M A) (k : A -> M B) s a s1 :
  m s = (inr a, s1) -> bind m k s = k a s1.
Proof. unfold bind. now intros ->. Qed.

Lemma bind_fail {A B} (m : M A) (k : A -> M B) s e s1 :
  m s = (inl e, s1) -> bind m k s = (inl e, s1).
Proof. unfold bind. now intros ->. Qed.

Lemma bind_assoc {A B C} (m : M A) (k : A -> M B) (h : B -> M C) s :
  bind (bind m k) h s = bind m (fun a => bind (k a) h) s.
Proof. unfold bind. destruct (m s) as [[e|a] s1]; reflexivity. Qed.

Lemma bind_ret_tt (m : M unit) s : bind m (fun _ => ret tt) s = m s.
Proof. unfold bind, ret. destruct (m s) as [[e|[]] s1]; reflexivity. Qed.

Lemma bind_ret_tt_under {A} (m : M A) (k : A -> M unit) s :
  bind m k s = bind m (fun a => bind (k a) (fun _ => ret tt)) s.
Proof.
  unfold bind, ret. destruct (m s) as [[e|a] s1]; [reflexivity|].
  destruct (k a s1) as [[e|[]] s2]; reflexivity.
Qed.

Lemma bind_read {A B} (f : node -> A) (k : A -> M B) s :
  bind (read f) k s = k (f (fs s)) s.
Proof. reflexivity. Qed.

Section Keeps.

Variable Inv : node -> Prop.
Variable P : node -> Action -> Prop.

Lemma keeps_ret {A} (a : A) : keeps Inv P (ret a).
Proof. intros s H. split; [exact H|]. exists []. now rewrite app_nil_r. Qed.

Lemma keeps_throw {A} e : keeps Inv P (@throw A e).
Proof. intros s H. split; [exact H|]. exists []. now rewrite app_nil_r. Qed.

Lemma keeps_log msg : keeps Inv P (log msg).
Proof. intros s H. split; [exact H|]. exists []. simpl. now rewrite app_nil_r. Qed.

Lemma keeps_tick : keeps Inv P tick.
Proof. intros s H. split; [exact H|]. exists []. simpl. now rewrite app_nil_r. Qed.

Lemma keeps_read {A} (f : node -> A) : keeps Inv P (read f).
Proof. intros s H. split; [exact H|]. exists []. now rewrite app_nil_r. Qed.

Lemma keeps_emit a : (forall n, Inv n -> P n a) -> keeps Inv P (emit a).
Proof.
  intros Ha s H. split; [exact H|]. exists [(fs s, a)]. split; [reflexivity|].
  constructor; [now apply Ha | constructor].
Qed.

Lemma keeps_bind {A B} (m : M A) (k : A -> M B) :
  keeps Inv P m -> (forall a, keeps Inv P (k a)) -> keeps Inv P (bind m k).
Proof.
  intros Hm Hk s H. unfold bind. destruct (Hm s H) as [H1 [d1 [T1 F1]]].
  destruct (m s) as [[e|a] s1]; simpl in *.
  - split; [exact H1|]. now exists d1.
  - destruct (Hk a s1 H1) as [H2 [d2 [T2 F2]]]. split; [exact H2|].
    exists (d1 ++ d2). rewrite T2, T1, app_assoc. split; [reflexivity|].
    apply Forall_app; now split.
Qed.

Lemma keeps_try_catch {A} (m : M A) (h : string -> M A) :
  keeps Inv P m -> (forall e, keeps Inv P (h e)) -> keeps Inv P (try_catch m h).
Proof.
  intros Hm Hh s H. unfold try_catch. destruct (Hm s H) as [H1 [d1 [T1 F1]]].
  destruct (m s) as [[e|a] s1]; simpl in *.
  - destruct (Hh e s1 H1) as [H2 [d2 [T2 F2]]]. split; [exact H2|].
    exists (d1 ++ d2). rewrite T2, T1, app_assoc. split; [reflexivity|].
    apply Forall_app; now split.
  - split; [exact H1|]. now exists d1.
Qed.

Lemma keeps_forEach {A} (l : list A) (f : A -> M unit) :
  (forall a, keeps Inv P (f a)) -> keeps Inv P (forEach l f).
Proof.
  intros Hf. induction l as [|a l IH]; simpl.
  - apply keeps_ret.
  - apply keeps_bind; [apply Hf | intros _; exact IH].
Qed.

(** A computation that looks at the state first. *)
Lemma keeps_pointwise {A} (m : M A) :
  (forall s, exists m', m s = m' s /\ keeps Inv P m') -> keeps Inv P m.
Proof. intros Hm s H. destruct (Hm s) as [m' [-> Hk]]. now apply Hk. Qed.

Variable W : World.

Lemma keeps_faultCheck a : keeps Inv P (faultCheck W a).
Proof.
  intros s H. unfold faultCheck. destruct (io_fault W (now s) a); simpl;
    (split; [exact H|]; exists []; now rewrite app_nil_r).
Qed.

Lemma keeps_fscall a f :
  (forall n, Inv n -> P n a /\ Inv (fst (f n))) -> keeps Inv P (fscall W a f).
Proof.
  intros Hf. unfold fscall.
  apply keeps_bind; [apply keeps_emit; intros n Hn; now apply Hf | intros _].
  apply keeps_bind; [apply keeps_faultCheck | intros _].
  intros s H. destruct (Hf _ H) as [_ Hi].
  destruct (f (fs s)) as [n [e|]]; simpl in *;
    (split; [exact Hi|]; exists []; now rewrite app_nil_r).
Qed.

End Keeps.

Lemma keeps_weaken {A} (Inv : node -> Prop) (P Q : node -> Action -> Prop) (m : M A) :
  (forall n a, P n a -> Q n a) -> keeps Inv P m -> keeps Inv Q m.
Proof.
  intros HPQ Hm s H. destruct (Hm s H) as [H1 [d [T F]]]. split; [exact H1|].
  exists d. split; [exact T|]. eapply Forall_impl; [|exact F]. intros x; apply HPQ.
Qed.

(** ** Asset selection *)

Lemma matchesPlatform_spec W a : matchesPlatform W (name a) = true <-> matches W a.
Proof.
  unfold matchesPlatform, matches, suffixConvention.
  destruct (String.eqb (platform W) "win32");
    [|destruct (String.eqb (platform W) "darwin");
      [|destruct (String.eqb (platform W) "linux")]];
    rewrite ?endsWith_spec; split;
    try (intros H; eexists; split; [reflexivity | exact H]);
    try (intros [sfx [E H]]; injection E as <-; exact H);
    try discriminate.
  intros [sfx [E _]]. discriminate.
Qed.

Lemma find_first {A} (f : A -> bool) l1 a l2 :
  f a = true -> (forall b, In b l1 -> f b = false) -> find f (l1 ++ a :: l2) = Some a.
Proof.
  intros Ha. induction l1 as [|b l1 IH]; intros H; simpl.
  - now rewrite Ha.
  - rewrite (H b) by now left. apply IH. intros c Hc. apply H. now right.
Qed.

Lemma find_absent {A} (f : A -> bool) l :
  (forall b, In b l -> f b = false) -> find f l = None.
Proof.
  induction l as [|b l IH]; intros H; simpl; [reflexivity|].
  rewrite (H b) by now left. apply IH. intros c Hc. apply H. now right.
Qed.

Lemma getLatestDolphinAsset_run W type s rel :
  latestRelease W (now s) "project-slippi" (repoOf type) = inr rel ->
  fst (getLatestDolphinAsset W type s) =
    match find (fun a => matchesPlatform W (name a)) (assets rel) with
    | Some asset => inr asset
    | None => inl ("No release asset matched the current platform: " +++ platform W)
    end.
Proof.
  intros H. unfold getLatestDolphinAsset, getLatestReleaseData, getLatestRelease.
  unfold bind, tick, emit. destruct type; simpl in *; rewrite H; simpl;
    destruct (find _ (assets rel)); reflexivity.
Qed.

Lemma not_matches_false W b : ~ matches W b -> matchesPlatform W (name b) = false.
Proof.
  intros H. destruct (matchesPlatform W (name b)) eqn:E; [|reflexivity].
  apply matchesPlatform_spec in E. contradiction.
Qed.

(** C7. Asset selection: when exactly one asset of the release matches the
    suffix convention of the running platform, [getLatestDolphinAsset]
    returns it; when several match, it returns the first in the provider's
    order; when none matches, it fails with the error that names the
    platform. *)
Theorem getLatestDolphinAsset_selects W type s rel :
  latestRelease W (now s) "project-slippi" (repoOf type) = inr rel ->
  (forall a, In a (assets rel) -> matches W a ->
     (forall b, In b (assets rel) -> matches W b -> b = a) ->
     fst (getLatestDolphinAsset W type s) = inr a) /\
  (forall l1 a l2, assets rel = l1 ++ a :: l2 -> matches W a ->
     (forall b, In b l1 -> ~ matches W b) ->
     fst (getLatestDolphinAsset W type s) = inr a) /\
  ((forall b, In b (assets rel) -> ~ matches W b) ->
     fst (getLatestDolphinAsset W type s) =
       inl ("No release asset matched the current platform: " +++ platform W)).
Proof.
  intros H. rewrite (getLatestDolphinAsset_run _ _ _ _ H). repeat split.
  - intros a Hin Ha Huniq.
    destruct (find _ (assets rel)) as [b|] eqn:F.
    + apply find_some in F as [Hb Fb]. apply matchesPlatform_spec in Fb.
      now rewrite (Huniq b Hb Fb).
    + apply (find_none _ _ F) in Hin. apply matchesPlatform_spec in Ha. congruence.
  - intros l1 a l2 -> Ha Hl1. rewrite find_first; [reflexivity | |].
    + now apply matchesPlatform_spec.
    + intros b Hb. now apply not_matches_false, Hl1.
  - intros Hnone. rewrite find_absent; [reflexivity|].
    intros b Hb. now apply not_matches_false, Hnone.
Qed.

Lemma getLatestDolphinAsset_selects_witness :
  fst (getLatestDolphinAsset Sample.darwin NETPLAY (Sample.start (Dir []))) =
    inr (mkAsset "FM-Slippi-2.10.0-Mac.dmg" "https://releases/Mac.dmg").
Proof.
  refine (proj1 (proj2 (getLatestDolphinAsset_selects Sample.darwin NETPLAY
            (Sample.start (Dir [])) (Sample.release "Mac.dmg") eq_refl))
          [mkAsset "Slippi-Source.tar.gz" "https://releases/source"] _ [] eq_refl _ _).
  - exists "Mac.dmg". split; [reflexivity|]. now exists "FM-Slippi-2.10.0-".
  - intros b [<-|[]] [sfx [E Hs]]. injection E as <-.
    apply endsWith_spec in Hs. discriminate.
Defined.

(** ** Version comparison *)

(** *** Characters *)

Ltac each_ascii c :=
  destruct c as [[] [] [] [] [] [] [] []]; vm_compute; try reflexivity; try discriminate.









Lemma is_digit_not_hyphen c : SemVer.is_digit c = true -> Ascii.eqb c "-" = false.
Proof. each_ascii c. Qed.


(** *** Decimal numerals *)











(** *** Parsing the text of a version *)



















(** *** The order *)














(** ** Calls issued by the primitives *)

Lemma fscall_trace W a f s :
  trace (snd (fscall W a f s)) = trace s ++ [(fs s, a)].
Proof.
  unfold fscall, bind, emit, faultCheck. simpl.
  destruct (io_fault W (now s) a); simpl; [reflexivity|].
  destruct (f (fs s)) as [n [e|]]; reflexivity.
Qed.

Lemma fscall_ok W a f s s' :
  fscall W a f s = (inr tt, s') ->
  io_fault W (now s) a = None /\ f (fs s) = (fs s', None) /\
  now s' = now s /\ logs s' = logs s.
Proof.
  unfold fscall, bind, emit, faultCheck. simpl.
  destruct (io_fault W (now s) a); simpl; [discriminate|].
  destruct (f (fs s)) as [n [e|]]; intros H; [discriminate|].
  injection H as <-. auto.
Qed.

Lemma fscall_run W a f s :
  io_fault W (now s) a = None ->
  fscall W a f s =
    (match snd (f (fs s)) with Some e => inl e | None => inr tt end,
     mkState (fst (f (fs s))) (now s) (logs s) (trace s ++ [(fs s, a)])).
Proof.
  intros H. unfold fscall, bind, emit, faultCheck. simpl. rewrite H. simpl.
  destruct (f (fs s)) as [n [e|]]; reflexivity.
Qed.

Lemma fscall_fault W a f s e :
  io_fault W (now s) a = Some e ->
  fscall W a f s = (inl e, mkState (fs s) (now s) (logs s) (trace s ++ [(fs s, a)])).
Proof.
  intros H. unfold fscall, bind, emit, faultCheck. simpl. now rewrite H.
Qed.

(** Proves [keeps] goals by following the structure of the computation; what
    is left are the conditions on the file-system calls. *)
Ltac keeps_step :=
  match goal with
  | |- keeps _ _ (bind _ _) => apply keeps_bind; [|intros ?]
  | |- keeps _ _ (try_catch _ _) => apply keeps_try_catch; [|intros ?]
  | |- keeps _ _ (ret _) => apply keeps_ret
  | |- keeps _ _ (throw _) => apply keeps_throw
  | |- keeps _ _ (log _) => apply keeps_log
  | |- keeps _ _ tick => apply keeps_tick
  | |- keeps _ _ (read _) => apply keeps_read
  | |- keeps _ _ (forEach _ _) => apply keeps_forEach; intros ?
  | |- keeps _ _ (fscall _ _ _) => apply keeps_fscall; intros ? ?
  | |- keeps _ _ (emit _) => apply keeps_emit; intros ? ?
  | |- keeps _ _ (if ?b then _ else _) => destruct b
  | |- keeps _ _ (match ?x with inl _ => _ | inr _ => _ end) => destruct x
  | |- keeps _ _ (match ?x with Some _ => _ | None => _ end) => destruct x
  | |- keeps _ _ (let (_, _) := ?x in _) => destruct x
  end.

Ltac keeps_unfold :=
  unfold fs_remove, fs_unlink, fs_move, fs_chmod, fs_chown, fs_ensureDir,
    fs_pathExists, fileExists, findDolphinExecutable, extractAllTo, extractDmg,
    extractOver, getLatestRelease, getLatestReleaseData,
    spawnSyncStdout, getFocusedWindow, triggerFinished, os_userInfo.

(** ** States along a run *)

Lemma hoare_ret {A} (Pre : State -> Prop) (a : A) Post Err :
  (forall s, Pre s -> Post a s) -> hoare Pre (ret a) Post Err.
Proof. intros H s Hs. now apply H. Qed.

Lemma hoare_throw {A} (Pre : State -> Prop) e (Post : A -> State -> Prop) Err :
  (forall s, Pre s -> Err e s) -> hoare Pre (throw e) Post Err.
Proof. intros H s Hs. now apply H. Qed.

Lemma hoare_bind {A B} Pre (m : M A) (k : A -> M B) Mid Post Err :
  hoare Pre m Mid Err -> (forall a, hoare (Mid a) (k a) Post Err) ->
  hoare Pre (bind m k) Post Err.
Proof.
  intros Hm Hk s Hs. specialize (Hm s Hs). unfold bind.
  destruct (m s) as [[e|a] s1]; simpl in *; [exact Hm|]. now apply Hk.
Qed.

Lemma hoare_try_catch {A} Pre (m : M A) (h : string -> M A) Mid Post Err :
  hoare Pre m Post Mid -> (forall e, hoare (Mid e) (h e) Post Err) ->
  hoare Pre (try_catch m h) Post Err.
Proof.
  intros Hm Hh s Hs. specialize (Hm s Hs). unfold try_catch.
  destruct (m s) as [[e|a] s1]; simpl in *; [now apply Hh | exact Hm].
Qed.

Lemma hoare_conseq {A} (Pre Pre' : State -> Prop) (m : M A)
    (Post Post' : A -> State -> Prop) (Err Err' : string -> State -> Prop) :
  hoare Pre' m Post' Err' ->
  (forall s, Pre s -> Pre' s) ->
  (forall a s, Post' a s -> Post a s) ->
  (forall e s, Err' e s -> Err e s) ->
  hoare Pre m Post Err.
Proof.
  intros H Hp Hq He s Hs. specialize (H s (Hp s Hs)).
  destruct (fst (m s)); [now apply He | now apply Hq].
Qed.

Lemma hoare_log (Q : State -> Prop) msg Err :
  (forall s, Q s -> Q (snd (log msg s))) -> hoare Q (log msg) (fun _ => Q) Err.
Proof. intros H s Hs. now apply H. Qed.

Lemma hoare_read {A} (Q : State -> Prop) (f : node -> A) Err :
  hoare Q (read f) (fun a s => a = f (fs s) /\ Q s) Err.
Proof. intros s Hs. now split. Qed.

(** What [m] leaves, whether it goes through or fails. *)
Lemma hoare_settles (Pre Q : State -> Prop) (m : M unit) :
  (forall s, Pre s -> Q (snd (m s))) ->
  hoare Pre (settles m) (fun _ => Q) (fun _ _ => False).
Proof.
  intros H s Hs. specialize (H s Hs). unfold settles.
  destruct (m s) as [r s1]; exact H.
Qed.

(** *** The jobs *)

Lemma Forall_dropNth {A} (P : A -> Prop) i l : Forall P l -> Forall P (dropNth i l).
Proof.
  revert i; induction l as [|a l IH]; intros [|i] H; simpl; try constructor;
    inversion H; subst; auto.
Qed.

Section Jobs.

Variable W : World.
Variable dir : path.
Variable Q : State -> Prop.
Hypothesis Q_settled : settled W dir Q.

Lemma hoare_runJob j :
  job_on dir j ->
  hoare Q (runJob W j) (fun queued s => Forall (job_on dir) queued /\ Q s) (fun _ _ => False).
Proof.
  destruct Q_settled as (Hlog & Hunlink & Hremove).
  destruct j as [d [e|files]|p]; simpl; intros Hj.
  - eapply hoare_bind; [apply hoare_log; intros; now apply Hlog | intros ?].
    apply hoare_ret. intros s Hs. now split.
  - subst d. induction files as [|file files IH]; simpl.
    + apply hoare_ret. intros s Hs. now split.
    + eapply hoare_bind with (Mid := fun bs s => Forall (job_on dir) bs /\ Q s).
      * destruct (String.eqb file "Slippi Dolphin.app") eqn:E; cbn [negb].
        -- apply hoare_ret. intros s Hs. now split.
        -- apply eqb_false_neq in E.
           eapply hoare_bind; [apply (hoare_settles Q Q); intros s Hs; now apply Hunlink|].
           intros unlinked. apply hoare_ret. intros s Hs. split; [|exact Hs].
           destruct unlinked; constructor; [|constructor]. now exists file.
      * intros bs. intros s [Hbs Hs].
        pose proof (IH s Hs) as H.
        unfold bind. destruct (collect files _ s) as [[e|rest] s1]; simpl in *; [exact H|].
        destruct H as [Hrest Hs1]. split; [|exact Hs1]. apply Forall_app. now split.
  - destruct Hj as (file & Hfile & ->).
    eapply hoare_bind; [apply (hoare_settles Q Q); intros s Hs; now apply Hremove|].
    intros ?. apply hoare_ret. intros s Hs. now split.
Qed.

Lemma hoare_turn picks : forall q,
  Forall (job_on dir) q ->
  hoare Q (turn W picks q) (fun q' s => Forall (job_on dir) q' /\ Q s) (fun _ _ => False).
Proof.
  induction picks as [|i picks IH]; intros q Hq; simpl.
  - apply hoare_ret. intros s Hs. now split.
  - destruct (nth_error q i) as [j|] eqn:E; [|now apply IH].
    assert (Hj : job_on dir j).
    { rewrite Forall_forall in Hq. apply Hq. eapply nth_error_In; eassumption. }
    eapply hoare_bind; [apply (hoare_runJob j Hj)|].
    intros queued s [Hqueued Hs]. apply IH; [|exact Hs].
    apply Forall_app. split; [now apply Forall_dropNth | exact Hqueued].
Qed.

End Jobs.

(** *** Computations beside the queue *)

Lemma ahoare_ret {A} dir (Pre : State -> Prop) (a : A) Post Err :
  (forall s, Pre s -> Post a s) -> ahoare dir Pre (aret a) Post Err.
Proof. intros H q Hq s Hs. simpl. split; [exact Hq | now apply H]. Qed.

Lemma ahoare_bind {A B} dir Pre (m : Async A) (k : A -> Async B) Mid Post Err :
  ahoare dir Pre m Mid Err -> (forall a, ahoare dir (Mid a) (k a) Post Err) ->
  ahoare dir Pre (abind m k) Post Err.
Proof.
  intros Hm Hk q Hq s Hs. specialize (Hm q Hq s Hs). unfold abind, bind.
  destruct (m q s) as [[e|[q' [e|a]]] s1]; simpl in *; try contradiction.
  - exact Hm.
  - destruct Hm as [Hq' Ha]. now apply Hk.
Qed.

Lemma ahoare_try {A} dir Pre (m : Async A) (h : string -> Async A) Mid Post Err :
  ahoare dir Pre m Post Mid -> (forall e, ahoare dir (Mid e) (h e) Post Err) ->
  ahoare dir Pre (atry m h) Post Err.
Proof.
  intros Hm Hh q Hq s Hs. specialize (Hm q Hq s Hs). unfold atry, bind.
  destruct (m q s) as [[e|[q' [e|a]]] s1]; simpl in *; try contradiction.
  - destruct Hm as [Hq' He]. now apply Hh.
  - exact Hm.
Qed.

Lemma ahoare_conseq {A} dir (Pre Pre' : State -> Prop) (m : Async A)
    (Post Post' : A -> State -> Prop) (Err Err' : string -> State -> Prop) :
  ahoare dir Pre' m Post' Err' ->
  (forall s, Pre s -> Pre' s) ->
  (forall a s, Post' a s -> Post a s) ->
  (forall e s, Err' e s -> Err e s) ->
  ahoare dir Pre m Post Err.
Proof.
  intros H Hp Hq He q Hjobs s Hs. specialize (H q Hjobs s (Hp s Hs)).
  destruct (fst (m q s)) as [e|[q' [e|a]]]; simpl in *; try contradiction;
    destruct H as [H1 H2]; split; auto.
Qed.

Lemma ahoare_sync {A} dir Pre (m : M A) Post Err :
  hoare Pre m Post Err -> ahoare dir Pre (sync m) Post Err.
Proof.
  intros H q Hq s Hs. specialize (H s Hs). unfold sync.
  destruct (m s) as [[e|a] s1]; simpl in *; now split.
Qed.

Lemma ahoare_await {A} W dir k Pre (m : M A) Post Err :
  hoare Pre m Post Err ->
  (forall a, settled W dir (Post a)) -> (forall e, settled W dir (Err e)) ->
  ahoare dir Pre (await W k m) Post Err.
Proof.
  intros H HP HE q Hq s Hs. specialize (H s Hs). unfold await, sync, bind.
  destruct (m s) as [r s1]; simpl in *.
  destruct r as [e|a].
  - pose proof (hoare_turn W dir (Err e) (HE e) (resume W k) q Hq s1 H) as T.
    destruct (turn W (resume W k) q s1) as [[e'|q'] s2]; simpl in *; [contradiction|].
    exact T.
  - pose proof (hoare_turn W dir (Post a) (HP a) (resume W k) q Hq s1 H) as T.
    destruct (turn W (resume W k) q s1) as [[e'|q'] s2]; simpl in *; [contradiction|].
    exact T.
Qed.

Lemma ahoare_readdir W dir (Pre Post : State -> Prop) Err :
  (forall s, Pre s -> Post (snd (emit (AReaddir dir) s))) ->
  ahoare dir Pre (fs_readdir W dir) (fun _ => Post) Err.
Proof.
  intros H q Hq s Hs. specialize (H s Hs). unfold fs_readdir, bind, emit in *. simpl in *.
  split; [|exact H]. apply Forall_app. split; [exact Hq|]. constructor; [reflexivity|constructor].
Qed.

Lemma hoare_runAsync {A} dir Pre (m : Async A) Post Err :
  ahoare dir Pre m Post Err -> hoare Pre (runAsync m) Post Err.
Proof.
  intros H s Hs. specialize (H [] (Forall_nil _) s Hs). unfold runAsync, bind.
  destruct (m [] s) as [[e|[q' [e|a]]] s1]; simpl in *; try contradiction; tauto.
Qed.

(** *** [keeps] beside the queue *)

Lemma keeps_along {A} Inv P (m : M A) t0 :
  keeps Inv P m -> hoare (along Inv P t0) m (fun _ => along Inv P t0) (fun _ => along Inv P t0).
Proof.
  intros K s [Hi (d & T & F)]. destruct (K s Hi) as [Hi' (d' & T' & F')].
  assert (R : along Inv P t0 (snd (m s))).
  { split; [exact Hi'|]. exists (d ++ d'). rewrite T', T, app_assoc.
    split; [reflexivity | now apply Forall_app]. }
  destruct (fst (m s)); exact R.
Qed.

Lemma along_keeps {A} Inv P (m : M A) :
  (forall t0, hoare (along Inv P t0) m (fun _ => along Inv P t0) (fun _ => along Inv P t0)) ->
  keeps Inv P m.
Proof.
  intros H s Hi.
  assert (Hs : along Inv P (trace s) s).
  { split; [exact Hi|]. exists []. now rewrite app_nil_r. }
  specialize (H (trace s) s Hs). destruct (fst (m s)); exact H.
Qed.

Section AKeeps.

Variable W : World.
Variable dir : path.
Variable Inv : node -> Prop.
Variable P : node -> Action -> Prop.

Hypothesis P_readdir : forall n, Inv n -> P n (AReaddir dir).
Hypothesis keeps_unlink :
  forall file, file <> "Slippi Dolphin.app" -> keeps Inv P (fs_unlink W (dir ++ [file])).
Hypothesis keeps_removal :
  forall file, file <> "Slippi Dolphin.app" -> keeps Inv P (fs_remove W (dir ++ [file])).

Lemma settled_along t0 : settled W dir (along Inv P t0).
Proof.
  split; [|split].
  - intros msg s Hs. exact Hs.
  - intros file s Hfile Hs.
    pose proof (keeps_along Inv P _ t0 (keeps_unlink file Hfile) s Hs) as H.
    destruct (fst (fs_unlink W (dir ++ [file]) s)); exact H.
  - intros file s Hfile Hs.
    pose proof (keeps_along Inv P _ t0 (keeps_removal file Hfile) s Hs) as H.
    destruct (fst (fs_remove W (dir ++ [file]) s)); exact H.
Qed.

Lemma akeeps_ret {A} (a : A) : akeeps dir Inv P (aret a).
Proof. intros t0. apply ahoare_ret. auto. Qed.

Lemma akeeps_bind {A B} (m : Async A) (k : A -> Async B) :
  akeeps dir Inv P m -> (forall a, akeeps dir Inv P (k a)) -> akeeps dir Inv P (abind m k).
Proof. intros Hm Hk t0. eapply ahoare_bind; [apply Hm | intros a; apply Hk]. Qed.

Lemma akeeps_try {A} (m : Async A) (h : string -> Async A) :
  akeeps dir Inv P m -> (forall e, akeeps dir Inv P (h e)) -> akeeps dir Inv P (atry m h).
Proof. intros Hm Hh t0. eapply ahoare_try; [apply Hm | intros e; apply Hh]. Qed.

Lemma akeeps_sync {A} (m : M A) : keeps Inv P m -> akeeps dir Inv P (sync m).
Proof. intros K t0. apply ahoare_sync. now apply keeps_along. Qed.

Lemma akeeps_await {A} k (m : M A) : keeps Inv P m -> akeeps dir Inv P (await W k m).
Proof.
  intros K t0. apply ahoare_await; [now apply keeps_along | |]; intros _; apply settled_along.
Qed.

Lemma akeeps_readdir : akeeps dir Inv P (fs_readdir W dir).
Proof.
  intros t0. apply ahoare_readdir. intros s [Hi (d & T & F)]. split; [exact Hi|].
  exists (d ++ [(fs s, AReaddir dir)]). simpl. rewrite T, app_assoc.
  split; [reflexivity|]. apply Forall_app. split; [exact F|].
  constructor; [now apply P_readdir | constructor].
Qed.

Lemma keeps_runAsync {A} (m : Async A) : akeeps dir Inv P m -> keeps Inv P (runAsync m).
Proof. intros H. apply along_keeps. intros t0. eapply hoare_runAsync. apply H. Qed.

End AKeeps.

(** Follows the structure of a computation beside the queue; what is left
    are [keeps] goals for its steps. *)
Ltac akeeps_step :=
  match goal with
  | |- akeeps _ _ _ (abind _ _) => apply akeeps_bind; [|intros ?]
  | |- akeeps _ _ _ (atry _ _) => apply akeeps_try; [|intros ?]
  | |- akeeps _ _ _ (aret _) => apply akeeps_ret
  | |- akeeps _ _ _ (sync _) => apply akeeps_sync
  | |- akeeps _ _ _ (await _ _ _) => apply akeeps_await; [assumption | assumption |]
  | |- akeeps _ _ _ (fs_readdir _ _) => apply akeeps_readdir; assumption
  | |- akeeps _ _ _ (if ?b then _ else _) => destruct b
  end.

(** [keeps] for an asynchronous part on the target [dir]: first the three
    conditions on what the jobs do, then the steps of the part. *)
Ltac keeps_async W d :=
  match goal with
  | |- keeps ?Inv ?P (runAsync _) =>
      let Hrd := fresh "Hrd" in
      let Hu := fresh "Hu" in
      let Hm := fresh "Hm" in
      assert (Hrd : forall n, Inv n -> P n (AReaddir d));
      [|assert (Hu : forall file, file <> "Slippi Dolphin.app" ->
                       keeps Inv P (fs_unlink W (d ++ [file])));
        [|assert (Hm : forall file, file <> "Slippi Dolphin.app" ->
                         keeps Inv P (fs_remove W (d ++ [file])));
          [|apply keeps_runAsync with (dir := d);
            repeat (akeeps_step || cbv zeta)]]]
  end.

Lemma bind_pathExists {B} p (k : bool -> M B) s :
  bind (fs_pathExists p) k s = k (exists_at p (fs s)) s.
Proof. reflexivity. Qed.

(** ** Clean install on an unsupported platform *)

(** C10. On an unsupported platform, [installDolphin] with [cleanInstall]
    removes the whole target root of the kind and only then throws the
    error naming the platform: the call fails and the file system has
    changed. *)
Theorem installDolphin_unsupported_wipes W type asset s :
  unsupported W ->
  io_fault W (now s) (ARemove (userData W ++ [typeName W type])) = None ->
  let root := userData W ++ [typeName W type] in
  let r := installDolphin W type asset true s in
  fst r = inl ("Installing Netplay is not supported on this platform: " +++ platform W) /\
  fs (snd r) = remove root (fs s) /\
  trace (snd r) = trace s ++ [(fs s, ARemove root)] /\
  (forall q, lookup (root ++ q) (fs (snd r)) = None) /\
  (exists_at root (fs s) = true -> fs (snd r) <> fs s).
Proof.
  intros (Hw & Hd & Hl) Hfault root r.
  assert (Hr : r = (inl ("Installing Netplay is not supported on this platform: "
                         +++ platform W),
                    mkState (remove root (fs s)) (now s) (logs s)
                      (trace s ++ [(fs s, ARemove root)]))).
  { subst r. unfold installDolphin. fold root.
    rewrite (neq_eqb_false _ _ Hw), (neq_eqb_false _ _ Hd), (neq_eqb_false _ _ Hl).
    unfold fs_remove. unfold bind at 1. rewrite fscall_run by exact Hfault. reflexivity. }
  rewrite Hr. simpl.
  assert (Habsent : forall q, lookup (root ++ q) (remove root (fs s)) = None).
  { intros q. rewrite lookup_app, lookup_remove_at; [reflexivity|].
    unfold root. destruct (userData W); discriminate. }
  repeat split; [exact Habsent|].
  unfold exists_at. intros Hex Heq. specialize (Habsent []).
  rewrite app_nil_r, Heq in Habsent. rewrite Habsent in Hex. discriminate.
Qed.

Lemma installDolphin_unsupported_wipes_witness :
  fst (installDolphin Sample.freebsd NETPLAY ["data"; "temp"; "FM-Slippi-2.10.0-Linux.zip"]
         true (Sample.start Sample.linuxDisk)) =
    inl "Installing Netplay is not supported on this platform: freebsd" /\
  fs (snd (installDolphin Sample.freebsd NETPLAY
             ["data"; "temp"; "FM-Slippi-2.10.0-Linux.zip"] true
             (Sample.start Sample.linuxDisk))) <> Sample.linuxDisk.
Proof.
  pose proof (installDolphin_unsupported_wipes Sample.freebsd NETPLAY
                ["data"; "temp"; "FM-Slippi-2.10.0-Linux.zip"]
                (Sample.start Sample.linuxDisk)) as H.
  simpl in H. destruct H as (H1 & _ & _ & _ & H5).
  - repeat split; discriminate.
  - reflexivity.
  - split; [exact H1 | apply H5; reflexivity].
Defined.

(** ** Clean install wipes the target before staging *)

Section CleanInstall.

Variable W : World.
Variable type : DolphinLaunchType.

Let root : path := userData W ++ [typeName W type].

Let wiped : node -> Prop := root_absent W type.
Let staged_on_wiped : node * Action -> Prop := extracted_on_absent W type.

Lemma wiped_below n q : wiped n -> lookup (root ++ q) n = None.
Proof. unfold wiped, root_absent. fold root. intros H. now rewrite lookup_app, H. Qed.

Lemma root_nonempty : root <> [].
Proof. unfold root. destruct (userData W); discriminate. Qed.

(** A phase that keeps the target absent, then the extraction, then a phase
    that extracts nothing: every extraction of the run starts on a file
    system without the target, and a run that succeeds has extracted. *)
Lemma staged {A} (pre : M unit) f asset target (post : M A) s :
  keeps wiped (fun n _ => wiped n) pre ->
  keeps (fun _ => True) (fun _ a => is_extract a = false) post ->
  wiped (fs s) ->
  exists d, trace (snd ((pre ;; extractOver W f asset target ;; post) s))
              = trace s ++ d /\
            Forall staged_on_wiped d /\
            (forall v, fst ((pre ;; extractOver W f asset target ;; post) s) = inr v ->
               Exists (fun x => is_extract (snd x) = true) d).
Proof.
  intros Hpre Hpost Hs.
  set (a := match f with
            | Zip => AExtractZip asset target
            | Dmg => AExtractDmg asset target
            end).
  assert (Ha : is_extract a = true) by (subst a; now destruct f).
  destruct (Hpre s Hs) as [H1 [d1 [T1 F1]]].
  assert (F1' : Forall staged_on_wiped d1).
  { eapply Forall_impl; [|exact F1]. intros x Hx _. exact Hx. }
  destruct (pre s) as [[e|[]] s1] eqn:Epre; simpl in *.
  - rewrite (bind_fail _ _ _ _ _ Epre). simpl.
    exists d1. repeat split; [exact T1 | exact F1' | intros v Hv; discriminate Hv].
  - rewrite (bind_run _ _ _ _ _ Epre).
    pose proof (fscall_trace W a _ s1 : trace (snd (extractOver W f asset target s1)) = _)
      as T2.
    destruct (extractOver W f asset target s1) as [[e|[]] s2] eqn:Eex; simpl in *.
    + rewrite (bind_fail _ _ _ _ _ Eex). simpl.
      exists (d1 ++ [(fs s1, a)]). rewrite T2, T1, app_assoc.
      repeat split; [|intros v Hv; discriminate Hv].
      apply Forall_app. split; [exact F1'|]. constructor; [|constructor]. intros _. exact H1.
    + rewrite (bind_run _ _ _ _ _ Eex).
      destruct (Hpost s2 I) as [_ [d3 [T3 F3]]].
      exists (d1 ++ (fs s1, a) :: d3). rewrite T3, T2, T1, <- !app_assoc.
      repeat split.
      * apply Forall_app. split; [exact F1'|]. constructor; [intros _; exact H1|].
        eapply Forall_impl; [|exact F3]. intros x Hx Hex.
        unfold staged_on_wiped, extracted_on_absent in *. congruence.
      * intros _ _. apply Exists_app. right. now left.
Qed.

Ltac no_extract := repeat (keeps_step || keeps_unfold); try (split; [reflexivity | exact I]).

(** C9. For every platform and kind, a clean install first removes the
    target root of the kind: the removal is the first call of the run, every
    extraction of the run starts on a file system in which nothing is left
    at or below the target root, and a run that succeeds has extracted. *)
Theorem installDolphin_clean_wipes_before_staging (asset : path) (s : State) :
  let r := installDolphin W type asset true s in
  exists d,
    trace (snd r) = trace s ++ (fs s, ARemove root) :: d /\
    (forall pre a, In (pre, a) d -> is_extract a = true ->
       forall q, lookup (root ++ q) pre = None) /\
    (fst r = inr tt -> exists pre a, In (pre, a) d /\ is_extract a = true).
Proof.
  cbv zeta. remember (installDolphin W type asset true s) as r eqn:Er.
  assert (Hgoal : forall r0 : (string + unit) * State,
    (exists d, trace (snd r0) = (trace s ++ [(fs s, ARemove root)]) ++ d /\
               Forall staged_on_wiped d /\
               (forall v, fst r0 = inr v -> Exists (fun x => is_extract (snd x) = true) d)) ->
    exists d, trace (snd r0) = trace s ++ (fs s, ARemove root) :: d /\
      (forall pre a, In (pre, a) d -> is_extract a = true ->
         forall q, lookup (root ++ q) pre = None) /\
      (fst r0 = inr tt -> exists pre a, In (pre, a) d /\ is_extract a = true)).
  { intros r0 (d & T & F & E). exists d. rewrite T, <- app_assoc.
    split; [reflexivity|]. split.
    - intros pre a Hin Hex q. rewrite Forall_forall in F.
      apply wiped_below. exact (F _ Hin Hex).
    - intros Hok. apply E in Hok. apply Exists_exists in Hok as [[pre a] [Hin Hex]].
      now exists pre, a. }
  unfold installDolphin in Er. fold root in Er.
  unfold bind at 1 in Er. unfold fs_remove at 1 in Er.
  destruct (io_fault W (now s) (ARemove root)) as [e|] eqn:Hfault.
  - rewrite (fscall_fault _ _ _ _ _ Hfault) in Er. subst r. simpl.
    exists []. split; [reflexivity|]. split; [intros ? ? [] | intros Hv; discriminate Hv].
  - rewrite (fscall_run _ _ _ _ Hfault) in Er. cbn [snd fst] in Er.
    set (s1 := mkState _ _ _ _) in Er.
    assert (Hs1 : wiped (fs s1)) by (apply lookup_remove_at, root_nonempty).
    change (trace s ++ [(fs s, ARemove root)]) with (trace s1) in Hgoal.
    apply Hgoal. clear Hgoal. subst r.
    destruct (String.eqb (platform W) "win32").
    { rewrite bind_ret_tt_under. unfold extractAllTo.
      apply staged; [apply keeps_log | apply keeps_ret | exact Hs1]. }
    destruct (String.eqb (platform W) "darwin").
    { rewrite bind_pathExists. set (installed := exists_at _ (fs s1)).
      unfold extractDmg.
      match goal with
      | |- context [bind ?p1 (fun _ => bind ?p2 ?k) s1] =>
          rewrite <- (bind_assoc p1 (fun _ => p2) k s1)
      end.
      apply staged; [| | exact Hs1].
      - destruct installed; keeps_unfold; repeat keeps_step; try (split; [assumption|]).
        unfold wiped, root_absent, root in *. simpl.
        match goal with H : lookup _ _ = None |- _ => now rewrite H end.
      - keeps_async W root; try (intros; no_extract); try reflexivity;
          unfold os_userInfo; no_extract. }
    destruct (String.eqb (platform W) "linux").
    { unfold extractAllTo.
      match goal with
      | |- context [bind ?p1 (fun _ => bind ?p2 ?k) s1] =>
          rewrite <- (bind_assoc p1 (fun _ => p2) k s1)
      end.
      apply staged; [| no_extract | exact Hs1].
      cbv zeta; keeps_unfold; repeat keeps_step; try (split; [assumption|]);
        simpl; try assumption; now apply lookup_remove_none. }
    exists []. simpl. rewrite app_nil_r.
    split; [reflexivity|]. split; [constructor | intros v Hv; discriminate Hv].
Qed.

End CleanInstall.

(** ** Calls other than the terminal event *)

Lemma finishedEvents_app d1 d2 :
  finishedEvents (d1 ++ d2) = finishedEvents d1 ++ finishedEvents d2.
Proof. apply flat_map_app. Qed.

Lemma finishedEvents_none d :
  Forall (fun x => is_finished (snd x) = false) d -> finishedEvents d = [].
Proof.
  induction 1 as [|[n a] d Ha _ IH]; [reflexivity|].
  simpl in *. destruct a; try discriminate; exact IH.
Qed.

Section Quiet.

Variable W : World.
Variable P : node -> Action -> Prop.
Hypothesis P_all : forall n a, is_finished a = false -> P n a.

Let quiet {A} (m : M A) : Prop := keeps (fun _ => True) P m.

Ltac quiet_call := split; [apply P_all; reflexivity | exact I].

Ltac quiet_tac := repeat (keeps_step || keeps_unfold || cbv zeta); try quiet_call.

Lemma quiet_installDolphin type asset clean : quiet (installDolphin W type asset clean).
Proof.
  unfold quiet, installDolphin.
  repeat (keeps_step || keeps_unfold || cbv zeta
          || (keeps_async W (userData W ++ [typeName W type]);
              [intros ? _; apply P_all; reflexivity
              |intros ? _ | intros ? _ | ..]));
    try quiet_call.
Qed.

Lemma quiet_download url dir filename onProgress :
  (forall p, quiet (onProgress p)) -> quiet (download W url dir filename onProgress).
Proof.
  intros Hp. unfold quiet, download.
  apply keeps_bind; [apply keeps_tick | intros t].
  apply keeps_bind; [apply keeps_emit; intros; now apply P_all | intros _].
  destruct (downloadOutcome W t url) as [progress [e|data]].
  - apply keeps_bind; [|intros _; apply keeps_throw].
    apply keeps_forEach. intros p.
    apply keeps_bind; [apply keeps_emit; intros; now apply P_all | intros _; apply Hp].
  - apply keeps_bind.
    + apply keeps_forEach. intros p.
      apply keeps_bind; [apply keeps_emit; intros; now apply P_all | intros _; apply Hp].
    + intros _ st _. destruct (writeEntry dir ([filename], Some data) (fs st)); simpl;
        (split; [exact I|]; exists []; now rewrite app_nil_r).
Qed.

Lemma quiet_getLatestDolphinAsset type : quiet (getLatestDolphinAsset W type).
Proof.
  unfold quiet, getLatestDolphinAsset. quiet_tac; apply P_all; reflexivity.
Qed.

Lemma quiet_downloadLatestDolphin type : quiet (downloadLatestDolphin W type).
Proof.
  unfold quiet, downloadLatestDolphin.
  apply keeps_bind; [apply quiet_getLatestDolphinAsset | intros asset].
  repeat (keeps_step || keeps_unfold || cbv zeta
          || (apply quiet_download; intros ?; apply keeps_log)); try quiet_call.
Qed.

Lemma quiet_downloadAndInstallDolphin type clean :
  quiet (downloadAndInstallDolphin W type clean).
Proof.
  unfold quiet, downloadAndInstallDolphin.
  apply keeps_bind; [apply quiet_downloadLatestDolphin | intros asset].
  apply keeps_bind; [apply keeps_log | intros _].
  apply keeps_bind; [apply quiet_installDolphin | intros _; apply keeps_log].
Qed.

Lemma quiet_compareDolphinVersion type latest : quiet (compareDolphinVersion W type latest).
Proof.
  unfold quiet, compareDolphinVersion. quiet_tac; apply P_all; reflexivity.
Qed.

Lemma quiet_assertDolphinInstallation type : quiet (assertDolphinInstallation W type).
Proof.
  unfold quiet, assertDolphinInstallation.
  apply keeps_try_catch.
  - repeat (keeps_step || keeps_unfold || cbv zeta
            || apply quiet_compareDolphinVersion
            || apply quiet_downloadAndInstallDolphin);
      apply P_all; reflexivity.
  - intros e. apply keeps_bind; [apply keeps_log | intros _].
    apply quiet_downloadAndInstallDolphin.
Qed.

End Quiet.


(** Runs the monad's own operations, leaving strings and the calls of the
    module alone. *)
Ltac step_run :=
  cbv beta iota zeta delta [bind read tick emit log throw ret set_fs];
  cbn [fs now logs trace fst snd].

(** ** The orchestrator *)

(** C2. [assertDolphinInstallations] runs Netplay, then Playback; when a kind
    fails, nothing but the terminal event follows the state the failure left,
    so the kinds after it are not attempted; the run itself never fails and
    emits exactly one terminal event, carrying null when both kinds completed
    and the message of the first failure otherwise. *)
Theorem assertDolphinInstallations_terminal W s :
  let r := assertDolphinInstallations W s in
  fst r = inr tt /\
  exists d,
    trace (snd r) = trace s ++ d /\
    match assertDolphinInstallation W NETPLAY s with
    | (inl e, s1) =>
        snd r = snd (triggerFinished (Some e) s1) /\ finishedEvents d = [Some e]
    | (inr _, s1) =>
        match assertDolphinInstallation W PLAYBACK s1 with
        | (inl e, s2) =>
            snd r = snd (triggerFinished (Some e) s2) /\ finishedEvents d = [Some e]
        | (inr _, s2) =>
            snd r = snd (triggerFinished None s2) /\ finishedEvents d = [None]
        end
    end.
Proof.
  cbv zeta. unfold assertDolphinInstallations, try_catch, bind.
  pose proof (quiet_assertDolphinInstallation W (fun _ a => is_finished a = false)
                (fun _ _ H => H)) as Hq.
  destruct (Hq NETPLAY s I) as [_ [d1 [T1 F1]]].
  destruct (assertDolphinInstallation W NETPLAY s) as [[e|[]] s1]; simpl in *.
  - split; [reflexivity|]. exists (d1 ++ [(fs s1, AFinished (Some e))]).
    rewrite T1, app_assoc. split; [reflexivity|]. split; [reflexivity|].
    now rewrite finishedEvents_app, (finishedEvents_none _ F1).
  - destruct (Hq PLAYBACK s1 I) as [_ [d2 [T2 F2]]].
    destruct (assertDolphinInstallation W PLAYBACK s1) as [[e|[]] s2]; simpl in *;
      (split; [reflexivity|]);
      [exists (d1 ++ d2 ++ [(fs s2, AFinished (Some e))])
      |exists (d1 ++ d2 ++ [(fs s2, AFinished None)])];
      rewrite T2, T1, <- !app_assoc; (split; [reflexivity|]); (split; [reflexivity|]);
      now rewrite !finishedEvents_app, (finishedEvents_none _ F1), (finishedEvents_none _ F2).
Qed.

(** ** The update decision of one kind *)

(** C3. The code at the failing inputs. Netplay is installed and the
    provider cannot be reached at the first query, or the provider answers
    and the installed executable cannot be run. The failure is not surfaced
    to the caller: the handler that is there for a missing executable
    catches it and logs "Could not find ... installation" right after
    "Found existing ... executable", the kind is downloaded and installed
    anew, and the call succeeds. *)
Theorem assertDolphinInstallation_failure_reinstalls :
  (exists_at (executablePath Sample.flakyProvider NETPLAY) Sample.darwinDisk = true /\
   latestRelease Sample.flakyProvider 0 "project-slippi" "Ishiiruka"
     = inl "getaddrinfo ENOTFOUND api.github.com" /\
   fst (assertDolphinInstallation Sample.flakyProvider NETPLAY
          (Sample.start Sample.darwinDisk)) = inr tt /\
   firstn 3 (logs (snd (assertDolphinInstallation Sample.flakyProvider NETPLAY
                          (Sample.start Sample.darwinDisk)))) =
     ["Found existing netplay Dolphin executable.";
      "Checking if we need to update netplay Dolphin";
      "Could not find netplay Dolphin installation. Downloading..."] /\
   existsb is_extract
     (map snd (trace (snd (assertDolphinInstallation Sample.flakyProvider NETPLAY
                             (Sample.start Sample.darwinDisk))))) = true) /\
  (exists_at (executablePath Sample.brokenBinary NETPLAY) Sample.darwinDisk = true /\
   spawnStdout Sample.brokenBinary 1 (executablePath Sample.brokenBinary NETPLAY)
     ["--version"] = None /\
   fst (assertDolphinInstallation Sample.brokenBinary NETPLAY
          (Sample.start Sample.darwinDisk)) = inr tt /\
   firstn 3 (logs (snd (assertDolphinInstallation Sample.brokenBinary NETPLAY
                          (Sample.start Sample.darwinDisk)))) =
     ["Found existing netplay Dolphin executable.";
      "Checking if we need to update netplay Dolphin";
      "Could not find netplay Dolphin installation. Downloading..."] /\
   existsb is_extract
     (map snd (trace (snd (assertDolphinInstallation Sample.brokenBinary NETPLAY
                             (Sample.start Sample.darwinDisk))))) = true).
Proof. vm_compute. repeat split. Qed.

(** The paths into the handler, on every input. When the executable of the
    kind is not found, the handler runs at once, before any query. When it
    is found and the release query fails, or the query succeeds and the
    executable cannot be asked for its version, the same handler runs from
    the state the failure left; the result of the kind is the result of the
    handler's download-and-install attempt. *)
Lemma assertDolphinInstallation_decision W type s :
  (exists_at (executablePath W type) (fs s) = false ->
     assertDolphinInstallation W type s = reinstall W type s) /\
  (forall e,
     exists_at (executablePath W type) (fs s) = true ->
     latestRelease W (now s) "project-slippi" (repoOf type) = inl e ->
     assertDolphinInstallation W type s = reinstall W type (afterQuery W type s)) /\
  (forall rel,
     exists_at (executablePath W type) (fs s) = true ->
     latestRelease W (now s) "project-slippi" (repoOf type) = inr rel ->
     spawnStdout W (S (now s)) (executablePath W type) ["--version"] = None ->
     assertDolphinInstallation W type s = reinstall W type (afterSpawn W type s)).
Proof.
  unfold assertDolphinInstallation, reinstall, try_catch, afterSpawn, afterQuery.
  unfold compareDolphinVersion, findDolphinExecutable, getLatestReleaseData,
    getLatestRelease, spawnSyncStdout.
  split; [|split].
  - intros H. unfold bind at 1 2. unfold read. rewrite H. reflexivity.
  - intros e Hexe Hq. step_run. rewrite Hexe. step_run.
    destruct type; step_run; unfold repoOf in Hq;
      try change ("Ishiiruka" +++ "-Playback") with "Ishiiruka-Playback";
      rewrite Hq; reflexivity.
  - intros rel Hexe Hq Hsp. step_run. rewrite Hexe. step_run.
    destruct type; step_run; unfold repoOf in Hq;
      try change ("Ishiiruka" +++ "-Playback") with "Ishiiruka-Playback";
      rewrite Hq; step_run; rewrite Hexe; step_run; rewrite Hsp; reflexivity.
Qed.

Lemma assertDolphinInstallation_decision_witness :
  assertDolphinInstallation Sample.flakyProvider NETPLAY (Sample.start Sample.darwinDisk) =
    reinstall Sample.flakyProvider NETPLAY
      (afterQuery Sample.flakyProvider NETPLAY (Sample.start Sample.darwinDisk)) /\
  assertDolphinInstallation Sample.darwin NETPLAY (Sample.start (Dir [])) =
    reinstall Sample.darwin NETPLAY (Sample.start (Dir [])) /\
  assertDolphinInstallation Sample.brokenBinary NETPLAY (Sample.start Sample.darwinDisk) =
    reinstall Sample.brokenBinary NETPLAY
      (afterSpawn Sample.brokenBinary NETPLAY (Sample.start Sample.darwinDisk)).
Proof.
  split; [|split].
  - exact (proj1 (proj2 (assertDolphinInstallation_decision Sample.flakyProvider NETPLAY
                           (Sample.start Sample.darwinDisk)))
             "getaddrinfo ENOTFOUND api.github.com" eq_refl eq_refl).
  - exact (proj1 (assertDolphinInstallation_decision Sample.darwin NETPLAY
                    (Sample.start (Dir []))) eq_refl).
  - exact (proj2 (proj2 (assertDolphinInstallation_decision Sample.brokenBinary NETPLAY
                           (Sample.start Sample.darwinDisk)))
             (Sample.release "Mac.dmg") eq_refl eq_refl eq_refl).
Defined.

(** ** The download cache *)

(** The claim of idempotence, as the specification states it, fails twice.
    With the artifact already in the cache, the call still queries the
    release-metadata provider, a network access. And when the first call
    found no focused window, it downloaded nothing, so the second call
    downloads and reports progress. *)
Lemma downloadLatestDolphin_not_idempotent :
  (let r := downloadLatestDolphin Sample.darwin NETPLAY (Sample.start Sample.darwinDisk) in
   is_file_at ["data"; "temp"; "FM-Slippi-2.10.0-Mac.dmg"] Sample.darwinDisk = true /\
   fst r = inr ["data"; "temp"; "FM-Slippi-2.10.0-Mac.dmg"] /\
   existsb is_network (map snd (trace (snd r))) = true) /\
  (let r1 := downloadLatestDolphin Sample.windowLater NETPLAY (Sample.start (Dir [])) in
   let r2 := downloadLatestDolphin Sample.windowLater NETPLAY (snd r1) in
   fst r1 = inr ["data"; "temp"; "FM-Slippi-2.10.0-Mac.dmg"] /\
   fst r2 = inr ["data"; "temp"; "FM-Slippi-2.10.0-Mac.dmg"] /\
   skipn (List.length (trace (snd r1))) (map snd (trace (snd r2))) =
     [AGetLatestRelease "project-slippi" "Ishiiruka";
      AEnsureDir ["data"; "temp"];
      ADownload "https://releases/Mac.dmg" ["data"; "temp"] "FM-Slippi-2.10.0-Mac.dmg";
      AProgress "50"; AProgress "100"]).
Proof. vm_compute. repeat split. Qed.

Lemma getLatestDolphinAsset_ok W type s rel asset :
  latestRelease W (now s) "project-slippi" (repoOf type) = inr rel ->
  find (fun a => matchesPlatform W (name a)) (assets rel) = Some asset ->
  getLatestDolphinAsset W type s =
    (inr asset,
     mkState (fs s) (S (now s)) (logs s)
       (trace s ++ [(fs s, AGetLatestRelease "project-slippi" (repoOf type))])).
Proof.
  intros Hq Hf. unfold getLatestDolphinAsset, getLatestReleaseData, getLatestRelease.
  step_run. destruct type; unfold repoOf in Hq;
    try change ("Ishiiruka" +++ "-Playback") with "Ishiiruka-Playback";
    rewrite Hq; step_run; rewrite Hf; reflexivity.
Qed.

Lemma getLatestDolphinAsset_inr W type s asset s' :
  getLatestDolphinAsset W type s = (inr asset, s') ->
  s' = mkState (fs s) (S (now s)) (logs s)
         (trace s ++ [(fs s, AGetLatestRelease "project-slippi" (repoOf type))]).
Proof.
  unfold getLatestDolphinAsset, getLatestReleaseData, getLatestRelease. step_run.
  destruct type; unfold repoOf;
    try change ("Ishiiruka" +++ "-Playback") with "Ishiiruka-Playback";
    match goal with |- context [latestRelease ?w ?t ?o ?r] =>
      destruct (latestRelease w t o r) as [e|rel] end;
    step_run; try discriminate;
    destruct (find _ (assets rel)); step_run; intros H; now inversion H.
Qed.

Lemma is_file_at_parent_dir p c n :
  is_file_at (p ++ [c]) n = true -> exists es, lookup p n = Some (Dir es).
Proof.
  unfold is_file_at. rewrite lookup_app.
  destruct (lookup p n) as [[d|es]|]; simpl; try discriminate. eauto.
Qed.

Lemma forEach_progress_state (f : string -> string) (l : list string) s :
  exists s', forEach l (fun p => emit (AProgress p) ;; log (f p)) s = (inr tt, s') /\
             fs s' = fs s /\ now s' = now s.
Proof.
  revert s; induction l as [|p l IH]; intros s; simpl.
  - exists s. auto.
  - unfold bind at 1 2. unfold emit at 1, log at 1. cbn [fs now logs trace].
    destruct (IH (mkState (fs s) (now s) (logs s ++ [f p]) (trace s ++ [(fs s, AProgress p)])))
      as (s' & E & Hf & Hn).
    exists s'. rewrite E. auto.
Qed.

(** A call that succeeded while a window had the focus leaves the artifact
    in the cache. *)
Lemma downloadLatestDolphin_leaves_file W type s p s1 :
  downloadLatestDolphin W type s = (inr p, s1) ->
  focusedWindow W (S (now s)) = true ->
  is_file_at p (fs s1) = true.
Proof.
  unfold downloadLatestDolphin. intros H Hwin.
  apply bind_inr in H as (asset & sA & HA & H).
  apply getLatestDolphinAsset_inr in HA. 
  apply bind_inr in H as ([] & sB & HB & H).
  apply fscall_ok in HB as (_ & HBf & HBn & _).
  assert (HnB : now sB = S (now s)) by (rewrite HBn, HA; reflexivity).
  unfold fileExists in H. rewrite bind_read in H.
  apply bind_inr in H as ([] & sC & HC & H). unfold ret in H. cbv beta in H.
  inversion H; subst p s1; clear H.
  destruct (is_file_at ((userData W ++ ["temp"]) ++ [name asset]) (fs sB)) eqn:Hfile.
  - cbn [negb] in HC. unfold log in HC. injection HC as <-. exact Hfile.
  - cbn [negb] in HC.
    apply bind_inr in HC as ([] & sD & HD & HC). unfold log in HD. injection HD as <-.
    unfold getFocusedWindow in HC. unfold bind at 1 2 in HC. unfold tick, ret in HC.
    cbn [fs now logs trace] in HC. rewrite HnB, Hwin in HC.
    apply bind_inr in HC as ([] & sE & HE & HC). unfold log in HC. injection HC as <-.
    cbn [fs]. unfold download in HE.
    apply bind_inr in HE as (t & sF & HF & HE). unfold tick in HF. injection HF as <- <-.
    apply bind_inr in HE as ([] & sG & HG & HE). unfold emit in HG. injection HG as <-.
    cbn [fs now logs trace] in HE.
    match type of HE with
    | context [downloadOutcome ?w ?t ?u] =>
        destruct (downloadOutcome w t u) as [progress outcome]
    end.
    apply bind_inr in HE as ([] & sH & HH & HE).
    match type of HH with
    | forEach _ _ ?st = _ =>
        destruct (forEach_progress_state
                    (fun percent => "Downloading... " +++ percent +++ "%") progress st)
          as (sH' & EH & HfH & _)
    end.
    assert (Heq : (@inr string unit tt, sH') = (inr tt, sH))
      by (etransitivity; [symmetry; exact EH | exact HH]).
    injection Heq as <-. clear HH EH.
    destruct outcome as [e|data]; [discriminate|].
    destruct (writeEntry (userData W ++ ["temp"]) ([name asset], Some data) (fs sH'))
      as [n|] eqn:Hw; [|discriminate].
    injection HE as <-. unfold set_fs. cbn [fs].
    unfold writeEntry in Hw. cbn [fst snd] in Hw.
    unfold is_file_at.
    destruct (lookup ((userData W ++ ["temp"]) ++ [name asset]) (fs sH')) as [[d|es]|];
      try discriminate; now rewrite (lookup_place_at _ _ _ _ Hw).
Qed.

(** C6, as the code has it. Let the provider answer the query of this call
    with an asset of the platform, and [ensureDir] not fault. If a file named
    after the asset is in the cache directory, [downloadLatestDolphin] returns
    its path and leaves the file system as it is; it has queried the
    provider — it does so on every call — and ensured the directory, and has
    neither downloaded nor reported progress. This is the case, in
    particular, right after a call that succeeded for the same asset name
    while a window had the focus. *)
Theorem downloadLatestDolphin_cached W type s rel asset :
  latestRelease W (now s) "project-slippi" (repoOf type) = inr rel ->
  find (fun a => matchesPlatform W (name a)) (assets rel) = Some asset ->
  io_fault W (S (now s)) (AEnsureDir (cacheDir W)) = None ->
  let r := downloadLatestDolphin W type s in
  let hit :=
    fst r = inr (cacheDir W ++ [name asset]) /\
    fs (snd r) = fs s /\
    map snd (trace (snd r)) =
      map snd (trace s) ++ [AGetLatestRelease "project-slippi" (repoOf type);
                            AEnsureDir (cacheDir W)] in
  (is_file_at (cacheDir W ++ [name asset]) (fs s) = true -> hit) /\
  (forall s0,
     downloadLatestDolphin W type s0 = (inr (cacheDir W ++ [name asset]), s) ->
     focusedWindow W (S (now s0)) = true ->
     hit).
Proof.
  intros Hq Hf Hfault r hit.
  assert (A : is_file_at (cacheDir W ++ [name asset]) (fs s) = true -> hit).
  { intros Hfile. subst hit r.
    assert (Hr : downloadLatestDolphin W type s =
      (inr (cacheDir W ++ [name asset]),
       mkState (fs s) (S (now s))
         (logs s ++ [pathStr W (cacheDir W ++ [name asset])
                     +++ " already exists. Skipping download."])
         ((trace s ++ [(fs s, AGetLatestRelease "project-slippi" (repoOf type))])
            ++ [(fs s, AEnsureDir (cacheDir W))]))).
    { unfold downloadLatestDolphin. fold (cacheDir W).
      rewrite (bind_run _ _ _ _ _ (getLatestDolphinAsset_ok _ _ _ _ _ Hq Hf)).
      destruct (is_file_at_parent_dir _ _ _ Hfile) as [es Hdir].
      unfold fs_ensureDir. unfold bind at 1.
      rewrite fscall_run by exact Hfault. cbn [fs now logs trace fst snd].
      unfold mkdirp. rewrite Hdir. cbn [fst snd].
      unfold fileExists. rewrite bind_read. cbn [fs]. rewrite Hfile. reflexivity. }
    rewrite Hr. cbn [fst snd fs trace].
    split; [reflexivity|]. split; [reflexivity|].
    rewrite <- app_assoc, map_app. reflexivity. }
  split; [exact A|].
  intros s0 Hfirst Hwin. apply A.
  exact (downloadLatestDolphin_leaves_file _ _ _ _ _ Hfirst Hwin).
Qed.

Lemma downloadLatestDolphin_cached_witness :
  let s0 := Sample.start (Dir []) in
  let s := snd (downloadLatestDolphin Sample.darwin NETPLAY s0) in
  fst (downloadLatestDolphin Sample.darwin NETPLAY s) =
    inr ["data"; "temp"; "FM-Slippi-2.10.0-Mac.dmg"] /\
  fs (snd (downloadLatestDolphin Sample.darwin NETPLAY s)) = fs s /\
  map snd (trace (snd (downloadLatestDolphin Sample.darwin NETPLAY s))) =
    map snd (trace s) ++ [AGetLatestRelease "project-slippi" "Ishiiruka";
                          AEnsureDir ["data"; "temp"]].
Proof.
  intros s0 s.
  refine (proj2 (downloadLatestDolphin_cached Sample.darwin NETPLAY s
                   (Sample.release "Mac.dmg")
                   (mkAsset "FM-Slippi-2.10.0-Mac.dmg" "https://releases/Mac.dmg")
                   _ _ _)
            s0 _ _); vm_compute; reflexivity.
Defined.

(** ** Order of the permission fix and the migration on the disk-image platform *)

Lemma backup_not_root W type : typeName W type +++ "_old" <> typeName W type.
Proof. apply append_suffix_neq. discriminate. Qed.

Lemma not_migration_remove_root W type :
  ~ is_migration W type (ARemove (userData W ++ [typeName W type])).
Proof.
  intros [H|H]; [discriminate|]. injection H as H. unfold backupLocation in H.
  apply app_inv_head in H. injection H as H. symmetry in H.
  now apply backup_not_root in H.
Qed.

Lemma not_migration_backup_move W type :
  ~ is_migration W type (AMove (userData W ++ [typeName W type]) (backupLocation W type)).
Proof.
  intros [H|H]; [|discriminate]. injection H as H _.
  unfold oldUserFolder, backupLocation in H. rewrite <- app_assoc in H.
  apply app_inv_head in H. discriminate.
Qed.

Lemma not_migration_remove_entry W type file :
  ~ is_migration W type (ARemove ((userData W ++ [typeName W type]) ++ [file])).
Proof.
  intros [H|H]; [discriminate|]. injection H as H. unfold backupLocation in H.
  rewrite <- app_assoc in H. apply app_inv_head in H. discriminate.
Qed.

Lemma fscall_called W a f s : called a s (snd (fscall W a f s)).
Proof.
  unfold called, fscall, bind, emit, faultCheck. simpl.
  destruct (io_fault W (now s) a); simpl; [auto|].
  destruct (f (fs s)) as [n [e|]]; simpl; auto.
Qed.

Lemma hoare_fscall W a f (Pre : State -> Prop) Post Err :
  (forall s s', Pre s -> called a s s' -> io_fault W (now s) a = None -> Post tt s') ->
  (forall s s' e, Pre s -> called a s s' ->
     (forall e', io_fault W (now s) a = Some e' -> e' = e) -> Err e s') ->
  hoare Pre (fscall W a f) Post Err.
Proof.
  intros Hok Hfail s Hs. pose proof (fscall_called W a f s) as Hc.
  destruct (io_fault W (now s) a) as [e|] eqn:E.
  - rewrite (fscall_fault _ _ _ _ _ E) in *. simpl.
    apply (Hfail s _ e Hs Hc). intros e' He'. congruence.
  - rewrite (fscall_run _ _ _ _ E) in *. cbn [fst snd] in *.
    destruct (snd (f (fs s))) as [e|].
    + apply (Hfail s _ e Hs Hc). intros e' He'. congruence.
    + now apply (Hok s).
Qed.

(** A part that leaves [Q] standing however it ends. *)
Lemma hoare_seq {A B} (Q : State -> Prop) (m : M A) (k : A -> M B) Post Err :
  hoare Q m (fun _ => Q) (fun _ => Q) ->
  (forall e s, Q s -> Err e s) ->
  (forall a, hoare Q (k a) Post Err) ->
  hoare Q (bind m k) Post Err.
Proof.
  intros Hm He Hk. eapply hoare_bind; [|exact Hk].
  eapply hoare_conseq; [exact Hm | auto | auto | exact He].
Qed.

Lemma ahoare_seq {A B} dir (Q : State -> Prop) (m : Async A) (k : A -> Async B) Post Err :
  ahoare dir Q m (fun _ => Q) (fun _ => Q) ->
  (forall e s, Q s -> Err e s) ->
  (forall a, ahoare dir Q (k a) Post Err) ->
  ahoare dir Q (abind m k) Post Err.
Proof.
  intros Hm He Hk. eapply ahoare_bind; [|exact Hk].
  eapply ahoare_conseq; [exact Hm | auto | auto | exact He].
Qed.

(** What the result of a step tells, beside the state. *)
Lemma ahoare_pure {A} dir (fact : Prop) (Pre : State -> Prop) (m : Async A) Post Err :
  (fact -> ahoare dir Pre m Post Err) ->
  ahoare dir (fun s => fact /\ Pre s) m Post Err.
Proof. intros H q Hq s [Hf Hs]. now apply H. Qed.

Lemma settled_or W dir (Q1 Q2 : State -> Prop) :
  settled W dir Q1 -> settled W dir Q2 -> settled W dir (fun s => Q1 s \/ Q2 s).
Proof.
  intros (L1 & U1 & R1) (L2 & U2 & R2). repeat split.
  - intros msg s [H|H]; [left; now apply L1 | right; now apply L2].
  - intros file s Hf [H|H]; [left; now apply U1 | right; now apply U2].
  - intros file s Hf [H|H]; [left; now apply R1 | right; now apply R2].
Qed.

Lemma fixCalls_app d1 d2 : fixCalls (d1 ++ d2) = fixCalls d1 ++ fixCalls d2.
Proof. unfold fixCalls. now rewrite map_app, filter_app. Qed.

Lemma fixCalls_other n a : is_permission_fix a = false -> fixCalls [(n, a)] = [].
Proof. unfold fixCalls. simpl. now intros ->. Qed.

Lemma fixCalls_fix n a : is_permission_fix a = true -> fixCalls [(n, a)] = [a].
Proof. unfold fixCalls. simpl. now intros ->. Qed.

Lemma fixCalls_none d :
  Forall (fun x => is_permission_fix (snd x) = false) d -> fixCalls d = [].
Proof.
  induction 1 as [|[n a] d Ha _ IH]; [reflexivity|].
  change ((n, a) :: d) with ([(n, a)] ++ d). now rewrite fixCalls_app, fixCalls_other, IH.
Qed.

Lemma faults_in_snoc W t d n a (ok : string -> Prop) :
  faults_in W t d ok ->
  (is_permission_fix a = true -> forall e, io_fault W t a = Some e -> ok e) ->
  faults_in W t (d ++ [(n, a)]) ok.
Proof.
  intros Hd Ha n' a' e Hin Hp He. apply in_app_or in Hin as [Hin|[Hin|[]]].
  - now apply (Hd n' a' e).
  - injection Hin as <- <-. now apply Ha.
Qed.

Lemma faults_in_weaken W t d (ok ok' : string -> Prop) :
  faults_in W t d ok -> (forall e, ok e -> ok' e) -> faults_in W t d ok'.
Proof. intros Hd H n a e Hin Hp He. apply H. now apply (Hd n a e). Qed.

Lemma firstn_snoc {A} k (l : list A) a :
  nth_error l k = Some a -> firstn (S k) l = firstn k l ++ [a].
Proof.
  revert l; induction k as [|k IH]; intros [|x l] H; simpl in *; try discriminate.
  - now injection H as ->.
  - now rewrite (IH l H).
Qed.

Section Stages.

Variable W : World.
Variable type : DolphinLaunchType.
Variable s0 : State.

Let dir : path := userData W ++ [typeName W type].
Let stage := at_stage W type s0.

Lemma permissionFixes_fix k a :
  nth_error (permissionFixes W type) k = Some a ->
  is_permission_fix a = true /\ is_extract a = false /\ ~ is_migration W type a.
Proof.
  unfold permissionFixes. cbv zeta.
  destruct k as [|[|[|[|k]]]]; simpl; intros H; try (now destruct k);
    injection H as <-; (repeat split; intros [H|H]; discriminate H).
Qed.

Lemma stage_start : stage Staging s0.
Proof.
  split; [reflexivity|]. exists [], [], [], []. rewrite !app_nil_r.
  repeat split; try constructor. now exists 0.
Qed.

(** The log grows. *)
Lemma stage_log st msg s : stage st s -> stage st (snd (log msg s)).
Proof.
  intros [Hn (l & d1 & d2 & d3 & Hl & Ht & F1 & F2 & F3 & Hk & H)].
  split; [exact Hn|]. exists (l ++ [msg]), d1, d2, d3. simpl.
  rewrite Hl, app_assoc. repeat split; try assumption.
  assert (Hin : forall e, In (permissionLine W type e) l ->
                          In (permissionLine W type e) (l ++ [msg])).
  { intros e He. apply in_or_app. now left. }
  assert (Hover : fix_over W type d2 l -> fix_over W type d2 (l ++ [msg])).
  { intros [Ho|[e He]]; [now left | right; exists e; now apply Hin]. }
  destruct st; try exact H.
  - destruct H as (Hu & Ho & Hf). repeat split; auto.
    eapply faults_in_weaken; [exact Hf | exact Hin].
  - destruct H as (Hu & Ho & Hf & Hm). repeat split; auto.
    eapply faults_in_weaken; [exact Hf | exact Hin].
Qed.

(** A call of the clean-up joins the calls of the stage. *)
Lemma stage_cleanup st a s s' :
  is_cleanup W type a -> called a s s' -> stage st s -> stage st s'.
Proof.
  intros (Hp & He & Hm) (Ht' & Hl' & Hn')
    [Hn (l & d1 & d2 & d3 & Hl & Ht & F1 & F2 & F3 & Hk & H)].
  split; [congruence|].
  assert (Hfix : fixCalls (d2 ++ [(fs s, a)]) = fixCalls d2).
  { now rewrite fixCalls_app, (fixCalls_other _ _ Hp), app_nil_r. }
  assert (Hfaults : forall ok, faults_in W (now s0) d2 ok ->
                      faults_in W (now s0) (d2 ++ [(fs s, a)]) ok).
  { intros ok Hf. apply faults_in_snoc; [exact Hf | congruence]. }
  destruct st.
  - destruct H as [-> ->]. exists l, (d1 ++ [(fs s, a)]), [], [].
    rewrite Ht', Ht, Hl', Hl, !app_nil_r, <- app_assoc.
    repeat split; try assumption; try constructor.
    apply Forall_app. split; [exact F1|]. constructor; [now split | constructor].
  - destruct H as (Hu & -> & Hc & Hf). exists l, d1, (d2 ++ [(fs s, a)]), [].
    rewrite Ht', Ht, Hl', Hl, !app_nil_r, <- !app_assoc.
    repeat split; try assumption; try constructor.
    + apply Forall_app. split; [exact F2|]. constructor; [now split | constructor].
    + rewrite Hfix. exact Hk.
    + now rewrite Hfix.
    + now apply Hfaults.
  - destruct H as (Hu & -> & Hf). exists l, d1, (d2 ++ [(fs s, a)]), [].
    rewrite Ht', Ht, Hl', Hl, !app_nil_r, <- !app_assoc.
    repeat split; try assumption; try constructor.
    + apply Forall_app. split; [exact F2|]. constructor; [now split | constructor].
    + rewrite Hfix. exact Hk.
    + now apply Hfaults.
  - destruct H as (Hu & Ho & Hf). exists l, d1, d2, (d3 ++ [(fs s, a)]).
    rewrite Ht', Ht, Hl', Hl, <- !app_assoc.
    repeat split; try assumption.
    apply Forall_app. split; [exact F3|]. constructor; [now split | constructor].
  - destruct H as (Hu & Ho & Hf & Hx). exists l, d1, d2, (d3 ++ [(fs s, a)]).
    rewrite Ht', Ht, Hl', Hl, <- !app_assoc.
    repeat split; try assumption.
    + apply Forall_app. split; [exact F3|]. constructor; [now split | constructor].
    + apply Exists_app. now left.
Qed.

(** A call of the staging. *)
Lemma stage_staging a s s' :
  is_permission_fix a = false -> ~ is_migration W type a ->
  called a s s' -> stage Staging s -> stage Staging s'.
Proof.
  intros Hp Hm (Ht' & Hl' & Hn')
    [Hn (l & d1 & d2 & d3 & Hl & Ht & F1 & F2 & F3 & Hk & [-> ->])].
  split; [congruence|].
  exists l, (d1 ++ [(fs s, a)]), [], [].
  rewrite Ht', Ht, Hl', Hl, !app_nil_r, <- app_assoc.
  repeat split; try assumption; try constructor.
  apply Forall_app. split; [exact F1|]. constructor; [now split | constructor].
Qed.

(** The user is known: the permission fix starts. *)
Lemma stage_fixing s : userInfoError W = None -> stage Staging s -> stage (Fixing 0) s.
Proof.
  intros Hu [Hn (l & d1 & d2 & d3 & Hl & Ht & F1 & F2 & F3 & Hk & [-> ->])].
  split; [exact Hn|]. exists l, d1, [], [].
  repeat split; try assumption; try constructor. intros n a e [].
Qed.

(** The [k]-th call of the permission fix, when it goes through and when it
    fails. *)
Lemma stage_fix k a s s' :
  nth_error (permissionFixes W type) k = Some a ->
  called a s s' -> stage (Fixing k) s ->
  (io_fault W (now s) a = None -> stage (Fixing (S k)) s') /\
  (forall e, (forall e', io_fault W (now s) a = Some e' -> e' = e) -> stage (Failing e) s').
Proof.
  intros Hnth (Ht' & Hl' & Hn')
    [Hn (l & d1 & d2 & d3 & Hl & Ht & F1 & F2 & F3 & Hk & (Hu & -> & Hc & Hf))].
  destruct (permissionFixes_fix k a Hnth) as (Hp & He & Hm).
  assert (Hfix : fixCalls (d2 ++ [(fs s, a)]) = firstn (S k) (permissionFixes W type)).
  { now rewrite fixCalls_app, (fixCalls_fix _ _ Hp), Hc, (firstn_snoc k _ a Hnth). }
  assert (F2' : Forall (fun x => is_extract (snd x) = false /\ ~ is_migration W type (snd x))
                  (d2 ++ [(fs s, a)])).
  { apply Forall_app. split; [exact F2|]. constructor; [now split | constructor]. }
  rewrite Hn. split.
  - intros Hnone. split; [congruence|].
    exists l, d1, (d2 ++ [(fs s, a)]), [].
    rewrite Ht', Ht, Hl', Hl, !app_nil_r, <- !app_assoc.
    repeat split; try assumption; try constructor.
    + now exists (S k).
    + apply faults_in_snoc; [exact Hf|]. intros _ e He'. congruence.
  - intros e Hfault. split; [congruence|].
    exists l, d1, (d2 ++ [(fs s, a)]), [].
    rewrite Ht', Ht, Hl', Hl, !app_nil_r, <- !app_assoc.
    repeat split; try assumption; try constructor.
    + now exists (S k).
    + apply faults_in_snoc; [|intros _ e' He'; now apply Hfault].
      eapply faults_in_weaken; [exact Hf | intros ? []].
Qed.

(** The four calls went through. *)
Lemma stage_fixed s : stage (Fixing 4) s -> stage Fixed s.
Proof.
  intros [Hn (l & d1 & d2 & d3 & Hl & Ht & F1 & F2 & F3 & Hk & (Hu & -> & Hc & Hf))].
  split; [exact Hn|]. exists l, d1, d2, [].
  repeat split; try assumption; try apply Forall_nil.
  - left. exact Hc.
  - eapply faults_in_weaken; [exact Hf | intros ? []].
Qed.

(** The handler of the permission fix logs the error. *)
Lemma stage_handled e s :
  stage (Failing e) s -> stage Fixed (snd (log (permissionLine W type e) s)).
Proof.
  intros [Hn (l & d1 & d2 & d3 & Hl & Ht & F1 & F2 & F3 & Hk & (Hu & -> & Hf))].
  split; [exact Hn|]. exists (l ++ [permissionLine W type e]), d1, d2, [].
  simpl. rewrite Hl, app_assoc.
  assert (Hin : In (permissionLine W type e) (l ++ [permissionLine W type e])).
  { apply in_or_app. right. now left. }
  repeat split; try assumption; try apply Forall_nil.
  - right. now exists e.
  - eapply faults_in_weaken; [exact Hf|]. intros e' ->. exact Hin.
Qed.

(** A call of the migration. *)
Lemma stage_migration a s s' :
  is_migration W type a -> called a s s' -> stage Fixed s -> stage Migrating s'.
Proof.
  intros Hm (Ht' & Hl' & Hn')
    [Hn (l & d1 & d2 & d3 & Hl & Ht & F1 & F2 & F3 & Hk & (Hu & Ho & Hf))].
  split; [congruence|]. exists l, d1, d2, (d3 ++ [(fs s, a)]).
  rewrite Ht', Ht, Hl', Hl, <- !app_assoc.
  repeat split; try assumption.
  - apply Forall_app. split; [exact F3|].
    constructor; [|constructor]. destruct Hm as [-> | ->]; now split.
  - apply Exists_app. right. now left.
Qed.

Lemma stage_migrated s : stage Migrating s -> stage Fixed s.
Proof.
  intros [Hn (l & d1 & d2 & d3 & Hl & Ht & F1 & F2 & F3 & Hk & (Hu & Ho & Hf & _))].
  split; [exact Hn|]. exists l, d1, d2, d3. repeat split; assumption.
Qed.

Lemma cleanup_unlink file : is_cleanup W type (AUnlink (dir ++ [file])).
Proof. repeat split. intros [H|H]; discriminate H. Qed.

Lemma cleanup_remove file : is_cleanup W type (ARemove (dir ++ [file])).
Proof. repeat split. apply not_migration_remove_entry. Qed.

(** Whatever the jobs of the clean-up do, the run stays at its stage. *)
Lemma settled_stage st : settled W dir (stage st).
Proof.
  split; [|split].
  - intros msg s. apply stage_log.
  - intros file s _. apply stage_cleanup with (a := AUnlink (dir ++ [file]));
      [apply cleanup_unlink | apply fscall_called].
  - intros file s _. apply stage_cleanup with (a := ARemove (dir ++ [file]));
      [apply cleanup_remove | apply fscall_called].
Qed.

Lemma hoare_reads {A} (Q : State -> Prop) (f : node -> A) Err :
  hoare Q (read f) (fun _ => Q) Err.
Proof. intros s Hs. exact Hs. Qed.

(** A call of the staging, however it ends. *)
Lemma hoare_staging a f :
  is_permission_fix a = false -> ~ is_migration W type a ->
  hoare (stage Staging) (fscall W a f) (fun _ => stage Staging) (fun _ => stage Staging).
Proof.
  intros Hp Hm. apply hoare_fscall.
  - intros s s' Hs Hc _. now apply (stage_staging a s s').
  - intros s s' e Hs Hc _. now apply (stage_staging a s s').
Qed.

(** The [k]-th call of the permission fix. *)
Lemma hoare_fix k a f j :
  nth_error (permissionFixes W type) k = Some a ->
  ahoare dir (stage (Fixing k)) (await W j (fscall W a f))
    (fun _ => stage (Fixing (S k))) (fun e => stage (Failing e)).
Proof.
  intros Hnth. apply ahoare_await.
  - apply hoare_fscall.
    + intros s s' Hs Hc Hf. now apply (stage_fix k a s s' Hnth Hc Hs).
    + intros s s' e Hs Hc Hf. now apply (stage_fix k a s s' Hnth Hc Hs).
  - intros _. apply settled_stage.
  - intros e. apply settled_stage.
Qed.

(** A call of the migration. *)
Lemma hoare_migration a f j :
  is_migration W type a ->
  ahoare dir (stage Fixed) (await W j (fscall W a f))
    (fun _ => stage Fixed) (fun _ s => stage Staging s \/ stage Migrating s).
Proof.
  intros Hm. apply ahoare_await.
  - apply hoare_fscall.
    + intros s s' Hs Hc _. apply stage_migrated.
      now apply (stage_migration a s s').
    + intros s s' e Hs Hc _. right. now apply (stage_migration a s s').
  - intros _. apply settled_stage.
  - intros e. apply settled_or; apply settled_stage.
Qed.

Lemma installDolphin_darwin_stages asset clean :
  platform W = "darwin" ->
  hoare (fun s => s = s0) (installDolphin W type asset clean)
    (fun _ => stage Fixed) (fun _ s => stage Staging s \/ stage Migrating s).
Proof.
  intros Hplat.
  apply hoare_conseq with (Pre' := stage Staging) (Post' := fun _ => stage Fixed)
    (Err' := fun _ s => stage Staging s \/ stage Migrating s); auto;
    [|intros s ->; apply stage_start].
  unfold installDolphin. rewrite Hplat. cbn [String.eqb Ascii.eqb Bool.eqb].
  apply hoare_seq; [|now left|intros ?].
  { destruct clean; [|now apply hoare_ret].
    apply hoare_staging; [reflexivity | apply not_migration_remove_root]. }
  eapply hoare_bind with (Mid := fun _ => stage Staging); [apply hoare_reads|].
  intros installed.
  apply hoare_seq; [|now left|intros ?].
  { destruct installed; [|now apply hoare_ret].
    eapply hoare_bind; [apply hoare_log; intros s; apply stage_log | intros ?].
    apply hoare_staging; [reflexivity | apply not_migration_backup_move]. }
  apply hoare_seq; [|now left|intros ?].
  { apply hoare_log. intros s. apply stage_log. }
  apply hoare_seq; [|now left|intros ?].
  { unfold extractDmg, extractOver. apply hoare_staging; [reflexivity|].
    intros [H|H]; discriminate H. }
  apply hoare_runAsync with (dir := dir). cbv zeta.
  apply ahoare_seq; [|now left|intros ?].
  { apply ahoare_readdir. intros s Hs.
    apply (stage_staging (AReaddir dir) s); auto.
    - intros [H|H]; discriminate H.
    - now repeat split. }
  eapply ahoare_bind with
    (Mid := fun u s => u = (uid W, gid W) /\ stage (Fixing 0) s).
  { apply ahoare_sync. unfold os_userInfo.
    destruct (userInfoError W) as [e|] eqn:Hu.
    - apply hoare_throw. now left.
    - apply hoare_ret. intros s Hs. split; [reflexivity | now apply stage_fixing]. }
  intros userInfo. apply ahoare_pure. intros ->. cbn [fst snd].
  eapply ahoare_bind with (Mid := fun _ => stage Fixed).
  { eapply ahoare_try with (Mid := fun e => stage (Failing e)).
    - eapply ahoare_bind; [apply (hoare_fix 0); reflexivity | intros ?].
      eapply ahoare_bind; [apply (hoare_fix 1); reflexivity | intros ?].
      eapply ahoare_bind; [apply (hoare_fix 2); reflexivity | intros ?].
      eapply ahoare_conseq; [apply (hoare_fix 3); reflexivity | auto | | auto].
      intros ? s. apply stage_fixed.
    - intros e. apply ahoare_sync. intros s Hs. simpl.
      apply (stage_handled e s Hs). }
  intros ?. destruct installed; [|now apply ahoare_ret].
  eapply ahoare_bind with (Mid := fun _ => stage Fixed).
  { apply ahoare_await.
    - apply hoare_reads.
    - intros _. apply settled_stage.
    - intros e. apply settled_or; apply settled_stage. }
  intros oldExists.
  eapply ahoare_bind with (Mid := fun _ => stage Fixed).
  { destruct oldExists.
    - eapply ahoare_bind with (Mid := fun _ => stage Fixed).
      + apply ahoare_sync. apply hoare_log. intros s. apply stage_log.
      + intros ?. apply hoare_migration. left.
        unfold oldUserFolder, newUserFolder, backupLocation.
        now rewrite <- (app_assoc (userData W ++ [typeName W type])).
    - apply ahoare_sync. apply hoare_log. intros s. apply stage_log. }
  intros ?. apply hoare_migration. now right.
Qed.

End Stages.

(** The stage at which a run of the disk-image installer ends: past the
    permission fix when it succeeds; in the staging or in the migration when
    it fails. *)
Lemma installDolphin_darwin_ends W type asset clean s :
  platform W = "darwin" ->
  match fst (installDolphin W type asset clean s) with
  | inr _ => at_stage W type s Fixed (snd (installDolphin W type asset clean s))
  | inl _ => at_stage W type s Staging (snd (installDolphin W type asset clean s)) \/
             at_stage W type s Migrating (snd (installDolphin W type asset clean s))
  end.
Proof.
  intros Hplat. exact (installDolphin_darwin_stages W type s asset clean Hplat s eq_refl).
Qed.

(** The disk-image installer fixes the permissions before it migrates the
    user data: on the sample disk, with Netplay installed, the four
    permission calls are issued before the move of the user folder and the
    removal of the backup. The calls of the clean-up of the extracted image
    fall between them as the event loop of the sample picks its jobs. *)
Lemma installDolphin_darwin_fixes_before_migrating :
  platform Sample.darwin = "darwin" /\
  fst (installDolphin Sample.darwin NETPLAY
         ["data"; "temp"; "FM-Slippi-2.10.0-Mac.dmg"] false
         (Sample.start Sample.darwinDisk)) = inr tt /\
  map snd (trace (snd (installDolphin Sample.darwin NETPLAY
                         ["data"; "temp"; "FM-Slippi-2.10.0-Mac.dmg"] false
                         (Sample.start Sample.darwinDisk)))) =
    [AMove ["data"; "netplay"] ["data"; "netplay_old"];
     AExtractDmg ["data"; "temp"; "FM-Slippi-2.10.0-Mac.dmg"] ["data"; "netplay"];
     AReaddir ["data"; "netplay"];
     AChmod ["data"; "netplay"; "Slippi Dolphin.app"] "777";
     AUnlink ["data"; "netplay"; ".background"];
     AUnlink ["data"; "netplay"; "Applications"];
     AChown ["data"; "netplay"; "Slippi Dolphin.app"] 501 20;
     ARemove ["data"; "netplay"; ".background"];
     AChmod ["data"; "netplay"; "Slippi Dolphin.app"; "Contents"; "MacOS"; "Slippi Dolphin"]
       "777";
     AChown ["data"; "netplay"; "Slippi Dolphin.app"; "Contents"; "MacOS"; "Slippi Dolphin"]
       501 20;
     AMove ["data"; "netplay_old"; "Slippi Dolphin.app"; "Contents"; "Resources"; "User"]
       ["data"; "netplay"; "Slippi Dolphin.app"; "Contents"; "Resources"; "User"];
     ARemove ["data"; "netplay_old"]].
Proof. vm_compute. repeat split. Qed.

(** The same install under two other event loops: one that runs no job
    before the install is over, one that runs the jobs of the clean-up while
    the removal of the backup is awaited. The calls of the installer itself
    come in the same order. *)
Lemma installDolphin_darwin_event_loops :
  map snd (trace (snd (installDolphin Sample.idleLoop NETPLAY
                         ["data"; "temp"; "FM-Slippi-2.10.0-Mac.dmg"] false
                         (Sample.start Sample.darwinDisk)))) =
    [AMove ["data"; "netplay"] ["data"; "netplay_old"];
     AExtractDmg ["data"; "temp"; "FM-Slippi-2.10.0-Mac.dmg"] ["data"; "netplay"];
     AReaddir ["data"; "netplay"];
     AChmod ["data"; "netplay"; "Slippi Dolphin.app"] "777";
     AChown ["data"; "netplay"; "Slippi Dolphin.app"] 501 20;
     AChmod ["data"; "netplay"; "Slippi Dolphin.app"; "Contents"; "MacOS"; "Slippi Dolphin"]
       "777";
     AChown ["data"; "netplay"; "Slippi Dolphin.app"; "Contents"; "MacOS"; "Slippi Dolphin"]
       501 20;
     AMove ["data"; "netplay_old"; "Slippi Dolphin.app"; "Contents"; "Resources"; "User"]
       ["data"; "netplay"; "Slippi Dolphin.app"; "Contents"; "Resources"; "User"];
     ARemove ["data"; "netplay_old"]] /\
  map snd (trace (snd (installDolphin Sample.lateLoop NETPLAY
                         ["data"; "temp"; "FM-Slippi-2.10.0-Mac.dmg"] false
                         (Sample.start Sample.darwinDisk)))) =
    [AMove ["data"; "netplay"] ["data"; "netplay_old"];
     AExtractDmg ["data"; "temp"; "FM-Slippi-2.10.0-Mac.dmg"] ["data"; "netplay"];
     AReaddir ["data"; "netplay"];
     AChmod ["data"; "netplay"; "Slippi Dolphin.app"] "777";
     AChown ["data"; "netplay"; "Slippi Dolphin.app"] 501 20;
     AChmod ["data"; "netplay"; "Slippi Dolphin.app"; "Contents"; "MacOS"; "Slippi Dolphin"]
       "777";
     AChown ["data"; "netplay"; "Slippi Dolphin.app"; "Contents"; "MacOS"; "Slippi Dolphin"]
       501 20;
     AMove ["data"; "netplay_old"; "Slippi Dolphin.app"; "Contents"; "Resources"; "User"]
       ["data"; "netplay"; "Slippi Dolphin.app"; "Contents"; "Resources"; "User"];
     ARemove ["data"; "netplay_old"];
     AUnlink ["data"; "netplay"; ".background"];
     AUnlink ["data"; "netplay"; "Applications"];
     ARemove ["data"; "netplay"; ".background"]].
Proof. vm_compute. split; reflexivity. Qed.

(** C4, as the code has it. In the disk-image installer the order is
    staging, permission fix, migration of the user data. The calls of every
    run fall into three parts that follow one another: the first holds no
    permission call and no call of the migration, the second no extraction
    and no call of the migration, the third no extraction and no permission
    call; the permission calls of the second part are the four calls of the
    fix in the order of the code, or the first of them; and when the run
    issues any call of the third part, the fix is over: its four calls were
    issued, or the line of its failure was logged. *)
Theorem installDolphin_darwin_order W type asset clean s :
  platform W = "darwin" ->
  exists d1 d2 d3,
    trace (snd (installDolphin W type asset clean s)) = trace s ++ d1 ++ d2 ++ d3 /\
    Forall (fun x => is_permission_fix (snd x) = false /\ ~ is_migration W type (snd x)) d1 /\
    Forall (fun x => is_extract (snd x) = false /\ ~ is_migration W type (snd x)) d2 /\
    Forall (fun x => is_extract (snd x) = false /\ is_permission_fix (snd x) = false) d3 /\
    (exists k, fixCalls d2 = firstn k (permissionFixes W type)) /\
    (d3 <> [] ->
     fixCalls d2 = permissionFixes W type \/
     exists e l, logs (snd (installDolphin W type asset clean s)) = logs s ++ l /\
                 In (permissionLine W type e) l).
Proof.
  intros Hplat. pose proof (installDolphin_darwin_ends W type asset clean s Hplat) as H.
  assert (Hover : forall d l,
            logs (snd (installDolphin W type asset clean s)) = logs s ++ l ->
            fix_over W type d l ->
            fixCalls d = permissionFixes W type \/
            exists e l, logs (snd (installDolphin W type asset clean s)) = logs s ++ l /\
                        In (permissionLine W type e) l).
  { intros d l Hl [Ho|[e He]]; [now left | right; now exists e, l]. }
  destruct (fst (installDolphin W type asset clean s)) as [e|[]].
  - destruct H as [H|H];
      destruct H as [_ (l & d1 & d2 & d3 & Hl & Ht & F1 & F2 & F3 & Hk & Hst)];
      exists d1, d2, d3; repeat split; try assumption.
    + destruct Hst as [_ ->]. intros Hne. now contradiction Hne.
    + destruct Hst as (_ & Ho & _). intros _. now apply (Hover d2 l).
  - destruct H as [_ (l & d1 & d2 & d3 & Hl & Ht & F1 & F2 & F3 & Hk & (_ & Ho & _))].
    exists d1, d2, d3. repeat split; try assumption. intros _. now apply (Hover d2 l).
Qed.

Lemma installDolphin_darwin_order_witness :
  exists d1 d2 d3,
    trace (snd (installDolphin Sample.darwin NETPLAY
                  ["data"; "temp"; "FM-Slippi-2.10.0-Mac.dmg"] false
                  (Sample.start Sample.darwinDisk))) =
      trace (Sample.start Sample.darwinDisk) ++ d1 ++ d2 ++ d3 /\
    Forall (fun x => is_permission_fix (snd x) = false /\
                     ~ is_migration Sample.darwin NETPLAY (snd x)) d1 /\
    Forall (fun x => is_extract (snd x) = false /\
                     ~ is_migration Sample.darwin NETPLAY (snd x)) d2 /\
    Forall (fun x => is_extract (snd x) = false /\ is_permission_fix (snd x) = false) d3 /\
    (exists k, fixCalls d2 = firstn k (permissionFixes Sample.darwin NETPLAY)) /\
    (d3 <> [] ->
     fixCalls d2 = permissionFixes Sample.darwin NETPLAY \/
     exists e l,
       logs (snd (installDolphin Sample.darwin NETPLAY
                    ["data"; "temp"; "FM-Slippi-2.10.0-Mac.dmg"] false
                    (Sample.start Sample.darwinDisk))) =
         logs (Sample.start Sample.darwinDisk) ++ l /\
       In (permissionLine Sample.darwin NETPLAY e) l).
Proof.
  exact (installDolphin_darwin_order Sample.darwin NETPLAY
           ["data"; "temp"; "FM-Slippi-2.10.0-Mac.dmg"] false
           (Sample.start Sample.darwinDisk) eq_refl).
Defined.


(** ** Failure of the permission fix *)

Lemma findDolphinExecutable_inr W type s p s' :
  findDolphinExecutable W type s = (inr p, s') -> p = executablePath W type.
Proof.
  unfold findDolphinExecutable, bind, read, ret, throw.
  destruct (exists_at (executablePath W type) (fs s)); intros H; now inversion H.
Qed.

Lemma installDolphin_linux_needs_chmod W type asset clean s e :
  platform W = "linux" ->
  (forall t, io_fault W t (AChmod (executablePath W type) "755") = Some e) ->
  exists e', fst (installDolphin W type asset clean s) = inl e'.
Proof.
  intros Hplat Hfault.
  destruct (installDolphin W type asset clean s) as [[e'|[]] s'] eqn:H; [now exists e'|].
  exfalso. unfold installDolphin in H. rewrite Hplat in H.
  cbn [String.eqb Ascii.eqb Bool.eqb] in H.
  apply bind_inr in H as (? & ? & _ & H).
  apply bind_inr in H as (? & ? & _ & H).
  apply bind_inr in H as (? & ? & _ & H).
  apply bind_inr in H as (? & ? & _ & H).
  apply bind_inr in H as (p & ? & Hp & H).
  apply findDolphinExecutable_inr in Hp. subst p.
  apply bind_inr in H as (? & ? & _ & H).
  apply fscall_ok in H as (H & _). rewrite Hfault in H. discriminate.
Qed.

(** On the self-contained-executable platform a failure of the permission
    call is fatal: the install that succeeds when [chmod] works fails with
    the error of [chmod] when it is refused. *)
Lemma installDolphin_linux_chmod_fatal :
  fst (installDolphin Sample.linux NETPLAY ["data"; "temp"; "FM-Slippi-2.10.0-Linux.zip"]
         false (Sample.start Sample.linuxDisk)) = inr tt /\
  fst (installDolphin (Sample.chmodDenied Sample.linux) NETPLAY
         ["data"; "temp"; "FM-Slippi-2.10.0-Linux.zip"]
         false (Sample.start Sample.linuxDisk)) =
    inl "EPERM: operation not permitted, chmod".
Proof. vm_compute. split; reflexivity. Qed.

(** On the disk-image platform the same refusal is logged and the install
    goes on: on the sample disk, with Netplay installed, it migrates the
    user data and succeeds. *)
Lemma installDolphin_darwin_chmod_refused :
  let r := installDolphin (Sample.chmodDenied Sample.darwin) NETPLAY
             ["data"; "temp"; "FM-Slippi-2.10.0-Mac.dmg"] false
             (Sample.start Sample.darwinDisk) in
  fst r = inr tt /\
  In (permissionLine Sample.darwin NETPLAY "EPERM: operation not permitted, chmod")
     (logs (snd r)) /\
  fixCalls (trace (snd r)) = [AChmod ["data"; "netplay"; "Slippi Dolphin.app"] "777"] /\
  lookup ["data"; "netplay"; "Slippi Dolphin.app"; "Contents"; "Resources"; "User"]
    (fs (snd r)) = Some Sample.userFolder.
Proof. vm_compute. repeat split. repeat ((left; reflexivity) || right). Qed.

(** The lookup of the invoking user is not guarded: when it fails, the
    install fails with its error, after the extraction and before any
    permission call. *)
Lemma installDolphin_darwin_user_unknown :
  let r := installDolphin Sample.noUser NETPLAY
             ["data"; "temp"; "FM-Slippi-2.10.0-Mac.dmg"] false
             (Sample.start Sample.darwinDisk) in
  fst r = inl "A system error occurred: uv_os_get_passwd returned ENOENT (no such file or directory)" /\
  map snd (trace (snd r)) =
    [AMove ["data"; "netplay"] ["data"; "netplay_old"];
     AExtractDmg ["data"; "temp"; "FM-Slippi-2.10.0-Mac.dmg"] ["data"; "netplay"];
     AReaddir ["data"; "netplay"]].
Proof. vm_compute. split; reflexivity. Qed.

(** C5, as the code has it. On the disk-image platform a failure of the
    permission fix is not fatal. It is logged: every permission call that
    faults has the line of its error in the log, and an install that
    succeeds has issued the four calls of the fix or logged the line of its
    failure. It is swallowed: a run that fails has issued no permission call
    or has gone on to the migration. What is not guarded there is the lookup
    of the invoking user, whose failure fails the install before any
    permission call. On the self-contained-executable platform the failure
    is fatal: when [chmod] of the executable is refused, the install fails.
    The archive platform issues no permission call. *)
Theorem permission_fix_failure W type asset clean s :
  (platform W = "darwin" ->
   exists d l,
     trace (snd (installDolphin W type asset clean s)) = trace s ++ d /\
     logs (snd (installDolphin W type asset clean s)) = logs s ++ l /\
     (forall n a e, In (n, a) d -> is_permission_fix a = true ->
        io_fault W (now s) a = Some e -> In (permissionLine W type e) l) /\
     (fst (installDolphin W type asset clean s) = inr tt ->
        fixCalls d = permissionFixes W type \/
        exists e, In (permissionLine W type e) l) /\
     (forall e, fst (installDolphin W type asset clean s) = inl e ->
        Forall (fun x => is_permission_fix (snd x) = false) d \/
        Exists (fun x => is_migration W type (snd x)) d) /\
     (forall e, userInfoError W = Some e ->
        (exists e', fst (installDolphin W type asset clean s) = inl e') /\
        Forall (fun x => is_permission_fix (snd x) = false) d)) /\
  (platform W = "linux" ->
   forall e, (forall t, io_fault W t (AChmod (executablePath W type) "755") = Some e) ->
     exists e', fst (installDolphin W type asset clean s) = inl e') /\
  (platform W = "win32" ->
   exists d, trace (snd (installDolphin W type asset clean s)) = trace s ++ d /\
             Forall (fun x => is_permission_fix (snd x) = false) d).
Proof.
  split; [|split].
  - intros Hplat. pose proof (installDolphin_darwin_ends W type asset clean s Hplat) as H.
    assert (Hstaging : forall d1 : list (node * Action),
              Forall (fun x => is_permission_fix (snd x) = false /\
                               ~ is_migration W type (snd x)) d1 ->
              Forall (fun x => is_permission_fix (snd x) = false) d1).
    { intros d1 F. eapply Forall_impl; [|exact F]. now intros x [Hx _]. }
    assert (Hlogged : forall d1 d2 d3 l,
              Forall (fun x => is_permission_fix (snd x) = false /\
                               ~ is_migration W type (snd x)) d1 ->
              Forall (fun x => is_extract (snd x) = false /\
                               is_permission_fix (snd x) = false) d3 ->
              faults_in W (now s) d2 (fun e => In (permissionLine W type e) l) ->
              forall n a e, In (n, a) (d1 ++ d2 ++ d3) -> is_permission_fix a = true ->
                io_fault W (now s) a = Some e -> In (permissionLine W type e) l).
    { intros d1 d2 d3 l F1 F3 Hf n a e Hin Hp He.
      rewrite Forall_forall in F1, F3.
      apply in_app_or in Hin as [Hin|Hin]; [|apply in_app_or in Hin as [Hin|Hin]].
      - apply F1 in Hin. simpl in Hin. destruct Hin. congruence.
      - now apply (Hf n a e).
      - apply F3 in Hin. simpl in Hin. destruct Hin. congruence. }
    destruct (fst (installDolphin W type asset clean s)) as [e|[]].
    + destruct H as [H|H];
        destruct H as [_ (l & d1 & d2 & d3 & Hl & Ht & F1 & F2 & F3 & Hk & Hst)];
        exists (d1 ++ d2 ++ d3), l; (split; [exact Ht|]); (split; [exact Hl|]).
      * destruct Hst as [-> ->]. rewrite !app_nil_r. split; [|split; [|split]].
        -- intros n a e' Hin Hp. rewrite Forall_forall in F1.
           apply F1 in Hin. simpl in Hin. destruct Hin. congruence.
        -- intros He. discriminate He.
        -- intros _ _. left. now apply Hstaging.
        -- intros e' _. split; [now exists e | now apply Hstaging].
      * destruct Hst as (Hu & Ho & Hf & Hx). split; [|split; [|split]].
        -- now apply Hlogged.
        -- intros He. discriminate He.
        -- intros _ _. right. apply Exists_app. right. apply Exists_app. now right.
        -- intros e' He'. congruence.
    + destruct H as [_ (l & d1 & d2 & d3 & Hl & Ht & F1 & F2 & F3 & Hk & (Hu & Ho & Hf))].
      exists (d1 ++ d2 ++ d3), l. split; [exact Ht|]. split; [exact Hl|].
      split; [|split; [|split]].
      * now apply Hlogged.
      * intros _. rewrite !fixCalls_app, (fixCalls_none d1), (fixCalls_none d3), app_nil_r;
          [exact Ho | | now apply Hstaging].
        eapply Forall_impl; [|exact F3]. now intros x [_ Hx].
      * intros e He. discriminate He.
      * intros e' He'. congruence.
  - intros Hplat e He. now apply (installDolphin_linux_needs_chmod _ _ _ _ _ e).
  - intros Hplat.
    assert (K : keeps (fun _ => True) (fun _ a => is_permission_fix a = false)
                  (installDolphin W type asset clean)).
    { unfold installDolphin. rewrite Hplat. cbn [String.eqb Ascii.eqb Bool.eqb].
      repeat (keeps_step || keeps_unfold); try (split; [reflexivity | exact I]). }
    destruct (K s I) as [_ [d [T F]]]. now exists d.
Qed.

Lemma permission_fix_failure_witness :
  (exists d l,
     trace (snd (installDolphin (Sample.chmodDenied Sample.darwin) NETPLAY
                   ["data"; "temp"; "FM-Slippi-2.10.0-Mac.dmg"] false
                   (Sample.start Sample.darwinDisk))) =
       trace (Sample.start Sample.darwinDisk) ++ d /\
     logs (snd (installDolphin (Sample.chmodDenied Sample.darwin) NETPLAY
                  ["data"; "temp"; "FM-Slippi-2.10.0-Mac.dmg"] false
                  (Sample.start Sample.darwinDisk))) =
       logs (Sample.start Sample.darwinDisk) ++ l /\
     (forall n a e, In (n, a) d -> is_permission_fix a = true ->
        io_fault (Sample.chmodDenied Sample.darwin) (now (Sample.start Sample.darwinDisk)) a
          = Some e ->
        In (permissionLine (Sample.chmodDenied Sample.darwin) NETPLAY e) l) /\
     (fst (installDolphin (Sample.chmodDenied Sample.darwin) NETPLAY
             ["data"; "temp"; "FM-Slippi-2.10.0-Mac.dmg"] false
             (Sample.start Sample.darwinDisk)) = inr tt ->
        fixCalls d = permissionFixes (Sample.chmodDenied Sample.darwin) NETPLAY \/
        exists e, In (permissionLine (Sample.chmodDenied Sample.darwin) NETPLAY e) l) /\
     (forall e,
        fst (installDolphin (Sample.chmodDenied Sample.darwin) NETPLAY
               ["data"; "temp"; "FM-Slippi-2.10.0-Mac.dmg"] false
               (Sample.start Sample.darwinDisk)) = inl e ->
        Forall (fun x => is_permission_fix (snd x) = false) d \/
        Exists (fun x => is_migration (Sample.chmodDenied Sample.darwin) NETPLAY (snd x)) d) /\
     (forall e, userInfoError (Sample.chmodDenied Sample.darwin) = Some e ->
        (exists e',
           fst (installDolphin (Sample.chmodDenied Sample.darwin) NETPLAY
                  ["data"; "temp"; "FM-Slippi-2.10.0-Mac.dmg"] false
                  (Sample.start Sample.darwinDisk)) = inl e') /\
        Forall (fun x => is_permission_fix (snd x) = false) d)) /\
  (exists e', fst (installDolphin (Sample.chmodDenied Sample.linux) NETPLAY
                     ["data"; "temp"; "FM-Slippi-2.10.0-Linux.zip"] false
                     (Sample.start Sample.linuxDisk)) = inl e').
Proof.
  split.
  - exact (proj1 (permission_fix_failure (Sample.chmodDenied Sample.darwin) NETPLAY
                    ["data"; "temp"; "FM-Slippi-2.10.0-Mac.dmg"] false
                    (Sample.start Sample.darwinDisk)) eq_refl).
  - exact (proj1 (proj2 (permission_fix_failure (Sample.chmodDenied Sample.linux)
              NETPLAY ["data"; "temp"; "FM-Slippi-2.10.0-Linux.zip"] false
              (Sample.start Sample.linuxDisk)))
             eq_refl "EPERM: operation not permitted, chmod" (fun _ => eq_refl)).
Defined.

(** ** Outcomes of runs, failed ones included *)

Lemma triple_weaken {A} (Pre Pre' : node -> Prop) (m : M A)
    (Post Post' : A -> node -> Prop) (Err Err' : node -> Prop) :
  (forall n, Pre' n -> Pre n) -> (forall a n, Post a n -> Post' a n) ->
  (forall n, Err n -> Err' n) ->
  triple Pre m Post Err -> triple Pre' m Post' Err'.
Proof.
  intros HP HQ HE H s Hs. specialize (H s (HP _ Hs)).
  destruct (fst (m s)); auto.
Qed.

Lemma triple_false {A} (Pre : node -> Prop) (m : M A) Post Err :
  (forall n, Pre n -> False) -> triple Pre m Post Err.
Proof. intros H s Hs. destruct (H _ Hs). Qed.

Lemma triple_bind {A B} Pre (m : M A) (k : A -> M B) Mid Post Err :
  triple Pre m Mid Err -> (forall a, triple (Mid a) (k a) Post Err) ->
  triple Pre (bind m k) Post Err.
Proof.
  intros Hm Hk s Hs. specialize (Hm s Hs). unfold bind.
  destruct (m s) as [[e|a] s1]; simpl in *; [exact Hm|]. now apply Hk.
Qed.

Lemma triple_keeps {A} Inv P (m : M A) :
  keeps Inv P m -> triple Inv m (fun _ => Inv) Inv.
Proof. intros K s Hs. destruct (K s Hs) as [H _]. destruct (fst (m s)); exact H. Qed.

Lemma triple_read {A} Pre (f : node -> A) Err :
  triple Pre (read f) (fun a n => Pre n /\ a = f n) Err.
Proof. intros s Hs. simpl. now split. Qed.

Lemma triple_log Pre msg Err : triple Pre (log msg) (fun _ => Pre) Err.
Proof. intros s Hs. exact Hs. Qed.

Lemma triple_fscall W a f Pre Post Err :
  (forall n, Pre n -> Err n) ->
  (forall n, Pre n -> match snd (f n) with
                      | None => Post tt (fst (f n))
                      | Some _ => Err (fst (f n))
                      end) ->
  triple Pre (fscall W a f) Post Err.
Proof.
  intros HE Hf s Hs. unfold fscall, bind, emit, faultCheck. simpl.
  destruct (io_fault W (now s) a); simpl; [now apply HE|].
  specialize (Hf _ Hs). destruct (f (fs s)) as [n [e|]]; simpl in *; exact Hf.
Qed.

Lemma triple_keeps_err {A} Inv P (m : M A) (Err : node -> Prop) :
  (forall n, Inv n -> Err n) -> keeps Inv P m -> triple Inv m (fun _ => Inv) Err.
Proof.
  intros HE K. eapply triple_weaken; [| | |apply (triple_keeps _ _ _ K)]; auto.
Qed.

Lemma triple_pre {A} (Pre Pre' : node -> Prop) (m : M A) Post Err :
  (forall n, Pre' n -> Pre n) -> triple Pre m Post Err -> triple Pre' m Post Err.
Proof. intros HP H s Hs. exact (H s (HP _ Hs)). Qed.

(** ** User data across an upgrade on the disk-image platform *)

Lemma keeps_lookup_fscall W a g q v :
  (forall n, lookup q (fst (g n)) = lookup q n) ->
  keeps (fun n => lookup q n = v) (fun _ _ => True) (fscall W a g).
Proof.
  intros Hg. apply keeps_fscall. intros n Hn. split; [exact I|]. now rewrite Hg.
Qed.

Lemma keeps_lookup_extractOver W f asset target q v :
  diverge target q = true ->
  keeps (fun n => lookup q n = v) (fun _ _ => True) (extractOver W f asset target).
Proof.
  intros D. unfold extractOver. apply keeps_lookup_fscall. intros n.
  destruct (lookup asset n) as [[data|es]|]; try reflexivity.
  destruct (match f with Zip => zipEntries W | Dmg => dmgEntries W end data) as [es|];
    [|reflexivity].
  assert (Hm : forall n1, match f with Zip => Some n | Dmg => mkdirp target n end = Some n1 ->
                          lookup q n1 = lookup q n).
  { intros n1. destruct f; intros H.
    - now injection H as <-.
    - eapply lookup_mkdirp_diverge; eauto. }
  destruct (match f with Zip => Some n | Dmg => mkdirp target n end) as [n1|];
    [|reflexivity].
  pose proof (lookup_writeEntries_diverge f target es q n1 D) as Hw.
  destruct (writeEntries f target es n1) as [n2 [|]]; destruct f; simpl in *;
    rewrite Hw; now apply Hm.
Qed.

Lemma keeps_lookup_unlink W p q v :
  diverge p q = true -> keeps (fun n => lookup q n = v) (fun _ _ => True) (fs_unlink W p).
Proof.
  intros D. unfold fs_unlink. apply keeps_lookup_fscall. intros n.
  destruct (lookup p n) as [[d|es]|]; try reflexivity.
  now apply lookup_remove_diverge.
Qed.

Lemma keeps_lookup_remove W p q v :
  diverge p q = true -> keeps (fun n => lookup q n = v) (fun _ _ => True) (fs_remove W p).
Proof.
  intros D. unfold fs_remove. apply keeps_lookup_fscall. intros n.
  now apply lookup_remove_diverge.
Qed.

Lemma keeps_lookup_chmod W p mode q v :
  keeps (fun n => lookup q n = v) (fun _ _ => True) (fs_chmod W p mode).
Proof.
  unfold fs_chmod. apply keeps_lookup_fscall. intros n. now destruct (exists_at p n).
Qed.

Lemma keeps_lookup_chown W p u g q v :
  keeps (fun n => lookup q n = v) (fun _ _ => True) (fs_chown W p u g).
Proof.
  unfold fs_chown. apply keeps_lookup_fscall. intros n. now destruct (exists_at p n).
Qed.

Lemma keeps_userInfo W Inv P : keeps Inv P (os_userInfo W).
Proof. unfold os_userInfo. destruct (userInfoError W); [apply keeps_throw | apply keeps_ret]. Qed.

Lemma keeps_run {A} Inv P (m : M A) s r s' :
  keeps Inv P m -> Inv (fs s) -> m s = (r, s') -> Inv (fs s').
Proof. intros K Hs E. destruct (K s Hs) as [H _]. now rewrite E in H. Qed.

Lemma log_inr msg s u s' : log msg s = (inr u, s') -> fs s' = fs s.
Proof. unfold log. intros H. now inversion H. Qed.

(** What holds of the file system whatever the jobs of the clean-up do. *)
Lemma settled_keeps W dir (Inv : node -> Prop) P :
  (forall file, file <> "Slippi Dolphin.app" -> keeps Inv P (fs_unlink W (dir ++ [file]))) ->
  (forall file, file <> "Slippi Dolphin.app" -> keeps Inv P (fs_remove W (dir ++ [file]))) ->
  settled W dir (fun s => Inv (fs s)).
Proof.
  intros Hu Hr. split; [|split].
  - intros msg s Hs. exact Hs.
  - intros file s Hf Hs. now apply (Hu file Hf s).
  - intros file s Hf Hs. now apply (Hr file Hf s).
Qed.

Lemma settled_lookup W dir q v :
  (forall file, file <> "Slippi Dolphin.app" -> diverge (dir ++ [file]) q = true) ->
  settled W dir (fun s => lookup q (fs s) = v).
Proof.
  intros D. apply (settled_keeps W dir (fun n => lookup q n = v) (fun _ _ => True));
    intros file Hf; [apply keeps_lookup_unlink | apply keeps_lookup_remove]; now apply D.
Qed.

Lemma settled_and W dir (Q1 Q2 : State -> Prop) :
  settled W dir Q1 -> settled W dir Q2 -> settled W dir (fun s => Q1 s /\ Q2 s).
Proof.
  intros (L1 & U1 & R1) (L2 & U2 & R2). split; [|split].
  - intros msg s [H1 H2]. split; [now apply L1 | now apply L2].
  - intros file s Hf [H1 H2]. split; [now apply U1 | now apply U2].
  - intros file s Hf [H1 H2]. split; [now apply R1 | now apply R2].
Qed.

Lemma settled_fact W dir (fact : Prop) (Q : State -> Prop) :
  settled W dir Q -> settled W dir (fun s => fact /\ Q s).
Proof.
  intros (L & U & R). split; [|split].
  - intros msg s [H1 H2]. split; [exact H1 | now apply L].
  - intros file s Hf [H1 H2]. split; [exact H1 | now apply U].
  - intros file s Hf [H1 H2]. split; [exact H1 | now apply R].
Qed.

(** [keeps] beside the queue, as a statement on the file system alone. *)
Lemma ahoare_akeeps {A} dir (Inv : node -> Prop) P (m : Async A) :
  akeeps dir Inv P m ->
  ahoare dir (fun s => Inv (fs s)) m (fun _ s => Inv (fs s)) (fun _ s => Inv (fs s)).
Proof.
  intros K q Hq s Hs.
  assert (Ha : along Inv P (trace s) s).
  { split; [exact Hs|]. exists []. now rewrite app_nil_r. }
  pose proof (K (trace s) q Hq s Ha) as H.
  destruct (fst (m q s)) as [e|[q' [e|a]]]; simpl in *; try contradiction;
    destruct H as [H1 [H2 _]]; now split.
Qed.

Section UserData.

Variable W : World.
Variable type : DolphinLaunchType.
Variable u : node.

Let root : path := userData W ++ [typeName W type].
Let bundle : string := "Slippi Dolphin.app".
Let in_place (n : node) : Prop := lookup (newUserFolder W type) n = Some u.
Let in_backup (n : node) : Prop := lookup (oldUserFolder W type) n = Some u.
Let safe (n : node) : Prop := in_place n \/ in_backup n.
Let migrated (n : node) : Prop := in_place n /\ lookup (backupLocation W type) n = None.

Lemma diverge_root_backup q1 q2 :
  diverge (root ++ q1) (backupLocation W type ++ q2) = true.
Proof.
  unfold root, backupLocation. rewrite <- !app_assoc. simpl.
  apply diverge_siblings. intros H. symmetry in H. now apply backup_not_root in H.
Qed.

Lemma diverge_entry_new file :
  file <> bundle -> diverge (root ++ [file]) (newUserFolder W type) = true.
Proof.
  intros H. unfold newUserFolder. fold root. rewrite diverge_app_common.
  cbn [diverge]. fold bundle. now rewrite (neq_eqb_false _ _ H).
Qed.

Lemma diverge_backup_new : diverge (backupLocation W type) (newUserFolder W type) = true.
Proof.
  rewrite diverge_sym. unfold newUserFolder.
  rewrite <- (app_nil_r (backupLocation W type)). apply diverge_root_backup.
Qed.

Lemma diverge_root_old q : diverge (root ++ q) (oldUserFolder W type) = true.
Proof. apply diverge_root_backup. Qed.

Lemma diverge_entry_backup file : diverge (root ++ [file]) (backupLocation W type) = true.
Proof.
  rewrite <- (app_nil_r (backupLocation W type)). apply diverge_root_backup.
Qed.

Lemma in_place_installed n :
  in_place n ->
  exists_at (root ++ ["Slippi Dolphin.app"; "Contents"; "Resources"]) n = true.
Proof.
  unfold in_place, newUserFolder, exists_at. fold root.
  change ["Slippi Dolphin.app"; "Contents"; "Resources"; "User"]
    with (["Slippi Dolphin.app"; "Contents"; "Resources"] ++ ["User"]).
  rewrite app_assoc. intros H.
  destruct (lookup_prefix_some _ _ _ _ H) as [m ->]. reflexivity.
Qed.

Lemma backup_step :
  triple in_place (fs_move W root (backupLocation W type)) (fun _ => in_backup) safe.
Proof.
  unfold fs_move. apply triple_fscall; [now left|].
  intros n Hn. destruct (lookup root n) as [sub|] eqn:Hroot; [|now left].
  destruct (is_prefix root (backupLocation W type)); [now left|].
  destruct (exists_at (backupLocation W type) n); [now left|].
  destruct (place (backupLocation W type) sub (remove root n)) as [n'|] eqn:Hp; [|now left].
  simpl. unfold in_backup, oldUserFolder.
  rewrite lookup_app, (lookup_place_at _ _ _ _ Hp).
  unfold in_place, newUserFolder in Hn. fold root in Hn.
  now rewrite lookup_app, Hroot in Hn.
Qed.

Lemma migration_step :
  triple in_backup (fs_move W (oldUserFolder W type) (newUserFolder W type))
    (fun _ => in_place) safe.
Proof.
  unfold fs_move. apply triple_fscall; [now right|].
  intros n Hn. unfold in_backup in Hn. rewrite Hn.
  destruct (is_prefix (oldUserFolder W type) (newUserFolder W type)); [now right|].
  destruct (exists_at (newUserFolder W type) n); [now right|].
  destruct (place (newUserFolder W type) u (remove (oldUserFolder W type) n))
    as [n'|] eqn:Hp; [|now right].
  simpl. exact (lookup_place_at _ _ _ _ Hp).
Qed.

Lemma removal_step :
  triple in_place (fs_remove W (backupLocation W type)) (fun _ => migrated) safe.
Proof.
  unfold fs_remove. apply triple_fscall; [now left|].
  intros n Hn. simpl. split.
  - unfold in_place. rewrite lookup_remove_diverge; [exact Hn | apply diverge_backup_new].
  - apply lookup_remove_at. unfold backupLocation. destruct (userData W); discriminate.
Qed.

Lemma settled_in_backup : settled W root (fun s => in_backup (fs s)).
Proof. apply settled_lookup. intros file _. apply diverge_root_old. Qed.

Lemma settled_in_place : settled W root (fun s => in_place (fs s)).
Proof. apply settled_lookup. intros file Hf. now apply diverge_entry_new. Qed.

Lemma settled_safe : settled W root (fun s => safe (fs s)).
Proof. apply settled_or; [apply settled_in_place | apply settled_in_backup]. Qed.

Lemma settled_migrated : settled W root (fun s => migrated (fs s)).
Proof.
  apply settled_and; [apply settled_in_place|].
  apply settled_lookup. intros file _. apply diverge_entry_backup.
Qed.

(** The [User] folder through a run of the disk-image installer without
    clean install: a run that succeeds leaves it in the new installation and
    no backup beside the root; a run that fails leaves it in the
    installation or in the backup. *)
Lemma installDolphin_darwin_user_data asset :
  platform W = "darwin" ->
  triple in_place (installDolphin W type asset false) (fun _ => migrated) safe.
Proof.
  intros Hplat.
  unfold installDolphin. rewrite Hplat. cbn [String.eqb Ascii.eqb Bool.eqb].
  fold root. fold (backupLocation W type). fold (oldUserFolder W type).
  replace ((root ++ ["Slippi Dolphin.app"; "Contents"; "Resources"]) ++ ["User"])
    with (newUserFolder W type)
    by (unfold newUserFolder; fold root; now rewrite <- app_assoc).
  apply triple_bind with (Mid := fun _ => in_place).
  { apply (triple_keeps_err _ (fun _ _ => True)); [now left | apply keeps_ret]. }
  intros _. unfold fs_pathExists at 1.
  eapply triple_bind; [apply triple_read|]. intros installed.
  destruct installed;
    [|apply triple_false; intros n [Hn Hb];
      rewrite (in_place_installed _ Hn) in Hb; discriminate].
  apply (triple_pre in_place); [intros n [Hn _]; exact Hn|].
  apply triple_bind with (Mid := fun _ => in_backup).
  { apply triple_bind with (Mid := fun _ => in_place).
    - apply triple_log.
    - intros _. apply backup_step. }
  assert (Kb : forall A (m : M A),
             keeps in_backup (fun _ _ => True) m ->
             triple in_backup m (fun _ => in_backup) safe).
  { intros A m. apply triple_keeps_err. now right. }
  intros _. apply triple_bind with (Mid := fun _ => in_backup);
    [apply Kb, keeps_log | intros _].
  apply triple_bind with (Mid := fun _ => in_backup).
  { apply Kb. unfold extractDmg. apply keeps_lookup_extractOver.
    rewrite <- (app_nil_r root). apply diverge_root_old. }
  intros _.
  match goal with
  | |- triple _ (runAsync ?m) _ _ =>
      change (hoare (fun s => in_backup (fs s)) (runAsync m)
                (fun _ s => migrated (fs s)) (fun _ s => safe (fs s)))
  end.
  apply hoare_runAsync with (dir := root). cbv zeta.
  assert (Ka : forall A (m : Async A),
             akeeps root in_backup (fun _ _ => True) m ->
             ahoare root (fun s => in_backup (fs s)) m (fun _ s => in_backup (fs s))
               (fun _ s => safe (fs s))).
  { intros A m K. eapply ahoare_conseq; [apply (ahoare_akeeps _ _ _ _ K) | auto..].
    intros e s H. now right. }
  assert (Hrd : forall n, in_backup n -> True) by auto.
  assert (Hu : forall file, file <> "Slippi Dolphin.app" ->
                 keeps in_backup (fun _ _ => True) (fs_unlink W (root ++ [file]))).
  { intros file _. apply keeps_lookup_unlink, diverge_root_old. }
  assert (Hm : forall file, file <> "Slippi Dolphin.app" ->
                 keeps in_backup (fun _ _ => True) (fs_remove W (root ++ [file]))).
  { intros file _. apply keeps_lookup_remove, diverge_root_old. }
  eapply ahoare_bind; [apply Ka; now akeeps_step | intros ?].
  eapply ahoare_bind; [apply Ka; akeeps_step; apply keeps_userInfo | intros userInfo].
  eapply ahoare_bind.
  { apply Ka. repeat akeeps_step;
      (apply keeps_lookup_chmod || apply keeps_lookup_chown || apply keeps_log). }
  intros ?.
  eapply ahoare_bind with (Mid := fun b s => b = true /\ in_backup (fs s)).
  { apply ahoare_await.
    - intros s Hs. simpl. split; [|exact Hs]. unfold exists_at. now rewrite Hs.
    - intros b. apply settled_fact, settled_in_backup.
    - intros e. apply settled_safe. }
  intros oldExists. apply ahoare_pure. intros ->.
  eapply ahoare_bind with (Mid := fun _ s => in_place (fs s)).
  { eapply ahoare_bind with (Mid := fun _ s => in_backup (fs s)).
    - apply ahoare_sync. intros s Hs. exact Hs.
    - intros ?. apply ahoare_await.
      + exact migration_step.
      + intros ?. apply settled_in_place.
      + intros e. apply settled_safe. }
  intros ?. apply ahoare_await.
  - exact removal_step.
  - intros ?. apply settled_migrated.
  - intros e. apply settled_safe.
Qed.

End UserData.

(** C1. Disk-image platform, no clean install: when the installation at
    hand has a non-empty [User] folder under the bundle's [Resources], an
    install that succeeds leaves that folder, contents unchanged, at the same
    path of the new installation, and no [<root>_old] backup beside the
    root; this holds wherever the deletions of the [readdir] callback land. *)
Theorem installDolphin_darwin_preserves_user_data W type asset s user s' :
  platform W = "darwin" ->
  lookup (newUserFolder W type) (fs s) = Some (Dir user) ->
  user <> [] ->
  installDolphin W type asset false s = (inr tt, s') ->
  lookup (newUserFolder W type) (fs s') = Some (Dir user) /\
  lookup (backupLocation W type) (fs s') = None.
Proof.
  intros Hplat Huser _ Hrun.
  pose proof (installDolphin_darwin_user_data W type (Dir user) asset Hplat s Huser) as H.
  rewrite Hrun in H. exact H.
Qed.

Lemma installDolphin_darwin_preserves_user_data_witness :
  lookup (newUserFolder Sample.darwin NETPLAY)
    (fs (snd (installDolphin Sample.darwin NETPLAY
                ["data"; "temp"; "FM-Slippi-2.10.0-Mac.dmg"] false
                (Sample.start Sample.darwinDisk)))) = Some Sample.userFolder /\
  lookup (backupLocation Sample.darwin NETPLAY)
    (fs (snd (installDolphin Sample.darwin NETPLAY
                ["data"; "temp"; "FM-Slippi-2.10.0-Mac.dmg"] false
                (Sample.start Sample.darwinDisk)))) = None.
Proof.
  apply (installDolphin_darwin_preserves_user_data Sample.darwin NETPLAY
           ["data"; "temp"; "FM-Slippi-2.10.0-Mac.dmg"] (Sample.start Sample.darwinDisk)).
  - reflexivity.
  - vm_compute. reflexivity.
  - discriminate.
  - vm_compute. reflexivity.
Defined.

(** * Further properties of the code *)

(** ** The user folder through any run of the disk-image installer *)

(** X1. Disk-image platform, no clean install: however a run of
    [installDolphin] ends, with success or with any failure on the way, and
    wherever the deletions of the [readdir] callback land, the [User] folder
    of the previous installation is not lost: it stands unchanged either at
    its place in the installation or at the same place in the [<root>_old]
    backup. *)
Theorem installDolphin_darwin_never_loses_user_data W type u asset s :
  platform W = "darwin" ->
  lookup (newUserFolder W type) (fs s) = Some u ->
  let s' := snd (installDolphin W type asset false s) in
  lookup (newUserFolder W type) (fs s') = Some u \/
  lookup (oldUserFolder W type) (fs s') = Some u.
Proof.
  intros Hplat Hs.
  pose proof (installDolphin_darwin_user_data W type u asset Hplat s Hs) as T.
  cbv zeta. destruct (fst (installDolphin W type asset false s)); [exact T | left; apply T].
Qed.

(** ** Regular files under extraction *)

Lemma path_cases (p q : path) :
  diverge p q = true \/ (exists r, q = p ++ r) \/ (exists r, p = q ++ r).
Proof.
  revert q; induction p as [|a p IH]; intros q.
  - right. left. now exists q.
  - destruct q as [|b q]; [right; right; now exists (a :: p)|].
    simpl. destruct (String.eqb a b) eqn:E; [|now left].
    apply String.eqb_eq in E; subst b.
    destruct (IH q) as [H|[[r ->]|[r ->]]]; [now left | right; left | right; right];
      now exists r.
Qed.

Lemma place_through_file q r d sub n :
  lookup q n = Some (File d) -> r <> [] -> place (q ++ r) sub n = None.
Proof.
  revert n; induction q as [|c q IH]; intros n H Hr.
  - simpl in H. injection H as ->. destruct r; [congruence | reflexivity].
  - simpl in *. destruct n as [d'|es]; [discriminate|].
    destruct (get c es) as [m|]; [|discriminate]. now rewrite (IH _ H Hr).
Qed.

Lemma lookup_below_file q r d n :
  lookup q n = Some (File d) -> r <> [] -> lookup (q ++ r) n = None.
Proof. intros H Hr. rewrite lookup_app, H. destruct r; [congruence | reflexivity]. Qed.

Lemma mkdirp_keeps_file p q d n n' :
  lookup q n = Some (File d) -> mkdirp p n = Some n' -> lookup q n' = Some (File d).
Proof.
  unfold mkdirp. intros Hq H.
  destruct (lookup p n) as [[d'|es]|] eqn:Hp; [discriminate | congruence |].
  destruct (path_cases p q) as [D|[[r ->]|[r ->]]].
  - now rewrite (lookup_place_diverge _ _ _ _ _ D H).
  - destruct (lookup_prefix_some _ _ _ _ Hq) as [m Hm]. congruence.
  - destruct r as [|c r]; [rewrite app_nil_r in Hp; congruence|].
    rewrite (place_through_file q (c :: r) d) in H; [discriminate | exact Hq | discriminate].
Qed.

Lemma writeEntry_keeps_file target e q d n n' :
  lookup q n = Some (File d) ->
  (forall data, snd e = Some data -> target ++ fst e <> q) ->
  writeEntry target e n = Some n' ->
  lookup q n' = Some (File d).
Proof.
  unfold writeEntry. destruct e as [p [data|]]; cbn [fst snd]; intros Hq Hne H;
    [|now apply (mkdirp_keeps_file _ _ _ _ _ Hq H)].
  specialize (Hne data eq_refl).
  assert (Hp : place (target ++ p) (File data) n = Some n'
               /\ forall es, lookup (target ++ p) n <> Some (Dir es)).
  { destruct (lookup (target ++ p) n) as [[d'|es]|]; try discriminate;
      (split; [exact H | intros es'; discriminate]). }
  destruct Hp as [Hp Hnd].
  destruct (path_cases (target ++ p) q) as [D|[[r Hr]|[r Hr]]].
  - now rewrite (lookup_place_diverge _ _ _ _ _ D Hp).
  - destruct r as [|c r]; [rewrite app_nil_r in Hr; congruence|].
    rewrite Hr, lookup_app in Hq.
    destruct (lookup (target ++ p) n) as [[d'|es]|]; try discriminate;
      try (now destruct (Hnd es)).
  - destruct r as [|c r]; [rewrite app_nil_r in Hr; congruence|].
    rewrite Hr, (place_through_file q (c :: r) d) in Hp;
      [discriminate | exact Hq | discriminate].
Qed.

Lemma writeAs_keeps_file f target e q d n n' :
  lookup q n = Some (File d) ->
  (forall data, snd e = Some data -> target ++ fst e <> q) ->
  writeAs f target e n = Some n' ->
  lookup q n' = Some (File d).
Proof.
  intros Hq Hne H. apply writeAs_cases in H as [->|H]; [exact Hq|].
  now apply (writeEntry_keeps_file target e q d n n').
Qed.

Lemma writeEntries_keeps_file f target es q d n :
  lookup q n = Some (File d) ->
  (forall e data, In e es -> snd e = Some data -> target ++ fst e <> q) ->
  lookup q (fst (writeEntries f target es n)) = Some (File d).
Proof.
  revert n; induction es as [|e es IH]; intros n Hq Hne; simpl; [exact Hq|].
  destruct (writeAs f target e n) as [n'|] eqn:E; [|exact Hq].
  apply IH.
  - eapply writeAs_keeps_file; [exact Hq | | exact E].
    intros data. apply Hne. now left.
  - intros e' data Hin. apply Hne. now right.
Qed.

Lemma fscall_fs W a f s :
  fs (snd (fscall W a f s)) = fs s \/ fs (snd (fscall W a f s)) = fst (f (fs s)).
Proof.
  unfold fscall, bind, emit, faultCheck. simpl.
  destruct (io_fault W (now s) a); simpl; [now left|].
  destruct (f (fs s)) as [n [e|]]; simpl; now right.
Qed.

Lemma extractOver_keeps_file W f asset target q d s :
  lookup q (fs s) = Some (File d) ->
  ~ archive_writes (match f with Zip => zipEntries W | Dmg => dmgEntries W end)
      asset target (fs s) q ->
  lookup q (fs (snd (extractOver W f asset target s))) = Some (File d).
Proof.
  intros Hq Hnw. unfold extractOver.
  match goal with
  | |- context [fscall W ?a ?g s] => destruct (fscall_fs W a g s) as [->| ->]
  end; [exact Hq|].
  destruct (lookup asset (fs s)) as [[data|es]|] eqn:Ha; try exact Hq.
  destruct (match f with Zip => zipEntries W | Dmg => dmgEntries W end data)
    as [es|] eqn:Hd; [|exact Hq].
  assert (Hm : forall n1,
            match f with Zip => Some (fs s) | Dmg => mkdirp target (fs s) end = Some n1 ->
            lookup q n1 = Some (File d)).
  { intros n1. destruct f; intros H.
    - now injection H as <-.
    - now apply (mkdirp_keeps_file _ _ _ _ _ Hq H). }
  destruct (match f with Zip => Some (fs s) | Dmg => mkdirp target (fs s) end)
    as [n1|]; [|exact Hq].
  pose proof (writeEntries_keeps_file f target es q d n1 (Hm n1 eq_refl)) as Hw.
  destruct (writeEntries f target es n1) as [n2 [|]]; destruct f; simpl in *; apply Hw;
    intros e dat Hin Hsnd Heq; apply Hnw; now exists data, es, e, dat.
Qed.

(** X2. Archive platform, no clean install: a regular file that the archive
    has no file entry for keeps its contents through [installDolphin],
    whether the install succeeds or fails; the overwrite does not make the
    user's files disappear. *)
Theorem installDolphin_win32_keeps_other_files W type asset s q d :
  platform W = "win32" ->
  lookup q (fs s) = Some (File d) ->
  ~ archive_writes (zipEntries W) asset (userData W ++ [typeName W type]) (fs s) q ->
  lookup q (fs (snd (installDolphin W type asset false s))) = Some (File d).
Proof.
  intros Hplat Hq Hnw. unfold installDolphin. rewrite Hplat.
  cbn [String.eqb Ascii.eqb Bool.eqb]. unfold extractAllTo.
  rewrite (bind_run _ _ s tt s eq_refl).
  unfold bind at 1. unfold log at 1. cbv beta iota.
  now apply (extractOver_keeps_file W Zip).
Qed.

(** ** The clean-up of the extracted disk image *)

Lemma get_not_listed c es : ~ In c (map fst es) -> get c es = None.
Proof.
  induction es as [|[c' n] es IH]; simpl; [reflexivity|]. intros H.
  destruct (String.eqb c c') eqn:E.
  - apply String.eqb_eq in E. subst c'. destruct H. now left.
  - apply IH. intros Hin. apply H. now right.
Qed.

Lemma turn_none W picks s : turn W (0 :: picks) [] s = turn W picks [] s.
Proof. reflexivity. Qed.

Section Cleanup.

Variable W : World.
Variable p : path.

Let unfaulted (s : State) : Prop := forall a, io_fault W (now s) a = None.
Let absent_stays (s s' : State) : Prop :=
  forall q, lookup q (fs s) = None -> lookup q (fs s') = None.
Let handler (j : Job) : Prop := exists file, j = JRejected (p ++ [file]).

Lemma p_entry_nonempty file : p ++ [file] <> [].
Proof. destruct p; discriminate. Qed.

(** The [unlink] of one entry and what it queues. *)
Lemma unlink_entry file s :
  unfaulted s ->
  exists unlinked s1,
    settles (fs_unlink W (p ++ [file])) s = (inr unlinked, s1) /\
    now s1 = now s /\ absent_stays s s1 /\
    (unlinked = true -> lookup (p ++ [file]) (fs s1) = None).
Proof.
  intros Hf. unfold settles, fs_unlink. rewrite fscall_run by apply Hf. cbn [fst snd].
  destruct (lookup (p ++ [file]) (fs s)) as [[d|es]|] eqn:E; cbn [fst snd].
  - eexists _, _. split; [reflexivity|]. split; [reflexivity|]. split.
    + intros q Hq. simpl. now apply lookup_remove_none.
    + intros _. simpl. apply lookup_remove_at, p_entry_nonempty.
  - eexists _, _. split; [reflexivity|]. split; [reflexivity|]. split.
    + intros q Hq. exact Hq.
    + discriminate.
  - eexists _, _. split; [reflexivity|]. split; [reflexivity|]. split.
    + intros q Hq. exact Hq.
    + discriminate.
Qed.

(** The callback of [readdir]: every entry other than the bundle is gone or
    has its handler in the queue. *)
Lemma listed_job files s :
  unfaulted s ->
  exists queued s1,
    runJob W (JListed p (inr files)) s = (inr queued, s1) /\
    now s1 = now s /\ absent_stays s s1 /\
    Forall handler queued /\ length queued <= length files /\
    (forall file, In file files -> file <> "Slippi Dolphin.app" ->
       lookup (p ++ [file]) (fs s1) = None \/ In (JRejected (p ++ [file])) queued).
Proof.
  cbn [runJob]. revert s. induction files as [|f files IH]; intros s Hf; cbn [collect].
  - exists [], s. split; [reflexivity|]. split; [reflexivity|].
    split; [intros q Hq; exact Hq|]. split; [constructor|]. split; [simpl; lia|].
    intros ? [].
  - destruct (String.eqb f "Slippi Dolphin.app") eqn:E; cbn [negb].
    + apply String.eqb_eq in E.
      destruct (IH s Hf) as (queued & s1 & Hrun & Hn & Ha & Hh & Hl & Hfiles).
      exists queued, s1. unfold bind at 1. unfold ret at 1. unfold bind at 1.
      rewrite Hrun. cbn [app]. repeat split; auto.
      * simpl. lia.
      * intros file [<-|Hin] Hne; [contradiction | now apply Hfiles].
    + apply eqb_false_neq in E.
      destruct (unlink_entry f s Hf) as (unlinked & s1 & Hu & Hn1 & Ha1 & Hgone).
      assert (Hf1 : unfaulted s1) by (intros a; rewrite Hn1; apply Hf).
      destruct (IH s1 Hf1) as (queued & s2 & Hrun & Hn2 & Ha2 & Hh & Hl & Hfiles).
      exists ((if unlinked then [] else [JRejected (p ++ [f])]) ++ queued), s2.
      unfold bind at 1. unfold bind at 1. rewrite Hu. unfold ret at 1. unfold bind at 1.
      rewrite Hrun. split; [reflexivity|]. split; [congruence|]. split; [|split; [|split]].
      * intros q Hq. apply Ha2, Ha1, Hq.
      * apply Forall_app. split; [|exact Hh].
        destruct unlinked; constructor; [|constructor]. now exists f.
      * rewrite length_app. destruct unlinked; simpl; lia.
      * intros file [<-|Hin] Hne.
        -- destruct unlinked.
           ++ left. apply Ha2, Hgone. reflexivity.
           ++ right. now left.
        -- destruct (Hfiles file Hin Hne) as [H|H]; [now left | right].
           apply in_or_app. now right.
Qed.

(** The handlers run one after the other: what each was queued for is
    gone. *)
Lemma handlers_run n : forall queue s,
  unfaulted s -> Forall handler queue -> length queue <= n ->
  absent_stays s (snd (turn W (repeat 0 n) queue s)) /\
  (forall q, In (JRejected q) queue -> q <> [] ->
     lookup q (fs (snd (turn W (repeat 0 n) queue s))) = None).
Proof.
  induction n as [|n IH]; intros queue s Hf Hh Hl.
  - destruct queue; [|simpl in Hl; lia]. simpl. split; [intros q Hq; exact Hq | intros ? []].
  - destruct queue as [|j queue].
    + simpl repeat. rewrite turn_none.
      destruct (IH [] s Hf Hh) as [H1 H2]; [simpl; lia|]. split; [exact H1 | intros ? []].
    + inversion Hh as [|? ? [file ->] Hh']; subst.
      set (s1 := mkState (remove (p ++ [file]) (fs s)) (now s) (logs s)
                   (trace s ++ [(fs s, ARemove (p ++ [file]))])).
      assert (Hstep : turn W (repeat 0 (S n)) (JRejected (p ++ [file]) :: queue) s =
                      turn W (repeat 0 n) queue s1).
      { cbn [repeat turn nth_error runJob dropNth].
        unfold bind at 1. unfold bind at 1. unfold settles, fs_remove.
        rewrite fscall_run by apply Hf. cbn [fst snd]. unfold ret at 1. cbn [app].
        now rewrite app_nil_r. }
      rewrite Hstep.
      assert (Hf1 : unfaulted s1) by exact Hf.
      destruct (IH queue s1 Hf1 Hh') as [H1 H2]; [simpl in Hl; lia|].
      split.
      * intros q Hq. apply H1. unfold s1. simpl. now apply lookup_remove_none.
      * intros q [Hq|Hq] Hne; [|now apply H2].
        injection Hq as <-. apply H1. unfold s1. simpl. now apply lookup_remove_at.
Qed.

(** X3. The clean-up of the extracted disk image. Whatever jobs of the
    clean-up run, in whatever order and whatever their calls raise, nothing
    at or inside the application bundle is touched. And when none of the
    calls faults, once the callback of [readdir] and the handlers it queues
    have run, no top-level entry of the target other than the bundle is
    left. *)
Theorem cleanup_leaves_only_bundle s files :
  (forall picks queue, Forall (job_on p) queue ->
     forall r, lookup (p ++ "Slippi Dolphin.app" :: r) (fs (snd (turn W picks queue s))) =
               lookup (p ++ "Slippi Dolphin.app" :: r) (fs s)) /\
  ((forall a, io_fault W (now s) a = None) ->
   listing p (fs s) = Some files ->
   forall file, file <> "Slippi Dolphin.app" ->
     lookup (p ++ [file])
       (fs (snd (turn W (repeat 0 (S (length files))) [JListed p (inr files)] s))) = None).
Proof.
  split.
  - intros picks queue Hq r.
    assert (D : forall f, f <> "Slippi Dolphin.app" ->
                diverge (p ++ [f]) (p ++ "Slippi Dolphin.app" :: r) = true).
    { intros f Hf'. rewrite diverge_app_common. cbn [diverge].
      now rewrite (neq_eqb_false _ _ Hf'). }
    pose proof (hoare_turn W p _
                  (settled_lookup W p _ (lookup (p ++ "Slippi Dolphin.app" :: r) (fs s)) D)
                  picks queue Hq s eq_refl) as H.
    destruct (turn W picks queue s) as [[e|q'] s1]; simpl in *; [contradiction|].
    apply H.
  - intros Hf Hlist file Hne.
    destruct (listed_job files s Hf) as (queued & s1 & Hrun & Hn & Ha & Hh & Hl & Hfiles).
    assert (Hstep : turn W (repeat 0 (S (length files))) [JListed p (inr files)] s =
                    turn W (repeat 0 (length files)) queued s1).
    { cbn [repeat turn nth_error dropNth app]. unfold bind at 1. now rewrite Hrun. }
    rewrite Hstep.
    assert (Hf1 : unfaulted s1) by (intros a; rewrite Hn; apply Hf).
    destruct (handlers_run (length files) queued s1 Hf1 Hh Hl) as [H1 H2].
    destruct (in_dec string_dec file files) as [Hin|Hout].
    + destruct (Hfiles file Hin Hne) as [H|H]; [now apply H1|].
      apply H2; [exact H | apply p_entry_nonempty].
    + apply H1, Ha. unfold listing in Hlist. rewrite lookup_app.
      destruct (lookup p (fs s)) as [[d|es]|]; try discriminate.
      injection Hlist as <-. simpl. now rewrite (get_not_listed _ _ Hout).
Qed.

End Cleanup.

(** ** The self-contained-executable platform *)

Lemma findDolphinExecutable_found W type s p s' :
  findDolphinExecutable W type s = (inr p, s') ->
  p = executablePath W type /\ s' = s /\ exists_at (executablePath W type) (fs s) = true.
Proof.
  unfold findDolphinExecutable, bind, read, ret, throw.
  destruct (exists_at (executablePath W type) (fs s)); intros H; inversion H; auto.
Qed.

Lemma fs_chmod_ok W p mode s s' :
  fs_chmod W p mode s = (inr tt, s') -> fs s' = fs s.
Proof.
  unfold fs_chmod. intros H. apply fscall_ok in H as (_ & H & _).
  destruct (exists_at p (fs s)); now inversion H.
Qed.

(** X4. Self-contained-executable platform: an install that succeeds leaves
    the executable at the place discovery looks for it, so [openDolphin]
    then spawns exactly that executable with the given parameters. *)
Theorem installDolphin_linux_then_open W type asset clean s s' :
  platform W = "linux" ->
  installDolphin W type asset clean s = (inr tt, s') ->
  exists_at (executablePath W type) (fs s') = true /\
  forall params,
    openDolphin W type params s' =
      (inr (mkChild (executablePath W type)
              (match params with Some l => l | None => [] end)), s').
Proof.
  intros Hplat H. unfold installDolphin in H. rewrite Hplat in H.
  cbn [String.eqb Ascii.eqb Bool.eqb] in H.
  apply bind_inr in H as (? & ? & _ & H).
  apply bind_inr in H as (? & ? & _ & H).
  apply bind_inr in H as (? & ? & _ & H).
  apply bind_inr in H as (? & sX & _ & H).
  apply bind_inr in H as (p & sY & Hp & H).
  apply findDolphinExecutable_found in Hp as (-> & -> & Hex).
  apply bind_inr in H as ([] & sZ & Hlog & H).
  apply log_inr in Hlog. apply fs_chmod_ok in H.
  assert (Hex' : exists_at (executablePath W type) (fs s') = true) by congruence.
  split; [exact Hex'|]. intros params.
  unfold openDolphin, findDolphinExecutable, bind, read, ret. now rewrite Hex'.
Qed.

Lemma lookup_remove_cases p q n :
  lookup q (remove p n) = lookup q n \/ lookup q (remove p n) = None \/
  exists es, lookup q (remove p n) = Some (Dir es).
Proof.
  revert q n; induction p as [|a p IH]; intros q n.
  - destruct q; simpl; [right; right; now exists [] | right; now left].
  - destruct n as [d|es]; [now left|].
    destruct q as [|b q].
    + right. right. destruct p as [|a' p]; cbn [remove lookup]; [eauto|].
      destruct (get a es); eauto.
    + destruct p as [|a' p].
      * simpl. destruct (String.eqb a b) eqn:E.
        -- apply String.eqb_eq in E. subst b. rewrite get_del_eq. right. now left.
        -- rewrite get_del_neq by (now apply eqb_false_neq). now left.
      * cbn [remove]. destruct (get a es) as [m|] eqn:G; [|now left].
        cbn [lookup]. destruct (String.eqb a b) eqn:E.
        -- apply String.eqb_eq in E. subst b. rewrite get_put_eq, G. apply IH.
        -- rewrite get_put_neq by (now apply eqb_false_neq). now left.
Qed.

Lemma is_file_at_remove p q n :
  is_file_at q n = false -> is_file_at q (remove p n) = false.
Proof.
  unfold is_file_at. intros H.
  destruct (lookup_remove_cases p q n) as [->|[->|[es ->]]]; auto.
Qed.

Lemma is_file_at_removed p n : is_file_at p (remove p n) = false.
Proof.
  unfold is_file_at. destruct p as [|c p]; [reflexivity|].
  rewrite lookup_remove_at; [reflexivity | discriminate].
Qed.

(** The block that deletes the existing executable. *)
Lemma delete_existing_executable W type s s' :
  (forall t, io_fault W t (ARemove (executablePath W type)) = None) ->
  try_catch
    (dolphinAppImagePath <- findDolphinExecutable W type ;;
     present <- fileExists dolphinAppImagePath ;;
     if present then
       log (pathStr W dolphinAppImagePath +++ " already exists. Deleting...") ;;
       fs_remove W dolphinAppImagePath
     else ret tt)
    (fun _ => log "No existing AppImage found") s = (inr tt, s') ->
  is_file_at (executablePath W type) (fs s') = false.
Proof.
  intros Hf. unfold try_catch, findDolphinExecutable, fileExists.
  unfold bind at 1 2. unfold read at 1.
  destruct (exists_at (executablePath W type) (fs s)) eqn:Hex.
  - unfold ret at 1. unfold bind at 1. unfold read at 1.
    destruct (is_file_at (executablePath W type) (fs s)) eqn:Hfile.
    + unfold bind, log, fs_remove. rewrite fscall_run by apply Hf.
      cbn [fst snd fs]. intros H. inversion H. cbn [fs]. apply is_file_at_removed.
    + unfold ret. intros H. inversion H. now subst.
  - unfold throw, log. intros H. inversion H. cbn [fs].
    unfold exists_at, is_file_at in *. now destruct (lookup _ (fs s)).
Qed.

(** A phase without extraction that, when it succeeds, ends on a file system
    satisfying [Inv], then the extraction, then a phase without extraction:
    every extraction of the run starts on a file system satisfying [Inv]. *)
Lemma staged_after {A} (Inv : node -> Prop) W (pre : M unit) f asset target
    (post : M A) s :
  keeps (fun _ => True) (fun _ a => is_extract a = false) pre ->
  (forall s', pre s = (inr tt, s') -> Inv (fs s')) ->
  keeps (fun _ => True) (fun _ a => is_extract a = false) post ->
  exists d,
    trace (snd ((pre ;; extractOver W f asset target ;; post) s)) = trace s ++ d /\
    forall x, In x d -> is_extract (snd x) = true -> Inv (fst x).
Proof.
  intros Hpre Hinv Hpost.
  set (a := match f with
            | Zip => AExtractZip asset target
            | Dmg => AExtractDmg asset target
            end).
  destruct (Hpre s I) as [_ [d1 [T1 F1]]]. rewrite Forall_forall in F1.
  destruct (pre s) as [[e|[]] s1] eqn:Epre; simpl in *.
  - rewrite (bind_fail _ _ _ _ _ Epre). simpl. exists d1. split; [exact T1|].
    intros x Hx Hex. rewrite (F1 x Hx) in Hex. discriminate.
  - rewrite (bind_run _ _ _ _ _ Epre).
    pose proof (fscall_trace W a _ s1 : trace (snd (extractOver W f asset target s1)) = _)
      as T2.
    destruct (extractOver W f asset target s1) as [[e|[]] s2] eqn:Eex; simpl in *.
    + rewrite (bind_fail _ _ _ _ _ Eex). simpl.
      exists (d1 ++ [(fs s1, a)]). rewrite T2, T1, app_assoc. split; [reflexivity|].
      intros x Hx Hex. apply in_app_or in Hx as [Hx|[<-|[]]].
      * rewrite (F1 x Hx) in Hex. discriminate.
      * now apply Hinv.
    + rewrite (bind_run _ _ _ _ _ Eex).
      destruct (Hpost s2 I) as [_ [d3 [T3 F3]]]. rewrite Forall_forall in F3.
      exists (d1 ++ (fs s1, a) :: d3). rewrite T3, T2, T1, <- !app_assoc.
      split; [reflexivity|].
      intros x Hx Hex. apply in_app_or in Hx as [Hx|[<-|Hx]].
      * rewrite (F1 x Hx) in Hex. discriminate.
      * now apply Hinv.
      * rewrite (F3 x Hx) in Hex. discriminate.
Qed.

Ltac extract_free :=
  repeat (keeps_step || keeps_unfold || cbv zeta); try (split; [reflexivity | exact I]).

(** X5. Self-contained-executable platform: the executable of the previous
    installation is deleted before the new one is extracted. When removing
    it does not fault, every extraction of a run starts on a file system
    where no regular file stands at the executable's place. *)
Theorem installDolphin_linux_deletes_executable_first W type asset clean s :
  platform W = "linux" ->
  (forall t, io_fault W t (ARemove (executablePath W type)) = None) ->
  exists d,
    trace (snd (installDolphin W type asset clean s)) = trace s ++ d /\
    forall pre a, In (pre, a) d -> is_extract a = true ->
      is_file_at (executablePath W type) pre = false.
Proof.
  intros Hplat Hf. unfold installDolphin. rewrite Hplat.
  cbn [String.eqb Ascii.eqb Bool.eqb]. unfold extractAllTo.
  do 2 match goal with
       | |- context [bind ?p1 (fun _ => bind ?p2 ?k) s] =>
           rewrite <- (bind_assoc p1 (fun _ => p2) k s)
       end.
  match goal with
  | |- context [bind ?pre (fun _ => bind (extractOver _ ?f ?ap ?tg) (fun _ => ?post)) s] =>
      destruct (staged_after (fun n => is_file_at (executablePath W type) n = false)
                  W pre f ap tg post s) as (d & T & F)
  end.
  - destruct clean; extract_free.
  - intros s3 H.
    apply bind_inr in H as ([] & s2 & H12 & H3).
    apply bind_inr in H12 as ([] & s1 & _ & H2).
    apply delete_existing_executable in H2; [|exact Hf].
    destruct clean.
    + unfold fs_remove in H3. apply fscall_ok in H3 as (_ & H3 & _).
      injection H3 as <-. now apply is_file_at_remove.
    + unfold ret in H3. now inversion H3; subst.
  - extract_free.
  - exists d. split; [exact T|]. intros pre a Hin. exact (F (pre, a) Hin).
Qed.

(** X6. Self-contained-executable platform: a clean install that succeeds
    has removed the user-configuration folder of the kind under the home
    directory, when that folder and the target root lie apart. *)
Theorem installDolphin_linux_clean_removes_config W type asset s s' :
  platform W = "linux" ->
  diverge (userData W ++ [typeName W type]) (configFolder W type) = true ->
  installDolphin W type asset true s = (inr tt, s') ->
  lookup (configFolder W type) (fs s') = None.
Proof.
  intros Hplat D H. unfold installDolphin in H. rewrite Hplat in H.
  cbn [String.eqb Ascii.eqb Bool.eqb] in H. fold (configFolder W type) in H.
  apply bind_inr in H as (? & ? & _ & H).
  apply bind_inr in H as (? & s1 & _ & H).
  apply bind_inr in H as ([] & s2 & Hrm & H).
  unfold fs_remove in Hrm. apply fscall_ok in Hrm as (_ & Hrm & _).
  injection Hrm as Hrm.
  assert (H2 : lookup (configFolder W type) (fs s2) = None).
  { rewrite <- Hrm. apply lookup_remove_at. unfold configFolder.
    destruct (home W); discriminate. }
  apply bind_inr in H as ([] & s3 & Hex & H).
  apply (keeps_run _ _ _ _ _ _
           (keeps_lookup_extractOver W _ _ _ _ None D) H2) in Hex.
  apply bind_inr in H as (p & s4 & Hp & H).
  apply findDolphinExecutable_found in Hp as (-> & -> & _).
  apply bind_inr in H as ([] & s5 & Hlog & H).
  apply log_inr in Hlog. apply fs_chmod_ok in H. congruence.
Qed.

(** ** A backup left behind on the disk-image platform *)

Lemma is_prefix_root_backup W type :
  is_prefix (userData W ++ [typeName W type]) (backupLocation W type) = false.
Proof.
  unfold backupLocation. induction (userData W) as [|c U IH]; simpl.
  - rewrite neq_eqb_false; [reflexivity|].
    intros H. symmetry in H. now apply backup_not_root in H.
  - now rewrite String.eqb_refl.
Qed.

(** X7. Disk-image platform, no clean install: when an installation is in
    place and a [<root>_old] backup exists already, [installDolphin] fails
    with the error of the move, before extracting anything, and leaves the
    file system as it is. *)
Theorem installDolphin_darwin_stale_backup W type asset s :
  platform W = "darwin" ->
  exists_at ((userData W ++ [typeName W type])
               ++ ["Slippi Dolphin.app"; "Contents"; "Resources"]) (fs s) = true ->
  exists_at (backupLocation W type) (fs s) = true ->
  io_fault W (now s) (AMove (userData W ++ [typeName W type]) (backupLocation W type)) = None ->
  let r := installDolphin W type asset false s in
  fst r = inl "dest already exists." /\
  fs (snd r) = fs s /\
  trace (snd r) =
    trace s ++ [(fs s, AMove (userData W ++ [typeName W type]) (backupLocation W type))].
Proof.
  intros Hplat Hinst Hbk Hf. cbv zeta.
  assert (Hr : installDolphin W type asset false s =
    (inl "dest already exists.",
     mkState (fs s) (now s)
       (logs s ++ [pathStr W ((userData W ++ [typeName W type])
                               ++ ["Slippi Dolphin.app"; "Contents"; "Resources"])
                   +++ " already exists. Moving..."])
       (trace s ++ [(fs s, AMove (userData W ++ [typeName W type])
                             (backupLocation W type))]))).
  { unfold installDolphin. rewrite Hplat. cbn [String.eqb Ascii.eqb Bool.eqb].
    fold (backupLocation W type).
    rewrite (bind_run _ _ s tt s eq_refl). rewrite bind_pathExists, Hinst.
    unfold bind at 1 2. unfold log at 1. unfold fs_move at 1.
    rewrite fscall_run by exact Hf. cbn [fs now logs trace fst snd].
    unfold exists_at in Hinst.
    destruct (lookup ((userData W ++ [typeName W type])
                        ++ ["Slippi Dolphin.app"; "Contents"; "Resources"]) (fs s))
      as [m|] eqn:Hm; [|discriminate].
    destruct (lookup_prefix_some _ _ _ _ Hm) as [sub ->].
    rewrite is_prefix_root_backup, Hbk. reflexivity. }
  rewrite Hr. auto.
Qed.

(** ** What the installer and the downloader leave alone *)

Lemma keeps_lookup_move W src dst q v :
  diverge src q = true -> diverge dst q = true ->
  keeps (fun n => lookup q n = v) (fun _ _ => True) (fs_move W src dst).
Proof.
  intros Ds Dd. unfold fs_move. apply keeps_lookup_fscall. intros n.
  destruct (lookup src n) as [sub|]; [|reflexivity].
  destruct (is_prefix src dst); [reflexivity|].
  destruct (exists_at dst n); [reflexivity|].
  destruct (place dst sub (remove src n)) as [n'|] eqn:Hp; [|reflexivity].
  simpl. rewrite (lookup_place_diverge _ _ _ _ _ Dd Hp). now apply lookup_remove_diverge.
Qed.

Lemma keeps_lookup_findDolphinExecutable W type q v :
  keeps (fun n => lookup q n = v) (fun _ _ => True) (findDolphinExecutable W type).
Proof. unfold findDolphinExecutable. repeat keeps_step. Qed.

Lemma keeps_bind_findDolphinExecutable {B} W type Inv P (k : path -> M B) :
  keeps Inv P (k (executablePath W type)) ->
  keeps Inv P (bind (findDolphinExecutable W type) k).
Proof.
  intros Hk s Hs. unfold findDolphinExecutable. unfold bind, read, ret, throw.
  destruct (exists_at (executablePath W type) (fs s)); cbn [fst snd]; [now apply Hk|].
  split; [exact Hs|]. exists []. now rewrite app_nil_r.
Qed.

(** X8. Whatever the platform and however the run ends, [installDolphin]
    changes nothing outside the target root of the kind, its [<root>_old]
    backup, the executable's place and, for a clean install, the
    user-configuration folder: what lies apart from these, the cached
    artifact included, is as before. *)
Theorem installDolphin_frame W type asset clean s q :
  diverge (userData W ++ [typeName W type]) q = true ->
  diverge (backupLocation W type) q = true ->
  diverge (executablePath W type) q = true ->
  (clean = true -> diverge (configFolder W type) q = true) ->
  lookup q (fs (snd (installDolphin W type asset clean s))) = lookup q (fs s).
Proof.
  intros Dr Db De Dc.
  assert (K : keeps (fun n => lookup q n = lookup q (fs s)) (fun _ _ => True)
                (installDolphin W type asset clean)).
  { unfold installDolphin. fold (backupLocation W type). fold (configFolder W type).
    apply keeps_bind.
    { destruct clean; [now apply keeps_lookup_remove | apply keeps_ret]. }
    intros _. destruct (String.eqb (platform W) "win32").
    { apply keeps_bind; [apply keeps_log | intros _].
      now apply keeps_lookup_extractOver. }
    destruct (String.eqb (platform W) "darwin").
    { apply keeps_bind; [apply keeps_read | intros installed].
      apply keeps_bind.
      { destruct installed; [|apply keeps_ret].
        apply keeps_bind; [apply keeps_log | intros _]. now apply keeps_lookup_move. }
      intros _. apply keeps_bind; [apply keeps_log | intros _].
      apply keeps_bind; [now apply keeps_lookup_extractOver | intros _].
      keeps_async W (userData W ++ [typeName W type]);
        try (intros; exact I);
        try (intros file _; (apply keeps_lookup_unlink || apply keeps_lookup_remove);
             now apply diverge_app_l);
        try apply keeps_userInfo; try apply keeps_lookup_chmod;
        try apply keeps_lookup_chown; try apply keeps_log; try apply keeps_read;
        try (now apply keeps_lookup_remove).
      apply keeps_lookup_move; [now apply diverge_app_l | now do 2 apply diverge_app_l]. }
    destruct (String.eqb (platform W) "linux"); [|apply keeps_throw].
    apply keeps_bind.
    { apply keeps_try_catch; [|intros _; apply keeps_log].
      apply keeps_bind_findDolphinExecutable.
      apply keeps_bind; [apply keeps_read | intros present].
      destruct present; [|apply keeps_ret].
      apply keeps_bind; [apply keeps_log | intros _]. now apply keeps_lookup_remove. }
    intros _. apply keeps_bind.
    { destruct clean; [apply keeps_lookup_remove; now apply Dc | apply keeps_ret]. }
    intros _. apply keeps_bind; [now apply keeps_lookup_extractOver | intros _].
    apply keeps_bind_findDolphinExecutable.
    apply keeps_bind; [apply keeps_log | intros _]. apply keeps_lookup_chmod. }
  exact (keeps_run _ _ _ s _ _ K eq_refl (surjective_pairing _)).
Qed.

Lemma keeps_only_fs_installDolphin W type asset clean :
  keeps (fun _ => True) (fun _ a => is_fs_call a = true)
    (installDolphin W type asset clean).
Proof.
  unfold installDolphin.
  repeat (keeps_step || keeps_unfold || cbv zeta
          || (keeps_async W (userData W ++ [typeName W type]);
              [intros ? _; reflexivity | intros ? _ | intros ? _ | ..]));
    try (split; [reflexivity | exact I]).
Qed.

(** X9. [installDolphin] works on the file system only: every call it issues
    is a file-system call; it never queries the release provider, downloads,
    spawns a process or emits the terminal event. *)
Theorem installDolphin_only_fs_calls W type asset clean s :
  exists d,
    trace (snd (installDolphin W type asset clean s)) = trace s ++ d /\
    Forall (fun x => is_fs_call (snd x) = true) d.
Proof.
  destruct (keeps_only_fs_installDolphin W type asset clean s I) as [_ H]. exact H.
Qed.

(** ** The downloader *)

Lemma forEach_progress_run (f : string -> string) (l : list string) s :
  forEach l (fun p => emit (AProgress p) ;; log (f p)) s =
    (inr tt,
     mkState (fs s) (now s) (logs s ++ map f l)
       (trace s ++ map (fun p => (fs s, AProgress p)) l)).
Proof.
  revert s; induction l as [|p l IH]; intros s; simpl.
  - rewrite !app_nil_r. now destruct s.
  - unfold bind at 1 2. unfold emit at 1, log at 1. cbn [fs now logs trace].
    rewrite IH. cbn [fs now logs trace]. now rewrite <- !app_assoc.
Qed.

Lemma mkdirp_not_file p q n n' :
  mkdirp p n = Some n' -> is_file_at q n = false -> is_file_at q n' = false.
Proof.
  unfold mkdirp, is_file_at. intros H Hq.
  destruct (lookup p n) as [[d|es]|] eqn:Hp; [discriminate | now inversion H; subst |].
  destruct (path_cases p q) as [D|[[r ->]|[r ->]]].
  - now rewrite (lookup_place_diverge _ _ _ _ _ D H).
  - rewrite lookup_app, (lookup_place_at _ _ _ _ H). now destruct r.
  - pose proof (lookup_place_at _ _ _ _ H) as Hn. rewrite lookup_app in Hn.
    destruct (lookup q n') as [[d|es]|]; try reflexivity.
    destruct r; [|discriminate]. rewrite app_nil_r in Hp. simpl in Hn. discriminate.
Qed.

Section Download.

Variable W : World.
Variable type : DolphinLaunchType.
Variable s : State.
Variable rel : Release.
Variable asset : Asset.

Hypothesis query : latestRelease W (now s) "project-slippi" (repoOf type) = inr rel.
Hypothesis selected : find (fun a => matchesPlatform W (name a)) (assets rel) = Some asset.
Hypothesis ensure : io_fault W (S (now s)) (AEnsureDir (cacheDir W)) = None.

Let location : path := cacheDir W ++ [name asset].

(** X10. [downloadLatestDolphin] without a focused window: when the file is
    not in the cache and no window has the focus, the call still succeeds
    and returns the path of the artifact, but it has transferred nothing: no
    file stands at the path it returns. *)
Theorem downloadLatestDolphin_without_window n1 :
  mkdirp (cacheDir W) (fs s) = Some n1 ->
  is_file_at location (fs s) = false ->
  focusedWindow W (S (now s)) = false ->
  let r := downloadLatestDolphin W type s in
  fst r = inr location /\
  fs (snd r) = n1 /\
  is_file_at location (fs (snd r)) = false /\
  map snd (trace (snd r)) =
    map snd (trace s) ++ [AGetLatestRelease "project-slippi" (repoOf type);
                          AEnsureDir (cacheDir W)].
Proof.
  intros Hmk Hfile Hwin. cbv zeta.
  assert (Hfile1 : is_file_at location n1 = false) by (eapply mkdirp_not_file; eauto).
  assert (Hr : downloadLatestDolphin W type s =
    (inr location,
     mkState n1 (S (S (now s)))
       ((logs s ++ ["Downloading " +++ browser_download_url asset +++ " to "
                    +++ pathStr W location])
          ++ ["I dunno how we got here, but apparently there isn't a browser window /shrug"])
       ((trace s ++ [(fs s, AGetLatestRelease "project-slippi" (repoOf type))])
          ++ [(fs s, AEnsureDir (cacheDir W))]))).
  { unfold downloadLatestDolphin. fold (cacheDir W).
    rewrite (bind_run _ _ _ _ _ (getLatestDolphinAsset_ok _ _ _ _ _ query selected)).
    fold location.
    unfold fs_ensureDir. unfold bind at 1.
    rewrite fscall_run by exact ensure. cbn [fs now logs trace fst snd].
    rewrite Hmk. cbn [fst snd].
    unfold fileExists. rewrite bind_read. cbn [fs]. rewrite Hfile1. cbn [negb].
    unfold getFocusedWindow. unfold bind, log, tick, ret. cbn [fs now logs trace].
    rewrite Hwin. reflexivity. }
  rewrite Hr. cbn [fst snd fs trace].
  repeat split; [exact Hfile1|]. now rewrite <- app_assoc, map_app.
Qed.

(** X11. [downloadLatestDolphin] with a focused window: when the file is not
    in the cache, a window has the focus and the transfer delivers, the call
    returns the path [cacheDir/asset.name], the file at that path holds
    exactly what was delivered, and the progress reports were logged in the
    order they came, before the line that reports success. *)
Theorem downloadLatestDolphin_stores_transfer n1 n2 progress data :
  mkdirp (cacheDir W) (fs s) = Some n1 ->
  is_file_at location (fs s) = false ->
  focusedWindow W (S (now s)) = true ->
  downloadOutcome W (S (S (now s))) (browser_download_url asset) = (progress, inr data) ->
  writeEntry (cacheDir W) ([name asset], Some data) n1 = Some n2 ->
  let r := downloadLatestDolphin W type s in
  fst r = inr location /\
  lookup location (fs (snd r)) = Some (File data) /\
  map snd (trace (snd r)) =
    map snd (trace s)
      ++ [AGetLatestRelease "project-slippi" (repoOf type);
          AEnsureDir (cacheDir W);
          ADownload (browser_download_url asset) (cacheDir W) (name asset)]
      ++ map AProgress progress /\
  logs (snd r) =
    logs s
      ++ ["Downloading " +++ browser_download_url asset +++ " to " +++ pathStr W location]
      ++ map (fun percent => "Downloading... " +++ percent +++ "%") progress
      ++ ["Successfully downloaded " +++ browser_download_url asset +++ " to "
          +++ pathStr W location].
Proof.
  intros Hmk Hfile Hwin Hout Hw. cbv zeta.
  assert (Hfile1 : is_file_at location n1 = false) by (eapply mkdirp_not_file; eauto).
  assert (Hr : exists s', downloadLatestDolphin W type s = (inr location, s') /\
    fs s' = n2 /\
    trace s' = (((trace s ++ [(fs s, AGetLatestRelease "project-slippi" (repoOf type))])
                   ++ [(fs s, AEnsureDir (cacheDir W))])
                  ++ [(n1, ADownload (browser_download_url asset) (cacheDir W) (name asset))])
                 ++ map (fun p => (n1, AProgress p)) progress /\
    logs s' = (((logs s ++ ["Downloading " +++ browser_download_url asset +++ " to "
                            +++ pathStr W location])
                  ++ map (fun percent => "Downloading... " +++ percent +++ "%") progress)
                 ++ ["Successfully downloaded " +++ browser_download_url asset +++ " to "
                     +++ pathStr W location])).
  { unfold downloadLatestDolphin. fold (cacheDir W).
    rewrite (bind_run _ _ _ _ _ (getLatestDolphinAsset_ok _ _ _ _ _ query selected)).
    fold location.
    unfold fs_ensureDir. unfold bind at 1.
    rewrite fscall_run by exact ensure. cbn [fs now logs trace fst snd].
    rewrite Hmk. cbn [fst snd].
    unfold fileExists. rewrite bind_read. cbn [fs]. rewrite Hfile1. cbn [negb].
    unfold getFocusedWindow, download.
    unfold bind at 1 2 3 4. unfold log at 1. unfold tick at 1. unfold ret at 1.
    cbn [fs now logs trace]. rewrite Hwin.
    unfold bind at 1 2 3. unfold tick at 1. unfold emit at 1.
    cbn [fs now logs trace]. rewrite Hout.
    unfold bind at 1. rewrite forEach_progress_run. cbn [fs now logs trace].
    rewrite Hw. unfold bind, log, ret, set_fs. cbn [fs now logs trace].
    eexists. split; [reflexivity|]. cbn [fs now logs trace]. auto. }
  destruct Hr as (s' & -> & Hfs & Htr & Hlg). cbn [fst snd].
  split; [reflexivity|]. split.
  - rewrite Hfs. unfold writeEntry in Hw. cbn [fst snd] in Hw. fold location in Hw.
    destruct (lookup location n1) as [[d|es]|]; try discriminate;
      exact (lookup_place_at _ _ _ _ Hw).
  - split.
    + rewrite Htr, !map_app, !map_map. cbn [map snd].
      rewrite <- !app_assoc. reflexivity.
    + rewrite Hlg, <- !app_assoc. reflexivity.
Qed.

End Download.

Lemma keeps_getLatestDolphinAsset W type Inv P :
  (forall n owner repo, Inv n -> P n (AGetLatestRelease owner repo)) ->
  keeps Inv P (getLatestDolphinAsset W type).
Proof.
  intros HP. unfold getLatestDolphinAsset, getLatestReleaseData, getLatestRelease.
  repeat keeps_step; now apply HP.
Qed.

Lemma keeps_lookup_download W url dir filename (onProgress : string -> M unit) q v :
  diverge dir q = true ->
  (forall p, keeps (fun n => lookup q n = v) (fun _ _ => True) (onProgress p)) ->
  keeps (fun n => lookup q n = v) (fun _ _ => True) (download W url dir filename onProgress).
Proof.
  intros D Hp. unfold download.
  apply keeps_bind; [apply keeps_tick | intros t].
  apply keeps_bind; [now apply keeps_emit | intros _].
  destruct (downloadOutcome W t url) as [progress [e|data]].
  - apply keeps_bind; [|intros _; apply keeps_throw].
    apply keeps_forEach. intros p.
    apply keeps_bind; [now apply keeps_emit | intros _; apply Hp].
  - apply keeps_bind.
    + apply keeps_forEach. intros p.
      apply keeps_bind; [now apply keeps_emit | intros _; apply Hp].
    + intros _ st Hst.
      destruct (writeEntry dir ([filename], Some data) (fs st)) as [n|] eqn:Hw; simpl.
      * split; [|exists []; now rewrite app_nil_r].
        now rewrite (lookup_writeEntry_diverge _ _ _ _ _ D Hw).
      * split; [exact Hst | exists []; now rewrite app_nil_r].
Qed.

(** X12. However it ends, [downloadLatestDolphin] changes nothing outside
    the download directory: what lies apart from it is as before. *)
Theorem downloadLatestDolphin_frame W type s q :
  diverge (cacheDir W) q = true ->
  lookup q (fs (snd (downloadLatestDolphin W type s))) = lookup q (fs s).
Proof.
  intros D.
  assert (K : keeps (fun n => lookup q n = lookup q (fs s)) (fun _ _ => True)
                (downloadLatestDolphin W type)).
  { unfold downloadLatestDolphin. fold (cacheDir W).
    apply keeps_bind; [now apply keeps_getLatestDolphinAsset | intros asset].
    apply keeps_bind.
    { unfold fs_ensureDir. apply keeps_lookup_fscall. intros n.
      destruct (mkdirp (cacheDir W) n) as [n'|] eqn:Hm; [|reflexivity].
      exact (lookup_mkdirp_diverge _ _ _ _ D Hm). }
    intros _. apply keeps_bind; [apply keeps_read | intros present].
    apply keeps_bind; [|intros _; apply keeps_ret].
    destruct (negb present); [|apply keeps_log].
    apply keeps_bind; [apply keeps_log | intros _].
    apply keeps_bind; [unfold getFocusedWindow; repeat keeps_step | intros win].
    destruct win; [|apply keeps_log].
    apply keeps_bind; [|intros _; apply keeps_log].
    apply keeps_lookup_download; [exact D | intros p; apply keeps_log]. }
  exact (keeps_run _ _ _ s _ _ K eq_refl (surjective_pairing _)).
Qed.

(** ** Asset selection: the failures *)

Lemma unsupported_matches_nothing W n : unsupported W -> matchesPlatform W n = false.
Proof.
  intros (Hw & Hd & Hl). unfold matchesPlatform.
  now rewrite (neq_eqb_false _ _ Hw), (neq_eqb_false _ _ Hd), (neq_eqb_false _ _ Hl).
Qed.

(** X13. [getLatestDolphinAsset] queries the provider first, whatever the
    platform. A failure of the provider is its failure; on an unsupported
    platform it fails with the error naming the platform, whatever assets
    the release lists. *)
Theorem getLatestDolphinAsset_failures W type s :
  let queried :=
    mkState (fs s) (S (now s)) (logs s)
      (trace s ++ [(fs s, AGetLatestRelease "project-slippi" (repoOf type))]) in
  (forall e, latestRelease W (now s) "project-slippi" (repoOf type) = inl e ->
     getLatestDolphinAsset W type s = (inl e, queried)) /\
  (forall rel, unsupported W ->
     latestRelease W (now s) "project-slippi" (repoOf type) = inr rel ->
     getLatestDolphinAsset W type s = (inl (noMatchingAsset W), queried)).
Proof.
  cbv zeta. unfold getLatestDolphinAsset, getLatestReleaseData, getLatestRelease.
  split.
  - intros e Hq. step_run. destruct type; unfold repoOf in Hq;
      try change ("Ishiiruka" +++ "-Playback") with "Ishiiruka-Playback";
      rewrite Hq; reflexivity.
  - intros rel Hu Hq. step_run. destruct type; unfold repoOf in Hq;
      try change ("Ishiiruka" +++ "-Playback") with "Ishiiruka-Playback";
      rewrite Hq; step_run;
      (rewrite find_absent; [reflexivity|]); intros b _;
      now apply unsupported_matches_nothing.
Qed.

(** ** A provider without an asset for the platform *)

Lemma always_fails_bind {A B} (m : M A) (k : A -> M B) Inv P :
  (forall s, exists e, fst (m s) = inl e) -> keeps Inv P m -> keeps Inv P (bind m k).
Proof.
  intros Hf K s Hs. unfold bind. destruct (Hf s) as [e He]. specialize (K s Hs).
  destruct (m s) as [[e'|a] s1]; simpl in *; [exact K | discriminate].
Qed.

Lemma getLatestDolphinAsset_never W type :
  never_offers W -> forall s, exists e, fst (getLatestDolphinAsset W type s) = inl e.
Proof.
  intros Hn s. unfold getLatestDolphinAsset, getLatestReleaseData, getLatestRelease.
  step_run.
  match goal with |- context [latestRelease W ?t ?o ?r] =>
    specialize (Hn t o r); destruct (latestRelease W t o r) as [e|rel] end.
  - now exists e.
  - step_run. rewrite Hn. eexists. reflexivity.
Qed.

Section NeverOffers.

Variable W : World.
Hypothesis none : never_offers W.
Variable n0 : node.

Let untouched {A} (m : M A) : Prop :=
  keeps (fun n => n = n0) (fun _ a => is_inquiry a = true) m.

Lemma untouched_downloadAndInstallDolphin type clean :
  untouched (downloadAndInstallDolphin W type clean).
Proof.
  unfold untouched, downloadAndInstallDolphin, downloadLatestDolphin.
  apply always_fails_bind.
  - intros s. unfold bind. destruct (getLatestDolphinAsset_never W type none s) as [e He].
    destruct (getLatestDolphinAsset W type s) as [[e'|a] s1]; simpl in *;
      [now exists e' | discriminate].
  - apply always_fails_bind; [now apply getLatestDolphinAsset_never|].
    now apply keeps_getLatestDolphinAsset.
Qed.

Lemma untouched_assertDolphinInstallation type :
  untouched (assertDolphinInstallation W type).
Proof.
  unfold untouched, assertDolphinInstallation.
  apply keeps_try_catch.
  - apply keeps_bind; [unfold findDolphinExecutable; repeat keeps_step | intros _].
    apply keeps_bind; [apply keeps_log | intros _].
    apply keeps_bind; [apply keeps_log | intros _].
    apply keeps_bind.
    { unfold getLatestReleaseData, getLatestRelease. repeat keeps_step. reflexivity. }
    intros data. apply keeps_bind.
    { unfold compareDolphinVersion, findDolphinExecutable, spawnSyncStdout.
      repeat keeps_step. reflexivity. }
    intros outdated. destruct outdated; [|apply keeps_log].
    apply keeps_bind; [apply keeps_log | intros _].
    apply untouched_downloadAndInstallDolphin.
  - intros e. apply keeps_bind; [apply keeps_log | intros _].
    apply untouched_downloadAndInstallDolphin.
Qed.

End NeverOffers.

(** X14. When the provider never offers an asset of the running platform
    (in particular on an unsupported platform), a whole run of
    [assertDolphinInstallations] leaves the file system as it is: it issues
    no file-system call and no download, only release queries, version
    queries and the terminal event. *)
Theorem assertDolphinInstallations_without_asset W s :
  never_offers W ->
  let r := assertDolphinInstallations W s in
  fs (snd r) = fs s /\
  exists d, trace (snd r) = trace s ++ d /\ Forall (fun x => is_inquiry (snd x) = true) d.
Proof.
  intros Hn. cbv zeta.
  assert (K : keeps (fun n => n = fs s) (fun _ a => is_inquiry a = true)
                (assertDolphinInstallations W)).
  { unfold assertDolphinInstallations, triggerFinished.
    apply keeps_try_catch.
    - apply keeps_bind; [now apply untouched_assertDolphinInstallation | intros _].
      apply keeps_bind; [now apply untouched_assertDolphinInstallation | intros _].
      now apply keeps_emit.
    - intros e. now apply keeps_emit. }
  exact (K s eq_refl).
Qed.

(** ** The update decision: the installed kind *)

Section Installed.

Variable W : World.
Variable type : DolphinLaunchType.
Variable s : State.
Variable rel : Release.
Variable out : string.

Hypothesis found : exists_at (executablePath W type) (fs s) = true.
Hypothesis query : latestRelease W (now s) "project-slippi" (repoOf type) = inr rel.
Hypothesis version :
  spawnStdout W (S (now s)) (executablePath W type) ["--version"] = Some out.

Lemma assertDolphinInstallation_compared (k : bool -> M unit) (h : string -> M unit) b :
  SemVer.lt out (tag_name rel) = Some b ->
  try_catch
    (findDolphinExecutable W type ;;
     log ("Found existing " +++ typeName W type +++ " Dolphin executable.") ;;
     log ("Checking if we need to update " +++ typeName W type +++ " Dolphin") ;;
     data <- getLatestReleaseData W type ;;
     isOutdated <- compareDolphinVersion W type (tag_name data) ;;
     k isOutdated) h s =
  try_catch (k b) h (afterSpawn W type s).
Proof.
  intros Hlt. unfold afterSpawn, afterQuery.
  unfold compareDolphinVersion, findDolphinExecutable, getLatestReleaseData,
    getLatestRelease, spawnSyncStdout, try_catch.
  step_run. rewrite found. step_run.
  destruct type; step_run; unfold repoOf in query;
    try change ("Ishiiruka" +++ "-Playback") with "Ishiiruka-Playback";
    rewrite query; step_run; rewrite found; step_run; rewrite version; step_run;
    rewrite Hlt; reflexivity.
Qed.

(** X15. An installation that is up to date is left alone: when the
    executable is found, the provider answers, and the version the executable
    reports is not below the release tag, [assertDolphinInstallation]
    succeeds having only queried the provider and the executable; the file
    system is as before and nothing was downloaded or installed. *)
Theorem assertDolphinInstallation_up_to_date :
  SemVer.lt out (tag_name rel) = Some false ->
  let r := assertDolphinInstallation W type s in
  fst r = inr tt /\
  fs (snd r) = fs s /\
  map snd (trace (snd r)) =
    map snd (trace s) ++ [AGetLatestRelease "project-slippi" (repoOf type);
                          ASpawnSync (executablePath W type) ["--version"]] /\
  last (logs (snd r)) "" = "No update found...".
Proof.
  intros Hlt. cbv zeta. unfold assertDolphinInstallation.
  rewrite (assertDolphinInstallation_compared _ _ false Hlt).
  unfold try_catch, afterSpawn, afterQuery. step_run.
  split; [reflexivity|]. split; [reflexivity|]. split.
  - rewrite <- !app_assoc, map_app. reflexivity.
  - now rewrite last_last.
Qed.

(** X16. An update that fails is tried a second time: when the installed
    version is below the release tag, [assertDolphinInstallation] downloads
    and installs; if that attempt fails, its error is caught by the handler,
    which downloads and installs once more from the state the failed attempt
    left, and the result of the kind is the result of the second attempt. *)
Theorem assertDolphinInstallation_outdated :
  SemVer.lt out (tag_name rel) = Some true ->
  let attempt :=
    downloadAndInstallDolphin W type false
      (snd (log (typeName W type +++ " Dolphin installation is outdated. Downloading latest...")
              (afterSpawn W type s))) in
  assertDolphinInstallation W type s =
    match fst attempt with
    | inr _ => attempt
    | inl _ => reinstall W type (snd attempt)
    end.
Proof.
  intros Hlt. cbv zeta. unfold assertDolphinInstallation.
  rewrite (assertDolphinInstallation_compared _ _ true Hlt).
  unfold try_catch, reinstall. unfold bind at 1. unfold log at 1. cbn [snd].
  destruct (downloadAndInstallDolphin W type false _) as [[e|[]] s1]; reflexivity.
Qed.

End Installed.

(** ** Which repository is asked *)

Section Routing.

Variable W : World.
Variable type : DolphinLaunchType.

Let routed {A} (m : M A) : Prop :=
  keeps (fun _ => True) (fun _ a => queries_repo_of type a) m.

Lemma fs_call_routed a : is_fs_call a = true -> queries_repo_of type a.
Proof. intros H owner repo E. subst a. discriminate. Qed.

Lemma routed_installDolphin asset clean : routed (installDolphin W type asset clean).
Proof.
  refine (keeps_weaken _ _ _ _ _ (keeps_only_fs_installDolphin W type asset clean)).
  intros n a. apply fs_call_routed.
Qed.

Lemma routed_getLatestReleaseData : routed (getLatestReleaseData W type).
Proof.
  unfold routed, getLatestReleaseData, getLatestRelease. cbv zeta.
  repeat keeps_step.
  intros owner repo E. inversion E. split; [reflexivity|]. now destruct type.
Qed.

Lemma routed_downloadLatestDolphin : routed (downloadLatestDolphin W type).
Proof.
  unfold routed, downloadLatestDolphin, getLatestDolphinAsset.
  apply keeps_bind.
  { apply keeps_bind; [apply routed_getLatestReleaseData | intros rel].
    repeat keeps_step. }
  intros asset. cbv zeta.
  apply keeps_bind.
  { unfold fs_ensureDir. keeps_step. split; [now apply fs_call_routed | exact I]. }
  intros _. apply keeps_bind; [unfold fileExists; keeps_step | intros present].
  apply keeps_bind; [|intros _; apply keeps_ret].
  destruct (negb present); [|apply keeps_log].
  apply keeps_bind; [apply keeps_log | intros _].
  apply keeps_bind; [unfold getFocusedWindow; repeat keeps_step | intros win].
  destruct win; [|apply keeps_log].
  apply keeps_bind; [|intros _; apply keeps_log].
  unfold download.
  apply keeps_bind; [apply keeps_tick | intros t].
  apply keeps_bind; [apply keeps_emit; intros _ _ owner repo E; discriminate | intros _].
  destruct (downloadOutcome W t _) as [progress [e|data]].
  - apply keeps_bind; [|intros _; apply keeps_throw].
    apply keeps_forEach. intros p.
    apply keeps_bind; [apply keeps_emit; intros _ _ owner repo E; discriminate
                      | intros _; apply keeps_log].
  - apply keeps_bind.
    + apply keeps_forEach. intros p.
      apply keeps_bind; [apply keeps_emit; intros _ _ owner repo E; discriminate
                        | intros _; apply keeps_log].
    + intros _ st _. destruct (writeEntry _ _ (fs st)); simpl;
        (split; [exact I|]; exists []; now rewrite app_nil_r).
Qed.

Lemma routed_downloadAndInstallDolphin clean :
  routed (downloadAndInstallDolphin W type clean).
Proof.
  unfold routed, downloadAndInstallDolphin.
  apply keeps_bind; [apply routed_downloadLatestDolphin | intros asset].
  apply keeps_bind; [apply keeps_log | intros _].
  apply keeps_bind; [apply routed_installDolphin | intros _; apply keeps_log].
Qed.

(** X17. Whatever path [assertDolphinInstallation] takes for a kind, every
    release query it issues, its own and those of the downloads it starts,
    goes to the repository of that kind of the owner "project-slippi". *)
Theorem assertDolphinInstallation_queries_own_repository s :
  exists d,
    trace (snd (assertDolphinInstallation W type s)) = trace s ++ d /\
    Forall (fun x => queries_repo_of type (snd x)) d.
Proof.
  assert (K : routed (assertDolphinInstallation W type)).
  { unfold routed, assertDolphinInstallation.
    apply keeps_try_catch.
    - apply keeps_bind; [unfold findDolphinExecutable; repeat keeps_step | intros exe].
      apply keeps_bind; [apply keeps_log | intros _].
      apply keeps_bind; [apply keeps_log | intros _].
      apply keeps_bind; [apply routed_getLatestReleaseData | intros data].
      apply keeps_bind.
      { unfold compareDolphinVersion, findDolphinExecutable, spawnSyncStdout.
        repeat keeps_step; intros owner repo E; discriminate. }
      intros outdated. destruct outdated; [|apply keeps_log].
      apply keeps_bind; [apply keeps_log | intros _].
      apply routed_downloadAndInstallDolphin.
    - intros e. apply keeps_bind; [apply keeps_log | intros _].
      apply routed_downloadAndInstallDolphin. }
  destruct (K s I) as [_ H]. exact H.
Qed.

End Routing.

(** ** The suffixes of the platforms exclude one another *)

Lemma ends_with_both s t t' :
  ends_with s t -> ends_with s t' -> String.length t <= String.length t' ->
  ends_with t' t.
Proof.
  intros [u Hu] [u' Hu']. subst s. revert u Hu'.
  induction u' as [|c u' IH]; intros u E Hl.
  - exists u. simpl in E. now symmetry.
  - destruct u as [|c0 u]; simpl in E.
    + exfalso. subst t. simpl in Hl.
      assert (L : forall a b, String.length (a +++ b) = String.length a + String.length b).
      { intros a b. induction a; simpl; [reflexivity | now f_equal]. }
      rewrite L in Hl. lia.
    + injection E as _ E. exact (IH u E Hl).
Qed.

Lemma endsWith_exclusive s t t' :
  String.length t <= String.length t' -> endsWith t' t = false ->
  endsWith s t = true -> endsWith s t' = false.
Proof.
  intros Hl Hn H. destruct (endsWith s t') eqn:H'; [|reflexivity].
  apply endsWith_spec in H, H'.
  pose proof (ends_with_both _ _ _ H H' Hl) as C.
  apply endsWith_spec in C. congruence.
Qed.

(** X18. No asset name matches two platforms: a name [matchesPlatform]
    accepts on one platform is refused on every other platform. *)
Theorem matchesPlatform_exclusive (W1 W2 : World) (releaseName : string) :
  platform W1 <> platform W2 ->
  matchesPlatform W1 releaseName = true ->
  matchesPlatform W2 releaseName = false.
Proof.
  intros Hne. unfold matchesPlatform.
  destruct (String.eqb_spec (platform W1) "win32") as [E1|_];
    [|destruct (String.eqb_spec (platform W1) "darwin") as [E1|_];
      [|destruct (String.eqb_spec (platform W1) "linux") as [E1|_]; [|discriminate]]];
    (destruct (String.eqb_spec (platform W2) "win32") as [E2|_];
     [|destruct (String.eqb_spec (platform W2) "darwin") as [E2|_];
       [|destruct (String.eqb_spec (platform W2) "linux") as [E2|_]; [|reflexivity]]]);
    try (exfalso; apply Hne; congruence); intros H.
  - apply (endsWith_exclusive _ "Win.zip" "Mac.dmg"); [simpl; lia | reflexivity | exact H].
  - apply (endsWith_exclusive _ "Win.zip" "Linux.zip"); [simpl; lia | reflexivity | exact H].
  - apply (endsWith_exclusive _ "Mac.dmg" "Win.zip"); [simpl; lia | reflexivity | exact H].
  - apply (endsWith_exclusive _ "Mac.dmg" "Linux.zip"); [simpl; lia | reflexivity | exact H].
  - destruct (endsWith releaseName "Win.zip") eqn:H'; [|reflexivity].
    pose proof (endsWith_exclusive _ "Win.zip" "Linux.zip" ltac:(simpl; lia) eq_refl H').
    congruence.
  - destruct (endsWith releaseName "Mac.dmg") eqn:H'; [|reflexivity].
    pose proof (endsWith_exclusive _ "Mac.dmg" "Linux.zip" ltac:(simpl; lia) eq_refl H').
    congruence.
Qed.

(** ** Instances on the sample worlds *)

Lemma installDolphin_darwin_never_loses_user_data_witness :
  let s' := snd (installDolphin Sample.darwin NETPLAY ["data"; "temp"; "missing.dmg"] false
                   (Sample.start Sample.darwinDisk)) in
  lookup (newUserFolder Sample.darwin NETPLAY) (fs s') = Some Sample.userFolder \/
  lookup (oldUserFolder Sample.darwin NETPLAY) (fs s') = Some Sample.userFolder.
Proof.
  refine (installDolphin_darwin_never_loses_user_data Sample.darwin NETPLAY
            Sample.userFolder ["data"; "temp"; "missing.dmg"]
            (Sample.start Sample.darwinDisk) _ _); vm_compute; reflexivity.
Defined.

Lemma installDolphin_win32_keeps_other_files_witness :
  lookup ["data"; "netplay"; "User"; "Dolphin.ini"]
    (fs (snd (installDolphin Sample.win32 NETPLAY ["data"; "temp"; "FM-Slippi-2.10.0-Win.zip"]
                false (Sample.start Disks.win32Disk)))) = Some (File "my settings").
Proof.
  refine (installDolphin_win32_keeps_other_files Sample.win32 NETPLAY
            ["data"; "temp"; "FM-Slippi-2.10.0-Win.zip"] (Sample.start Disks.win32Disk)
            ["data"; "netplay"; "User"; "Dolphin.ini"] "my settings" _ _ _).
  - vm_compute; reflexivity.
  - vm_compute; reflexivity.
  - intros (data & es & e & d & H1 & H2 & H3 & H4 & H5).
    vm_compute in H1. injection H1 as <-.
    vm_compute in H2. injection H2 as <-.
    destruct H3 as [<-|[<-|[]]]; discriminate.
Defined.

Lemma cleanup_leaves_only_bundle_witness :
  (forall picks queue, Forall (job_on ["data"; "netplay"]) queue ->
     forall r,
       lookup (["data"; "netplay"] ++ "Slippi Dolphin.app" :: r)
         (fs (snd (turn Sample.darwin picks queue (Sample.start Disks.extractedImage)))) =
       lookup (["data"; "netplay"] ++ "Slippi Dolphin.app" :: r)
         (fs (Sample.start Disks.extractedImage))) /\
  (forall file, file <> "Slippi Dolphin.app" ->
     lookup (["data"; "netplay"] ++ [file])
       (fs (snd (turn Sample.darwin
                   (repeat 0 (S (length ["Slippi Dolphin.app"; ".background"; "Applications"])))
                   [JListed ["data"; "netplay"]
                      (inr ["Slippi Dolphin.app"; ".background"; "Applications"])]
                   (Sample.start Disks.extractedImage)))) = None).
Proof.
  split.
  - exact (proj1 (cleanup_leaves_only_bundle Sample.darwin ["data"; "netplay"]
                    (Sample.start Disks.extractedImage)
                    ["Slippi Dolphin.app"; ".background"; "Applications"])).
  - refine (proj2 (cleanup_leaves_only_bundle Sample.darwin ["data"; "netplay"]
                     (Sample.start Disks.extractedImage)
                     ["Slippi Dolphin.app"; ".background"; "Applications"]) _ _).
    + intros a. reflexivity.
    + vm_compute. reflexivity.
Defined.

Lemma installDolphin_linux_then_open_witness :
  let s' := snd (installDolphin Sample.linux NETPLAY
                   ["data"; "temp"; "FM-Slippi-2.10.0-Linux.zip"] false
                   (Sample.start Sample.linuxDisk)) in
  exists_at (Sample.linuxExe NETPLAY) (fs s') = true /\
  forall params,
    openDolphin Sample.linux NETPLAY params s' =
      (inr (mkChild (Sample.linuxExe NETPLAY)
              (match params with Some l => l | None => [] end)), s').
Proof.
  refine (installDolphin_linux_then_open Sample.linux NETPLAY
            ["data"; "temp"; "FM-Slippi-2.10.0-Linux.zip"] false
            (Sample.start Sample.linuxDisk) _ _ _); vm_compute; reflexivity.
Defined.

Lemma installDolphin_linux_deletes_executable_first_witness :
  exists d,
    trace (snd (installDolphin Sample.linux NETPLAY
                  ["data"; "temp"; "FM-Slippi-2.10.0-Linux.zip"] false
                  (Sample.start Sample.linuxDisk))) = [] ++ d /\
    forall pre a, In (pre, a) d -> is_extract a = true ->
      is_file_at (Sample.linuxExe NETPLAY) pre = false.
Proof.
  refine (installDolphin_linux_deletes_executable_first Sample.linux NETPLAY
            ["data"; "temp"; "FM-Slippi-2.10.0-Linux.zip"] false
            (Sample.start Sample.linuxDisk) _ _).
  - vm_compute; reflexivity.
  - intros t. reflexivity.
Defined.

Lemma installDolphin_linux_clean_removes_config_witness :
  lookup ["home"; ".config"; "SlippiOnline"]
    (fs (snd (installDolphin Sample.linux NETPLAY
                ["data"; "temp"; "FM-Slippi-2.10.0-Linux.zip"] true
                (Sample.start Sample.linuxDisk)))) = None.
Proof.
  refine (installDolphin_linux_clean_removes_config Sample.linux NETPLAY
            ["data"; "temp"; "FM-Slippi-2.10.0-Linux.zip"]
            (Sample.start Sample.linuxDisk) _ _ _ _); vm_compute; reflexivity.
Defined.

Lemma installDolphin_darwin_stale_backup_witness :
  let r := installDolphin Sample.darwin NETPLAY ["data"; "temp"; "FM-Slippi-2.10.0-Mac.dmg"]
             false (Sample.start Disks.staleBackupDisk) in
  fst r = inl "dest already exists." /\
  fs (snd r) = Disks.staleBackupDisk /\
  trace (snd r) =
    [] ++ [(Disks.staleBackupDisk, AMove ["data"; "netplay"] ["data"; "netplay_old"])].
Proof.
  refine (installDolphin_darwin_stale_backup Sample.darwin NETPLAY
            ["data"; "temp"; "FM-Slippi-2.10.0-Mac.dmg"]
            (Sample.start Disks.staleBackupDisk) _ _ _ _); vm_compute; reflexivity.
Defined.

Lemma installDolphin_frame_witness :
  lookup ["data"; "temp"; "FM-Slippi-2.10.0-Linux.zip"]
    (fs (snd (installDolphin Sample.linux NETPLAY
                ["data"; "temp"; "FM-Slippi-2.10.0-Linux.zip"] true
                (Sample.start Sample.linuxDisk)))) = Some (File "zip-archive").
Proof.
  refine (installDolphin_frame Sample.linux NETPLAY
            ["data"; "temp"; "FM-Slippi-2.10.0-Linux.zip"] true
            (Sample.start Sample.linuxDisk)
            ["data"; "temp"; "FM-Slippi-2.10.0-Linux.zip"] _ _ _ _);
    try intros _; vm_compute; reflexivity.
Defined.

Lemma downloadLatestDolphin_without_window_witness :
  let r := downloadLatestDolphin Disks.windowless NETPLAY (Sample.start (Dir [])) in
  fst r = inr ["data"; "temp"; "FM-Slippi-2.10.0-Mac.dmg"] /\
  fs (snd r) = Dir [("data", Dir [("temp", Dir [])])] /\
  is_file_at ["data"; "temp"; "FM-Slippi-2.10.0-Mac.dmg"] (fs (snd r)) = false /\
  map snd (trace (snd r)) =
    [] ++ [AGetLatestRelease "project-slippi" "Ishiiruka"; AEnsureDir ["data"; "temp"]].
Proof.
  refine (downloadLatestDolphin_without_window Disks.windowless NETPLAY
            (Sample.start (Dir [])) (Sample.release "Mac.dmg")
            (mkAsset "FM-Slippi-2.10.0-Mac.dmg" "https://releases/Mac.dmg")
            _ _ _ (Dir [("data", Dir [("temp", Dir [])])]) _ _ _); vm_compute; reflexivity.
Defined.

Lemma downloadLatestDolphin_stores_transfer_witness :
  let r := downloadLatestDolphin Sample.darwin NETPLAY (Sample.start (Dir [])) in
  fst r = inr ["data"; "temp"; "FM-Slippi-2.10.0-Mac.dmg"] /\
  lookup ["data"; "temp"; "FM-Slippi-2.10.0-Mac.dmg"] (fs (snd r)) = Some (File "dmg-image").
Proof.
  pose proof (downloadLatestDolphin_stores_transfer Sample.darwin NETPLAY
                (Sample.start (Dir [])) (Sample.release "Mac.dmg")
                (mkAsset "FM-Slippi-2.10.0-Mac.dmg" "https://releases/Mac.dmg")) as H.
  refine (let H' := H _ _ _ (Dir [("data", Dir [("temp", Dir [])])])
                      (Dir [("data", Dir [("temp",
                          Dir [("FM-Slippi-2.10.0-Mac.dmg", File "dmg-image")])])])
                      ["50"; "100"] "dmg-image" _ _ _ _ _ in
          conj (proj1 H') (proj1 (proj2 H'))); vm_compute; reflexivity.
Defined.

Lemma downloadLatestDolphin_frame_witness :
  lookup ["data"; "netplay"]
    (fs (snd (downloadLatestDolphin Sample.darwin NETPLAY (Sample.start Sample.darwinDisk)))) =
  lookup ["data"; "netplay"] Sample.darwinDisk.
Proof.
  refine (downloadLatestDolphin_frame Sample.darwin NETPLAY (Sample.start Sample.darwinDisk)
            ["data"; "netplay"] _); vm_compute; reflexivity.
Defined.

Lemma getLatestDolphinAsset_failures_witness :
  fst (getLatestDolphinAsset Sample.flakyProvider NETPLAY (Sample.start (Dir []))) =
    inl "getaddrinfo ENOTFOUND api.github.com" /\
  fst (getLatestDolphinAsset Sample.freebsd NETPLAY (Sample.start (Dir []))) =
    inl "No release asset matched the current platform: freebsd".
Proof.
  split.
  - refine (f_equal fst
              (proj1 (getLatestDolphinAsset_failures Sample.flakyProvider NETPLAY
                        (Sample.start (Dir [])))
                 "getaddrinfo ENOTFOUND api.github.com" _)); vm_compute; reflexivity.
  - refine (f_equal fst
              (proj2 (getLatestDolphinAsset_failures Sample.freebsd NETPLAY
                        (Sample.start (Dir [])))
                 (Sample.release "Linux.zip") _ _)).
    + repeat split; discriminate.
    + vm_compute; reflexivity.
Defined.

Lemma assertDolphinInstallations_without_asset_witness :
  let r := assertDolphinInstallations Sample.freebsd (Sample.start Sample.linuxDisk) in
  fs (snd r) = Sample.linuxDisk /\
  exists d, trace (snd r) = [] ++ d /\ Forall (fun x => is_inquiry (snd x) = true) d.
Proof.
  refine (assertDolphinInstallations_without_asset Sample.freebsd
            (Sample.start Sample.linuxDisk) _).
  intros t owner repo. vm_compute; reflexivity.
Defined.

Lemma assertDolphinInstallation_up_to_date_witness :
  let r := assertDolphinInstallation Disks.current NETPLAY (Sample.start Sample.darwinDisk) in
  fst r = inr tt /\
  fs (snd r) = Sample.darwinDisk /\
  map snd (trace (snd r)) =
    [] ++ [AGetLatestRelease "project-slippi" "Ishiiruka";
           ASpawnSync (Sample.darwinExe NETPLAY) ["--version"]] /\
  last (logs (snd r)) "" = "No update found...".
Proof.
  refine (assertDolphinInstallation_up_to_date Disks.current NETPLAY
            (Sample.start Sample.darwinDisk) (Sample.release "Mac.dmg") "2.10.0"
            _ _ _ _); vm_compute; reflexivity.
Defined.

Lemma assertDolphinInstallation_outdated_witness :
  fst (assertDolphinInstallation Sample.darwin NETPLAY (Sample.start Sample.darwinDisk)) =
    inr tt.
Proof.
  rewrite (assertDolphinInstallation_outdated Sample.darwin NETPLAY
             (Sample.start Sample.darwinDisk) (Sample.release "Mac.dmg") "2.9.0");
    vm_compute; reflexivity.
Defined.

Lemma matchesPlatform_exclusive_witness :
  matchesPlatform Sample.linux "FM-Slippi-2.10.0-Mac.dmg" = false.
Proof.
  refine (matchesPlatform_exclusive Sample.darwin Sample.linux "FM-Slippi-2.10.0-Mac.dmg" _ _).
  - discriminate.
  - vm_compute; reflexivity.
Defined.
